(** * thermo.eos_mix_methods: mixing-rule numeric core of the cubic equations of state

    A shallow embedding of [thermo/eos_mix_methods.py] and the properties of
    its routines.

    Numbers.  Python floats are idealised as real numbers ([R] of the Standard
    Library): rounding, overflow, infinities and NaN are not modelled.  What is
    modelled of the float operations is where Python leaves the reals or
    raises: [1.0/x] raises [ZeroDivisionError] at zero, [math.log] raises
    [ValueError] outside the positive reals, and [x**0.5] of a negative float
    is a complex number.  Equalities between returned numbers are therefore
    equalities of real numbers.  The module [Float64] repeats the two mixture
    routines on binary64 floats, to compute what they return, rounding
    included, on a concrete input.

    Containers.  Python lists are [list]s read with stdpp's lookup and written
    with stdpp's insert; an index out of range raises [IndexError], as in
    Python.  A matrix is a list of rows.  Row aliases of the source
    ([a_alpha_ijs_is = a_alpha_ijs[i]]) are resolved to the row of the matrix
    they alias, so a write through the alias is a write into the matrix. *)

From Stdlib Require Import PrimFloat.
From Stdlib Require Import Reals Lra Lia List String.
From stdpp Require Import base option list.

Open Scope R_scope.

(** ** Exceptions and results *)

(** The Python exceptions the module can raise.  [ComplexValue] is not an
    exception: it marks a run on which [x**0.5] received a negative float and
    Python went on with a complex number, which this real-valued model does
    not follow. *)
Inductive exn : Type :=
| ZeroDivisionError
| ValueError (msg : string)
| IndexError
| ComplexValue.

Inductive result (A : Type) : Type :=
| Ok (a : A)
| Raise (e : exn).

Arguments Ok {A} a.
Arguments Raise {A} e.

#[global] Instance result_ret : MRet result := @Ok.

#[global] Instance result_bind : MBind result :=
  fun A B f r => match r with Ok a => f a | Raise e => Raise e end.

(** ** Float operations that can raise *)

(** [x / y] on floats. *)
Definition py_div (x y : R) : result R :=
  if Req_dec_T y 0 then Raise ZeroDivisionError else Ok (x / y).

(** [x ** 0.5]. *)
Definition pow_half (x : R) : result R :=
  if Rle_dec 0 x then Ok (sqrt x) else Raise ComplexValue.

(** [math.log]. *)
Definition py_log (x : R) : result R :=
  if Rlt_dec 0 x then Ok (ln x) else Raise (ValueError "math domain error").

(** ** Lists and matrices *)

(** [l[i]] for [i] a non-negative index. *)
Definition getitem {A} (l : list A) (i : nat) : result A :=
  match l !! i with Some x => Ok x | None => Raise IndexError end.

(** [l[i] = v]. *)
Definition setitem {A} (l : list A) (i : nat) (v : A) : result (list A) :=
  if decide (i < length l)%nat then Ok (<[i := v]> l) else Raise IndexError.

(** [m[i][j] = v]: the row is fetched, then written in place. *)
Definition setitem2 {A} (m : list (list A)) (i j : nat) (v : A)
  : result (list (list A)) :=
  row ← getitem m i;
  row' ← setitem row j v;
  Ok (<[i := row']> m).

(** [[[0.0]*N for _ in range(N)]]: [N] distinct rows of [N] zeros. *)
Definition zeros (N : nat) : list R := replicate N 0.
Definition zeros2 (N : nat) : list (list R) := replicate N (zeros N).

(** List comprehension [[f(x) for x in l]], stopping at the first exception. *)
Fixpoint comprehension {A B} (f : A -> result B) (l : list A) : result (list B) :=
  match l with
  | [] => Ok []
  | x :: l' => y ← f x; ys ← comprehension f l'; Ok (y :: ys)
  end.

(** ** Loops *)

(** [for i in l: s = body(i, s)]. *)
Fixpoint for_each {S} (body : nat -> S -> result S) (l : list nat) (s : S)
  : result S :=
  match l with
  | [] => Ok s
  | i :: l' => s' ← body i s; for_each body l' s'
  end.

(** [for i in range(lo, hi)]. *)
Definition for_range {S} (lo hi : nat) (body : nat -> S -> result S) (s : S)
  : result S :=
  for_each body (seq lo (hi - lo)) s.

(** ** Pairwise terms *)

(** The sentinel stored for the reciprocal of a zero product. *)
Definition sentinel : R := 1e100.

(** [a_alpha_aijs_composition_independent(a_alphas, kijs)]. *)
Definition a_alpha_aijs_composition_independent
    (a_alphas : list R) (kijs : list (list R))
  : result (list (list R) * list R * list (list R)) :=
  let N := length a_alphas in
  let a_alpha_ijs := zeros2 N in
  a_alpha_i_roots ← comprehension pow_half a_alphas;
  let a_alpha_ij_roots_inv := zeros2 N in
  '(a_alpha_ijs, a_alpha_ij_roots_inv) ←
    for_range 0 N (fun i '(a_alpha_ijs, a_alpha_ij_roots_inv) =>
      kijs_i ← getitem kijs i;
      a_alpha_i ← getitem a_alphas i;
      a_alpha_i_root_i ← getitem a_alpha_i_roots i;
      for_range i N (fun j '(a_alpha_ijs, a_alpha_ij_roots_inv) =>
        a_alpha_i_root_j ← getitem a_alpha_i_roots j;
        let term := a_alpha_i_root_i * a_alpha_i_root_j in
        term_inv ← py_div 1 term;
        a_alpha_ij_roots_inv ← setitem2 a_alpha_ij_roots_inv i j term_inv;
        kij ← getitem kijs_i j;
        let a_alpha_ij := (1 - kij) * term in
        a_alpha_ijs ← setitem2 a_alpha_ijs i j a_alpha_ij;
        a_alpha_ijs ← setitem2 a_alpha_ijs j i a_alpha_ij;
        Ok (a_alpha_ijs, a_alpha_ij_roots_inv))
      (a_alpha_ijs, a_alpha_ij_roots_inv))
    (a_alpha_ijs, a_alpha_ij_roots_inv);
  Ok (a_alpha_ijs, a_alpha_i_roots, a_alpha_ij_roots_inv).

(** [try: c  except ZeroDivisionError: handler]. *)
Definition try_except_ZeroDivisionError {A} (c handler : result A) : result A :=
  match c with
  | Raise ZeroDivisionError => handler
  | r => r
  end.

(** [a_alpha_aijs_composition_independent_support_zeros(a_alphas, kijs)]. *)
Definition a_alpha_aijs_composition_independent_support_zeros
    (a_alphas : list R) (kijs : list (list R))
  : result (list (list R) * list R * list (list R)) :=
  let N := length a_alphas in
  let a_alpha_ijs := zeros2 N in
  a_alpha_i_roots ← comprehension pow_half a_alphas;
  let a_alpha_ij_roots_inv := zeros2 N in
  '(a_alpha_ijs, a_alpha_ij_roots_inv) ←
    for_range 0 N (fun i '(a_alpha_ijs, a_alpha_ij_roots_inv) =>
      kijs_i ← getitem kijs i;
      a_alpha_i ← getitem a_alphas i;
      a_alpha_i_root_i ← getitem a_alpha_i_roots i;
      for_range i N (fun j '(a_alpha_ijs, a_alpha_ij_roots_inv) =>
        a_alpha_i_root_j ← getitem a_alpha_i_roots j;
        let term := a_alpha_i_root_i * a_alpha_i_root_j in
        a_alpha_ij_roots_inv ←
          try_except_ZeroDivisionError
            (term_inv ← py_div 1 term;
             setitem2 a_alpha_ij_roots_inv i j term_inv)
            (setitem2 a_alpha_ij_roots_inv i j sentinel);
        kij ← getitem kijs_i j;
        let a_alpha_ij := (1 - kij) * term in
        a_alpha_ijs ← setitem2 a_alpha_ijs i j a_alpha_ij;
        a_alpha_ijs ← setitem2 a_alpha_ijs j i a_alpha_ij;
        Ok (a_alpha_ijs, a_alpha_ij_roots_inv))
      (a_alpha_ijs, a_alpha_ij_roots_inv))
    (a_alpha_ijs, a_alpha_ij_roots_inv);
  Ok (a_alpha_ijs, a_alpha_i_roots, a_alpha_ij_roots_inv).

(** ** Mixture a_alpha and its temperature derivatives: the double sum *)

(** [a_alpha_and_derivatives_full(a_alphas, da_alpha_dTs, d2a_alpha_dT2s, T,
    zs, kijs, a_alpha_ijs=None, a_alpha_i_roots=None,
    a_alpha_ij_roots_inv=None, second_derivative=False)].

    The source returns five values, or six when [second_derivative] is set;
    here the matrix of second derivatives is an [option] in a tuple of six. *)
Definition a_alpha_and_derivatives_full
    (a_alphas da_alpha_dTs d2a_alpha_dT2s : list R) (T : R) (zs : list R)
    (kijs : list (list R))
    (a_alpha_ijs : option (list (list R)))
    (a_alpha_i_roots : option (list R))
    (a_alpha_ij_roots_inv : option (list (list R)))
    (second_derivative : bool)
  : result (R * R * R * option (list (list R)) * list (list R) * list (list R)) :=
  let N := length a_alphas in
  let cmps := seq 0 N in
  '(a_alpha_ijs, a_alpha_i_roots, a_alpha_ij_roots_inv) ←
    match a_alpha_ijs, a_alpha_i_roots, a_alpha_ij_roots_inv with
    | Some m, Some r, Some inv => Ok (m, r, inv)
    | _, _, _ => a_alpha_aijs_composition_independent a_alphas kijs
    end;
  z_products ←
    comprehension (fun i =>
      comprehension (fun j =>
        zi ← getitem zs i; zj ← getitem zs j; Ok (zi * zj)) cmps) cmps;
  a_alpha ←
    for_range 0 N (fun i a_alpha =>
      a_alpha_ijs_i ← getitem a_alpha_ijs i;
      z_products_i ← getitem z_products i;
      a_alpha ←
        for_range 0 i (fun j a_alpha =>
          a_alpha_ij ← getitem a_alpha_ijs_i j;
          zi_zj ← getitem z_products_i j;
          let term := a_alpha_ij * zi_zj in
          Ok (a_alpha + (term + term)))
        a_alpha;
      a_alpha_ii ← getitem a_alpha_ijs_i i;
      zi_zi ← getitem z_products_i i;
      Ok (a_alpha + a_alpha_ii * zi_zi))
    0;
  let da_alpha_dT_ijs := zeros2 N in
  let d2a_alpha_dT2_ijs := if second_derivative then Some (zeros2 N) else None in
  '(da_alpha_dT, d2a_alpha_dT2, da_alpha_dT_ijs, d2a_alpha_dT2_ijs) ←
    for_range 0 N (fun i st =>
      kijs_i ← getitem kijs i;
      a_alphai ← getitem a_alphas i;
      z_products_i ← getitem z_products i;
      da_alpha_dT_i ← getitem da_alpha_dTs i;
      d2a_alpha_dT2_i ← getitem d2a_alpha_dT2s i;
      a_alpha_ij_roots_inv_i ← getitem a_alpha_ij_roots_inv i;
      for_each (fun j '(da_alpha_dT, d2a_alpha_dT2, da_alpha_dT_ijs, d2a_alpha_dT2_ijs) =>
        if (j <? i)%nat then
          (* continue *)
          Ok (da_alpha_dT, d2a_alpha_dT2, da_alpha_dT_ijs, d2a_alpha_dT2_ijs)
        else
          a_alphaj ← getitem a_alphas j;
          x0_05_inv ← getitem a_alpha_ij_roots_inv_i j;
          zi_zj ← getitem z_products_i j;
          da_alpha_dT_j ← getitem da_alpha_dTs j;
          let x1 := a_alphai * da_alpha_dT_j in
          let x2 := a_alphaj * da_alpha_dT_i in
          let x1_x2 := x1 + x2 in
          kij ← getitem kijs_i j;
          let kij_m1 := kij - 1 in
          let da_alpha_dT_ij := -0.5 * kij_m1 * x1_x2 * x0_05_inv in
          da_alpha_dT_ijs ← setitem2 da_alpha_dT_ijs i j da_alpha_dT_ij;
          da_alpha_dT_ijs ← setitem2 da_alpha_dT_ijs j i da_alpha_dT_ij;
          let da_alpha_dT_ij := da_alpha_dT_ij * zi_zj in
          let x0 := a_alphai * a_alphaj in
          d2a_alpha_dT2_j ← getitem d2a_alpha_dT2s j;
          quot ← py_div
                   (x0 * (-0.5 * (a_alphai * d2a_alpha_dT2_j + a_alphaj * d2a_alpha_dT2_i)
                          - da_alpha_dT_i * da_alpha_dT_j) + 0.25 * x1_x2 * x1_x2)
                   (x0_05_inv * x0 * x0);
          let d2a_alpha_dT2_ij := kij_m1 * quot in
          d2a_alpha_dT2_ijs ←
            match d2a_alpha_dT2_ijs with
            | Some m =>
                m ← setitem2 m i j d2a_alpha_dT2_ij;
                m ← setitem2 m j i d2a_alpha_dT2_ij;
                Ok (Some m)
            | None => Ok None
            end;
          let d2a_alpha_dT2_ij := d2a_alpha_dT2_ij * zi_zj in
          if decide (i ≠ j) then
            Ok (da_alpha_dT + (da_alpha_dT_ij + da_alpha_dT_ij),
                d2a_alpha_dT2 + (d2a_alpha_dT2_ij + d2a_alpha_dT2_ij),
                da_alpha_dT_ijs, d2a_alpha_dT2_ijs)
          else
            Ok (da_alpha_dT + da_alpha_dT_ij,
                d2a_alpha_dT2 + d2a_alpha_dT2_ij,
                da_alpha_dT_ijs, d2a_alpha_dT2_ijs))
        cmps st)
    (0, 0, da_alpha_dT_ijs, d2a_alpha_dT2_ijs);
  Ok (a_alpha, da_alpha_dT, d2a_alpha_dT2, d2a_alpha_dT2_ijs, da_alpha_dT_ijs,
      a_alpha_ijs).

(** ** The quadratic-terms reformulation *)

(** [a_alpha_quadratic_terms(a_alphas, a_alpha_i_roots, T, zs, kijs)].  The two
    [while] loops of the source count [i] from [0] to [N] and [j] from [0] to
    [i] by one: they are the same ranges as a [for]. *)
Definition a_alpha_quadratic_terms
    (a_alphas a_alpha_i_roots : list R) (T : R) (zs : list R)
    (kijs : list (list R))
  : result (R * list R) :=
  let N := length a_alphas in
  let a_alpha_j_rows := zeros N in
  let things0 := zeros N in
  things0 ←
    for_range 0 N (fun i things0 =>
      root_i ← getitem a_alpha_i_roots i;
      zi ← getitem zs i;
      setitem things0 i (root_i * zi))
    things0;
  let a_alpha := 0 in
  a_alpha_j_rows ←
    for_range 0 N (fun i a_alpha_j_rows =>
      kijs_i ← getitem kijs i;
      for_range 0 i (fun j a_alpha_j_rows =>
        row_j ← getitem a_alpha_j_rows j;
        kij ← getitem kijs_i j;
        things0_i ← getitem things0 i;
        a_alpha_j_rows ← setitem a_alpha_j_rows j (row_j + (1 - kij) * things0_i);
        row_i ← getitem a_alpha_j_rows i;
        kij ← getitem kijs_i j;
        things0_j ← getitem things0 j;
        setitem a_alpha_j_rows i (row_i + (1 - kij) * things0_j))
      a_alpha_j_rows)
    a_alpha_j_rows;
  for_range 0 N (fun i '(a_alpha, a_alpha_j_rows) =>
    row_i ← getitem a_alpha_j_rows i;
    root_i ← getitem a_alpha_i_roots i;
    a_alpha_j_rows ← setitem a_alpha_j_rows i (row_i * root_i);
    row_i ← getitem a_alpha_j_rows i;
    kijs_i ← getitem kijs i;
    kii ← getitem kijs_i i;
    a_alpha_i ← getitem a_alphas i;
    zi ← getitem zs i;
    a_alpha_j_rows ← setitem a_alpha_j_rows i (row_i + (1 - kii) * a_alpha_i * zi);
    row_i ← getitem a_alpha_j_rows i;
    zi ← getitem zs i;
    Ok (a_alpha + row_i * zi, a_alpha_j_rows))
  (a_alpha, a_alpha_j_rows).

(** [a_alpha_and_derivatives_quadratic_terms(a_alphas, a_alpha_i_roots,
    da_alpha_dTs, d2a_alpha_dT2s, T, zs, kijs)]. *)
Definition a_alpha_and_derivatives_quadratic_terms
    (a_alphas a_alpha_i_roots da_alpha_dTs d2a_alpha_dT2s : list R) (T : R)
    (zs : list R) (kijs : list (list R))
  : result (R * R * R * list R * list R) :=
  let N := length a_alphas in
  let a_alpha_j_rows := zeros N in
  let da_alpha_dT_j_rows := zeros N in
  '(a_alpha, da_alpha_dT, d2a_alpha_dT2, a_alpha_j_rows, da_alpha_dT_j_rows) ←
    for_range 0 N
      (fun i '(a_alpha, da_alpha_dT, d2a_alpha_dT2, a_alpha_j_rows, da_alpha_dT_j_rows) =>
        kijs_i ← getitem kijs i;
        a_alpha_i_root_i ← getitem a_alpha_i_roots i;
        a_alphai ← getitem a_alphas i;
        da_alpha_dT_i ← getitem da_alpha_dTs i;
        d2a_alpha_dT2_i ← getitem d2a_alpha_dT2s i;
        '(a_alpha, a_alpha_j_rows, da_alpha_dT_j_rows, workingd1, workings2) ←
          for_range 0 i
            (fun j '(a_alpha, a_alpha_j_rows, da_alpha_dT_j_rows, workingd1, workings2) =>
              a_alpha_i_root_j ← getitem a_alpha_i_roots j;
              let v0 := a_alpha_i_root_i * a_alpha_i_root_j in
              kij ← getitem kijs_i j;
              let a_alpha_ijs_ij := (1 - kij) * v0 in
              zi ← getitem zs i;
              let t200 := a_alpha_ijs_ij * zi in
              row_j ← getitem a_alpha_j_rows j;
              a_alpha_j_rows ← setitem a_alpha_j_rows j (row_j + t200);
              row_i ← getitem a_alpha_j_rows i;
              zj ← getitem zs j;
              a_alpha_j_rows ← setitem a_alpha_j_rows i (row_i + zj * a_alpha_ijs_ij);
              zj ← getitem zs j;
              let t200 := t200 * zj in
              let a_alpha := a_alpha + (t200 + t200) in
              a_alphaj ← getitem a_alphas j;
              da_alpha_dT_j ← getitem da_alpha_dTs j;
              zi ← getitem zs i;
              zj ← getitem zs j;
              let zi_zj := zi * zj in
              let x1 := a_alphai * da_alpha_dT_j in
              let x2 := a_alphaj * da_alpha_dT_i in
              let x1_x2 := x1 + x2 in
              kij ← getitem kijs_i j;
              let kij_m1 := kij - 1 in
              v0_inv ← py_div 1 v0;
              let v1 := kij_m1 * v0_inv in
              let da_alpha_dT_ij := x1_x2 * v1 in
              drow_j ← getitem da_alpha_dT_j_rows j;
              zi ← getitem zs i;
              da_alpha_dT_j_rows ← setitem da_alpha_dT_j_rows j (drow_j + zi * da_alpha_dT_ij);
              drow_i ← getitem da_alpha_dT_j_rows i;
              zj ← getitem zs j;
              da_alpha_dT_j_rows ← setitem da_alpha_dT_j_rows i (drow_i + zj * da_alpha_dT_ij);
              let da_alpha_dT_ij := da_alpha_dT_ij * zi_zj in
              let x0 := a_alphai * a_alphaj in
              d2a_alpha_dT2_j ← getitem d2a_alpha_dT2s j;
              let d2a_alpha_dT2_ij :=
                v0_inv * v0_inv * v1 *
                (x0 * (-0.5 * (a_alphai * d2a_alpha_dT2_j + a_alphaj * d2a_alpha_dT2_i)
                       - da_alpha_dT_i * da_alpha_dT_j) + 0.25 * x1_x2 * x1_x2) in
              let d2a_alpha_dT2_ij := d2a_alpha_dT2_ij * zi_zj in
              Ok (a_alpha, a_alpha_j_rows, da_alpha_dT_j_rows,
                  workingd1 + da_alpha_dT_ij, workings2 + d2a_alpha_dT2_ij))
            (a_alpha, a_alpha_j_rows, da_alpha_dT_j_rows, 0, 0);
        a_alpha_i ← getitem a_alphas i;
        zi ← getitem zs i;
        let t200 := a_alpha_i * zi in
        row_i ← getitem a_alpha_j_rows i;
        a_alpha_j_rows ← setitem a_alpha_j_rows i (row_i + t200);
        zi ← getitem zs i;
        let a_alpha := a_alpha + t200 * zi in
        zi ← getitem zs i;
        let zi_zj := zi * zi in
        let da_alpha_dT_ij := - da_alpha_dT_i - da_alpha_dT_i in
        drow_i ← getitem da_alpha_dT_j_rows i;
        zi ← getitem zs i;
        da_alpha_dT_j_rows ← setitem da_alpha_dT_j_rows i (drow_i + zi * da_alpha_dT_ij);
        let da_alpha_dT_ij := da_alpha_dT_ij * zi_zj in
        Ok (a_alpha,
            da_alpha_dT - 0.5 * (da_alpha_dT_ij + (workingd1 + workingd1)),
            d2a_alpha_dT2 + (d2a_alpha_dT2_i * zi_zj + (workings2 + workings2)),
            a_alpha_j_rows, da_alpha_dT_j_rows))
      (0, 0, 0, a_alpha_j_rows, da_alpha_dT_j_rows);
  da_alpha_dT_j_rows ←
    for_range 0 N (fun i da_alpha_dT_j_rows =>
      drow_i ← getitem da_alpha_dT_j_rows i;
      setitem da_alpha_dT_j_rows i (drow_i * -0.5))
    da_alpha_dT_j_rows;
  Ok (a_alpha, da_alpha_dT, d2a_alpha_dT2, a_alpha_j_rows, da_alpha_dT_j_rows).

(** ** Peng-Robinson fugacity coefficients *)

Section PengRobinson.

(** The molar gas constant [R] of [fluids.constants] (named [R_gas] here:
    [R] is the type of real numbers). *)
Variable R_gas : R.

(** The cubic volume solver [thermo.eos_volume.volume_solutions_halley(T, P,
    b, delta, epsilon, a_alpha)], which returns three volumes. *)
Variable volume_solutions_halley : R -> R -> R -> R -> R -> R -> result (R * R * R).

Definition R2 : R := R_gas * R_gas.
Definition R_inv : R := 1 / R_gas.
Definition R2_inv : R := R_inv * R_inv.
Definition root_two : R := sqrt 2.
Definition root_two_m1 : R := root_two - 1.
Definition root_two_p1 : R := root_two + 1.

(** [PR_lnphis(T, P, Z, b, a_alpha, zs, bs, a_alpha_j_rows)]. *)
Definition PR_lnphis (T P Z b a_alpha : R) (zs bs a_alpha_j_rows : list R)
  : result (list R) :=
  let N := length zs in
  T_inv ← py_div 1 T;
  let P_T := P * T_inv in
  let A := a_alpha * P_T * R2_inv * T_inv in
  let B := b * P_T * R_inv in
  x0 ← py_log (Z - B);
  let root_two_B := B * root_two in
  let two_root_two_B := root_two_B + root_two_B in
  let ZB := Z + B in
  ratio ← py_div (ZB + root_two_B) (ZB - root_two_B);
  log_ratio ← py_log ratio;
  let x4 := A * log_ratio in
  t50 ← py_div (x4 + x4) (a_alpha * two_root_two_B);
  t51 ← py_div (x4 + (Z - 1) * two_root_two_B) (b * two_root_two_B);
  let lnphis := zeros N in
  for_range 0 N (fun i lnphis =>
    b_i ← getitem bs i;
    row_i ← getitem a_alpha_j_rows i;
    setitem lnphis i (b_i * t51 - x0 - t50 * row_i))
  lnphis.

(** The root selection of [PR_lnphis_fastest] (the [if l: ... elif g: ...
    else: raise] block): the volume [V0] that goes on to form [Z]. *)
Definition select_root (l g : bool) (b V0 V1 V2 : R) : result R :=
  if l then
    if Req_dec_T V1 0 then Ok V0
    else
      let V0 := if Rgt_dec V0 V1 then if Rgt_dec V1 b then V1 else V0 else V0 in
      let V0 := if Rgt_dec V0 V2 then if Rgt_dec V2 b then V2 else V0 else V0 in
      Ok V0
  else if g then
    if Req_dec_T V1 0 then Ok V0
    else
      let V0 := if Rlt_dec V0 V1 then if Rgt_dec V1 b then V1 else V0 else V0 in
      let V0 := if Rlt_dec V0 V2 then if Rgt_dec V2 b then V2 else V0 else V0 in
      Ok V0
  else Raise (ValueError "Root must be specified").

(** [PR_lnphis_fastest(zs, T, P, kijs, l, g, ais, bs, a_alphas,
    a_alpha_i_roots, kappas)]. *)
Definition PR_lnphis_fastest (zs : list R) (T P : R) (kijs : list (list R))
    (l g : bool) (ais bs a_alphas a_alpha_i_roots kappas : list R)
  : result (list R) :=
  let N := length bs in
  b ← for_range 0 N (fun i b =>
         b_i ← getitem bs i;
         zi ← getitem zs i;
         Ok (b + b_i * zi))
       0;
  let delta := 2 * b in
  let epsilon := - b * b in
  '(a_alpha, a_alpha_j_rows) ←
    a_alpha_quadratic_terms a_alphas a_alpha_i_roots T zs kijs;
  '(V0, V1, V2) ← volume_solutions_halley T P b delta epsilon a_alpha;
  V0 ← select_root l g b V0 V1 V2;
  Z ← py_div (P * V0) (R_gas * T);
  PR_lnphis T P Z b a_alpha zs bs a_alpha_j_rows.

End PengRobinson.

(** ** Reading lists and matrices in statements *)

(** [item l i] is [l[i]] where the index is in range, [item2 m i j] is
    [m[i][j]], and [entry m i j] is [m[i][j]] as an option. *)
Definition item (l : list R) (i : nat) : R := nth i l 0.
Definition item2 (m : list (list R)) (i j : nat) : R := item (nth i m []) j.
Definition entry (m : list (list R)) (i j : nat) : option R := m !! i ≫= (.!! j).

(** The two pairwise-term builders differ only in how the reciprocal of
    [term] is obtained; [aijs_with recip] is their common shape. *)
Definition aijs_with (recip : R -> result R)
    (a_alphas : list R) (kijs : list (list R))
  : result (list (list R) * list R * list (list R)) :=
  let N := length a_alphas in
  a_alpha_i_roots ← comprehension pow_half a_alphas;
  '(a_alpha_ijs, a_alpha_ij_roots_inv) ←
    for_range 0 N (fun i '(a_alpha_ijs, a_alpha_ij_roots_inv) =>
      kijs_i ← getitem kijs i;
      a_alpha_i ← getitem a_alphas i;
      a_alpha_i_root_i ← getitem a_alpha_i_roots i;
      for_range i N (fun j '(a_alpha_ijs, a_alpha_ij_roots_inv) =>
        a_alpha_i_root_j ← getitem a_alpha_i_roots j;
        let term := a_alpha_i_root_i * a_alpha_i_root_j in
        term_inv ← recip term;
        a_alpha_ij_roots_inv ← setitem2 a_alpha_ij_roots_inv i j term_inv;
        kij ← getitem kijs_i j;
        let a_alpha_ij := (1 - kij) * term in
        a_alpha_ijs ← setitem2 a_alpha_ijs i j a_alpha_ij;
        a_alpha_ijs ← setitem2 a_alpha_ijs j i a_alpha_ij;
        Ok (a_alpha_ijs, a_alpha_ij_roots_inv))
      (a_alpha_ijs, a_alpha_ij_roots_inv))
    (zeros2 N, zeros2 N);
  Ok (a_alpha_ijs, a_alpha_i_roots, a_alpha_ij_roots_inv).

(** The reciprocal as the zero-tolerant builder stores it. *)
Definition recip_or_sentinel (term : R) : R :=
  if Req_dec_T term 0 then sentinel else 1 / term.

(** [kijs] is an [N] by [N] matrix. *)
Definition square (N : nat) (m : list (list R)) : Prop :=
  length m = N /\ Forall (fun row => length row = N) m.

Definition symmetric (N : nat) (m : list (list R)) : Prop :=
  forall i j, (i < N)%nat -> (j < N)%nat -> item2 m i j = item2 m j i.

Definition zero_diagonal (N : nat) (m : list (list R)) : Prop :=
  forall i, (i < N)%nat -> item2 m i i = 0.

(** The pairwise term as the specification writes it:
    [(1 - kij) * sqrt(a_alpha_i * a_alpha_j)]. *)
Definition a_alpha_ij_formula (a_alphas : list R) (kijs : list (list R))
    (i j : nat) : R :=
  (1 - item2 kijs i j) * sqrt (item a_alphas i * item a_alphas j).

(** What the pairwise-term builder is specified to return on [a_alphas] and
    [kijs]: a matrix of the pairwise terms and the vector of square roots. *)
Definition returns_pairwise_terms (a_alphas : list R) (kijs : list (list R))
    (out : result (list (list R) * list R * list (list R))) : Prop :=
  exists a_alpha_ijs a_alpha_i_roots a_alpha_ij_roots_inv,
    out = Ok (a_alpha_ijs, a_alpha_i_roots, a_alpha_ij_roots_inv) /\
    (forall i j, (i < length a_alphas)%nat -> (j < length a_alphas)%nat ->
       entry a_alpha_ijs i j = Some (a_alpha_ij_formula a_alphas kijs i j)) /\
    (forall i, (i < length a_alphas)%nat ->
       a_alpha_i_roots !! i = Some (sqrt (item a_alphas i))).

(** The product of roots whose reciprocal the builders store at [(i, j)]. *)
Definition root_product (a_alphas : list R) (i j : nat) : R :=
  sqrt (item a_alphas i) * sqrt (item a_alphas j).

(** [Rsum n f] is the sum of [f 0], ..., [f (n-1)], added in that order. *)
Fixpoint Rsum (n : nat) (f : nat -> R) : R :=
  match n with
  | O => 0
  | S n' => Rsum n' f + f n'
  end.

(** What the scatter loop of [a_alpha_quadratic_terms] adds to row [p] when
    it visits the pair [j < i]. *)
Definition scatter (a_alpha_i_roots zs : list R) (kijs : list (list R))
    (i j p : nat) : R :=
  (if decide (p = j)
   then (1 - item2 kijs i j) * (item a_alpha_i_roots i * item zs i) else 0)
  + (if decide (p = i)
     then (1 - item2 kijs i j) * (item a_alpha_i_roots j * item zs j) else 0).

(** Row [p] after the scatter loop over the first [n] values of [i]. *)
Definition scattered (a_alpha_i_roots zs : list R) (kijs : list (list R))
    (n p : nat) : R :=
  Rsum n (fun i => Rsum i (fun j => scatter a_alpha_i_roots zs kijs i j p)).

(** Row [p] as [a_alpha_quadratic_terms] returns it. *)
Definition quadratic_row (a_alphas a_alpha_i_roots zs : list R)
    (kijs : list (list R)) (p : nat) : R :=
  scattered a_alpha_i_roots zs kijs (length a_alphas) p * item a_alpha_i_roots p
  + (1 - item2 kijs p p) * item a_alphas p * item zs p.

(** The row sums as the specification writes them. *)
Definition row_sum_formula (a_alphas zs : list R) (kijs : list (list R)) (i : nat) : R :=
  Rsum (length a_alphas) (fun j => item zs j * a_alpha_ij_formula a_alphas kijs i j).

(** The mixture [a_alpha] as the specification writes it: the double sum
    over all ordered pairs. *)
Definition a_alpha_formula (a_alphas zs : list R) (kijs : list (list R)) : R :=
  Rsum (length a_alphas) (fun i =>
    Rsum (length a_alphas) (fun j =>
      item zs i * item zs j * a_alpha_ij_formula a_alphas kijs i j)).

(** ** Closed forms of the loops of the two mixture routines *)

Section ClosedForms.
Variables (a_alphas da_alpha_dTs d2a_alpha_dT2s zs : list R).
Variable kijs : list (list R).

(** The entry [(i, j)] of the pairwise matrix the plain builder returns. *)
Definition a_alpha_ij_built (i j : nat) : R :=
  (1 - item2 kijs (min i j) (max i j)) * root_product a_alphas (min i j) (max i j).

(** [x1_x2] of both routines. *)
Definition x1_x2_at (i j : nat) : R :=
  item a_alphas i * item da_alpha_dTs j + item a_alphas j * item da_alpha_dTs i.

(** The bracket shared by the two second-derivative expressions. *)
Definition d2_bracket (i j : nat) : R :=
  item a_alphas i * item a_alphas j
  * (-0.5 * (item a_alphas i * item d2a_alpha_dT2s j
             + item a_alphas j * item d2a_alpha_dT2s i)
     - item da_alpha_dTs i * item da_alpha_dTs j)
  + 0.25 * x1_x2_at i j * x1_x2_at i j.

(** [da_alpha_dT_ij] of [a_alpha_and_derivatives_full], before it is scaled
    by [zi_zj]. *)
Definition full_da_ij (i j : nat) : R :=
  -0.5 * (item2 kijs i j - 1) * x1_x2_at i j * (1 / root_product a_alphas i j).

(** [d2a_alpha_dT2_ij] of [a_alpha_and_derivatives_full], before it is scaled
    by [zi_zj]. *)
Definition full_d2_ij (i j : nat) : R :=
  (item2 kijs i j - 1)
  * (d2_bracket i j
     / (1 / root_product a_alphas i j
        * (item a_alphas i * item a_alphas j)
        * (item a_alphas i * item a_alphas j))).

(** What iteration [(i, j)] of the derivative loop of the full routine adds
    to a total, [x] being the pair's scaled term. *)
Definition full_step (i j : nat) (x : R) : R :=
  if (j <? i)%nat then 0 else if decide (i ≠ j) then x + x else x.

Definition full_a_alpha : R :=
  Rsum (length a_alphas) (fun i =>
    Rsum i (fun j =>
      a_alpha_ij_built i j * (item zs i * item zs j)
      + a_alpha_ij_built i j * (item zs i * item zs j))
    + a_alpha_ij_built i i * (item zs i * item zs i)).

Definition full_da_alpha_dT : R :=
  Rsum (length a_alphas) (fun i =>
    Rsum (length a_alphas) (fun j =>
      full_step i j (full_da_ij i j * (item zs i * item zs j)))).

Definition full_d2a_alpha_dT2 : R :=
  Rsum (length a_alphas) (fun i =>
    Rsum (length a_alphas) (fun j =>
      full_step i j (full_d2_ij i j * (item zs i * item zs j)))).

(** [da_alpha_dT_ij] of the quadratic-terms routine, scaled by [zi_zj]. *)
Definition quad_da_ij (i j : nat) : R :=
  x1_x2_at i j * ((item2 kijs i j - 1) * (1 / root_product a_alphas i j))
  * (item zs i * item zs j).

(** [d2a_alpha_dT2_ij] of the quadratic-terms routine, scaled by [zi_zj]. *)
Definition quad_d2_ij (i j : nat) : R :=
  1 / root_product a_alphas i j * (1 / root_product a_alphas i j)
  * ((item2 kijs i j - 1) * (1 / root_product a_alphas i j))
  * d2_bracket i j
  * (item zs i * item zs j).

Definition quad_t200 (i j : nat) : R :=
  (1 - item2 kijs i j) * root_product a_alphas i j * item zs i * item zs j.

Definition quad_a_alpha : R :=
  Rsum (length a_alphas) (fun i =>
    Rsum i (fun j => quad_t200 i j + quad_t200 i j)
    + item a_alphas i * item zs i * item zs i).

Definition quad_da_alpha_dT : R :=
  Rsum (length a_alphas) (fun i =>
    - (0.5 * ((- item da_alpha_dTs i - item da_alpha_dTs i) * (item zs i * item zs i)
              + (Rsum i (quad_da_ij i) + Rsum i (quad_da_ij i))))).

Definition quad_d2a_alpha_dT2 : R :=
  Rsum (length a_alphas) (fun i =>
    item d2a_alpha_dT2s i * (item zs i * item zs i)
    + (Rsum i (quad_d2_ij i) + Rsum i (quad_d2_ij i))).

End ClosedForms.

(** Every position of the [N] by [N] block of [m] can be read and written. *)
Definition filled (N : nat) (m : list (list R)) : Prop :=
  forall p q, (p < N)%nat -> (q < N)%nat -> is_Some (entry m p q).

(** The two mixture routines return the same [a_alpha], [da_alpha_dT] and
    [d2a_alpha_dT2]. *)
Definition same_totals
    (full : result (R * R * R * option (list (list R)) * list (list R) * list (list R)))
    (quadratic : result (R * R * R * list R * list R)) : Prop :=
  exists a_alpha da_alpha_dT d2a_alpha_dT2
         d2a_alpha_dT2_ijs da_alpha_dT_ijs a_alpha_ijs
         a_alpha_j_rows da_alpha_dT_j_rows,
    full = Ok (a_alpha, da_alpha_dT, d2a_alpha_dT2,
               d2a_alpha_dT2_ijs, da_alpha_dT_ijs, a_alpha_ijs) /\
    quadratic = Ok (a_alpha, da_alpha_dT, d2a_alpha_dT2,
                    a_alpha_j_rows, da_alpha_dT_j_rows).

(** ** The closed-form Peng-Robinson expression, as the specification writes it *)

Definition PR_A (R_gas T P a_alpha : R) : R := a_alpha * P / (R_gas * R_gas * (T * T)).
Definition PR_B (R_gas T P b : R) : R := b * P / (R_gas * T).

(** The argument of the logarithm: [(Z+B+sqrt(2)*B)/(Z+B-sqrt(2)*B)]. *)
Definition PR_log_argument (Z B : R) : R :=
  (Z + B + sqrt 2 * B) / (Z + B - sqrt 2 * B).

Definition lnphi_formula (R_gas T P Z b a_alpha b_i rowsum_i : R) : R :=
  let A := PR_A R_gas T P a_alpha in
  let B := PR_B R_gas T P b in
  b_i / b * ((Z - 1) * 2 * sqrt 2 * B + A * ln (PR_log_argument Z B)) / (2 * sqrt 2 * B)
  - ln (Z - B)
  - A * ln (PR_log_argument Z B) * (2 * rowsum_i) / (a_alpha * 2 * sqrt 2 * B).

(** ** Root selection *)

(** The co-volume of the mixture as [PR_lnphis_fastest] sums it. *)
Definition mixture_b (bs zs : list R) : R :=
  Rsum (length bs) (fun i => item bs i * item zs i).

(** The mixture [a_alpha] as [a_alpha_quadratic_terms] sums it. *)
Definition quadratic_a_alpha (a_alphas a_alpha_i_roots zs : list R)
    (kijs : list (list R)) : R :=
  Rsum (length a_alphas) (fun p =>
    quadratic_row a_alphas a_alpha_i_roots zs kijs p * item zs p).


(** [V] is one of the three roots, exceeds [b], and no root exceeding [b] is
    larger. *)
Definition largest_root_exceeding (b V0 V1 V2 V : R) : Prop :=
  (V = V0 \/ V = V1 \/ V = V2) /\ V > b /\
  forall W, W = V0 \/ W = V1 \/ W = V2 -> W > b -> W <= V.

(** The liquid branch of the root selection. *)
Definition liquid_root (b V0 V1 V2 : R) : R :=
  if Req_dec_T V1 0 then V0
  else
    let V0 := if Rgt_dec V0 V1 then if Rgt_dec V1 b then V1 else V0 else V0 in
    if Rgt_dec V0 V2 then if Rgt_dec V2 b then V2 else V0 else V0.

(** The gas branch of the root selection. *)
Definition gas_root (b V0 V1 V2 : R) : R :=
  if Req_dec_T V1 0 then V0
  else
    let V0 := if Rlt_dec V0 V1 then if Rgt_dec V1 b then V1 else V0 else V0 in
    if Rlt_dec V0 V2 then if Rgt_dec V2 b then V2 else V0 else V0.

(** The volume that goes on to form [Z] when a root was requested. *)
Definition selected_root (l : bool) (b V0 V1 V2 : R) : R :=
  if l then liquid_root b V0 V1 V2 else gas_root b V0 V1 V2.

(** A stand-in for the volume solver on concrete runs: it returns the three
    given volumes whatever the state. *)
Definition three_roots (V0 V1 V2 : R)
  : R -> R -> R -> R -> R -> R -> result (R * R * R) :=
  fun _ _ _ _ _ _ => Ok (V0, V1, V2).

(** The value of [fluids.constants.R], for concrete runs. *)
Definition R_CODATA : R := 8.31446261815324.

(** ** The mixture a_alpha alone *)

(** [a_alpha_and_derivatives(a_alphas, T, zs, kijs, a_alpha_ijs=None,
    a_alpha_i_roots=None, a_alpha_ij_roots_inv=None)].  Despite its name the
    routine computes no derivative: its second value is always [None]. *)
Definition a_alpha_and_derivatives
    (a_alphas : list R) (T : R) (zs : list R) (kijs : list (list R))
    (a_alpha_ijs : option (list (list R)))
    (a_alpha_i_roots : option (list R))
    (a_alpha_ij_roots_inv : option (list (list R)))
  : result (R * option R * list (list R)) :=
  let N := length a_alphas in
  '(a_alpha_ijs, a_alpha_i_roots, a_alpha_ij_roots_inv) ←
    match a_alpha_ijs, a_alpha_i_roots, a_alpha_ij_roots_inv with
    | Some m, Some r, Some inv => Ok (m, r, inv)
    | _, _, _ => a_alpha_aijs_composition_independent a_alphas kijs
    end;
  a_alpha ←
    for_range 0 N (fun i a_alpha =>
      a_alpha_ijs_i ← getitem a_alpha_ijs i;
      zi ← getitem zs i;
      a_alpha ←
        for_range (i + 1) N (fun j a_alpha =>
          a_alpha_ij ← getitem a_alpha_ijs_i j;
          zj ← getitem zs j;
          let term := a_alpha_ij * zi * zj in
          Ok (a_alpha + (term + term)))
        a_alpha;
      a_alpha_ii ← getitem a_alpha_ijs_i i;
      Ok (a_alpha + a_alpha_ii * zi * zi))
    0;
  Ok (a_alpha, None, a_alpha_ijs).

(** The sum [a_alpha_and_derivatives] forms from a pairwise matrix [m]: every
    entry above the diagonal twice, every diagonal entry once. *)
Definition upper_triangle_sum (N : nat) (m : list (list R)) (zs : list R) : R :=
  Rsum N (fun i =>
    Rsum N (fun j =>
      if decide (i < j)%nat
      then item2 m i j * item zs i * item zs j + item2 m i j * item zs i * item zs j
      else 0)
    + item2 m i i * item zs i * item zs i).

(** ** Which entries of kijs a routine depends on *)

(** Two matrices with the same entries on and above the diagonal. *)
Definition agree_on_upper (N : nat) (m m' : list (list R)) : Prop :=
  forall i j, (i <= j)%nat -> (j < N)%nat -> item2 m i j = item2 m' i j.

(** Two matrices with the same entries on and below the diagonal. *)
Definition agree_on_lower (N : nat) (m m' : list (list R)) : Prop :=
  forall i j, (j <= i)%nat -> (i < N)%nat -> item2 m i j = item2 m' i j.

(** ** The fugacity coefficient of the mixture as a whole *)

(** [Z - 1 - ln(Z - B) - A/(2*sqrt(2)*B) * ln((Z+B+sqrt(2)*B)/(Z+B-sqrt(2)*B))]:
    the Peng-Robinson expression of a pure fluid with the mixture's [b] and
    [a_alpha]. *)
Definition lnphi_mixture (R_gas T P Z b a_alpha : R) : R :=
  let A := PR_A R_gas T P a_alpha in
  let B := PR_B R_gas T P b in
  Z - 1 - ln (Z - B) - A / (2 * sqrt 2 * B) * ln (PR_log_argument Z B).

(** ** The rows of the quadratic-terms derivative routine *)

Section QuadraticRows.
Variables (a_alphas da_alpha_dTs zs : list R).
Variable kijs : list (list R).

(** [a_alpha_ijs_ij] of [a_alpha_and_derivatives_quadratic_terms]. *)
Definition quad_a_ij (i j : nat) : R :=
  (1 - item2 kijs i j) * root_product a_alphas i j.

(** [da_alpha_dT_ij] of the routine before it is scaled by [zi_zj] (the
    factor -0.5 is applied at the end). *)
Definition quad_da_raw (i j : nat) : R :=
  x1_x2_at a_alphas da_alpha_dTs i j
  * ((item2 kijs i j - 1) * (1 / root_product a_alphas i j)).

(** What the pair [j < i] adds to entry [p] of a row vector: [x] scaled by
    [zs[i]] at [p = j], by [zs[j]] at [p = i]. *)
Definition pair_scatter (x : R) (i j p : nat) : R :=
  (if decide (p = j) then item zs i * x else 0)
  + (if decide (p = i) then item zs j * x else 0).

(** Entry [p] of [a_alpha_j_rows] after the first [n] values of [i]. *)
Definition quad_row_terms (n p : nat) : R :=
  Rsum n (fun i =>
    Rsum i (fun j => pair_scatter (quad_a_ij i j) i j p)
    + (if decide (p = i) then item a_alphas i * item zs i else 0)).

(** Entry [p] of [da_alpha_dT_j_rows] after the first [n] values of [i],
    before the final scaling by -0.5. *)
Definition quad_drow_terms (n p : nat) : R :=
  Rsum n (fun i =>
    Rsum i (fun j => pair_scatter (quad_da_raw i j) i j p)
    + (if decide (p = i)
       then item zs i * (- item da_alpha_dTs i - item da_alpha_dTs i) else 0)).

End QuadraticRows.

(** ** The same routines on binary64 floats

    The routines of this module are those above with every operation
    rounded as Python rounds it (IEEE 754 binary64, round to nearest even):
    the same reads, writes and operations in the same order and with the same
    association.  [x ** 0.5] is the correctly rounded square root, which is
    what the C library returns on the perfect squares used below.  They serve
    to compute what the source returns on a concrete input. *)

Module Float64.
#[local] Open Scope float_scope.

(** [x / y] on floats. *)
Definition py_div (x y : float) : result float :=
  if PrimFloat.eqb y 0 then Raise ZeroDivisionError else Ok (x / y).

(** [x ** 0.5]. *)
Definition pow_half (x : float) : result float :=
  if PrimFloat.leb 0 x then Ok (PrimFloat.sqrt x) else Raise ComplexValue.

Definition zeros (N : nat) : list float := replicate N 0.
Definition zeros2 (N : nat) : list (list float) := replicate N (zeros N).

Definition a_alpha_aijs_composition_independent
    (a_alphas : list float) (kijs : list (list float))
  : result (list (list float) * list float * list (list float)) :=
  let N := length a_alphas in
  let a_alpha_ijs := zeros2 N in
  a_alpha_i_roots ← comprehension pow_half a_alphas;
  let a_alpha_ij_roots_inv := zeros2 N in
  '(a_alpha_ijs, a_alpha_ij_roots_inv) ←
    for_range 0 N (fun i '(a_alpha_ijs, a_alpha_ij_roots_inv) =>
      kijs_i ← getitem kijs i;
      a_alpha_i ← getitem a_alphas i;
      a_alpha_i_root_i ← getitem a_alpha_i_roots i;
      for_range i N (fun j '(a_alpha_ijs, a_alpha_ij_roots_inv) =>
        a_alpha_i_root_j ← getitem a_alpha_i_roots j;
        let term := a_alpha_i_root_i * a_alpha_i_root_j in
        term_inv ← py_div 1 term;
        a_alpha_ij_roots_inv ← setitem2 a_alpha_ij_roots_inv i j term_inv;
        kij ← getitem kijs_i j;
        let a_alpha_ij := (1 - kij) * term in
        a_alpha_ijs ← setitem2 a_alpha_ijs i j a_alpha_ij;
        a_alpha_ijs ← setitem2 a_alpha_ijs j i a_alpha_ij;
        Ok (a_alpha_ijs, a_alpha_ij_roots_inv))
      (a_alpha_ijs, a_alpha_ij_roots_inv))
    (a_alpha_ijs, a_alpha_ij_roots_inv);
  Ok (a_alpha_ijs, a_alpha_i_roots, a_alpha_ij_roots_inv).

Definition a_alpha_and_derivatives_full
    (a_alphas da_alpha_dTs d2a_alpha_dT2s : list float) (T : float) (zs : list float)
    (kijs : list (list float))
    (a_alpha_ijs : option (list (list float)))
    (a_alpha_i_roots : option (list float))
    (a_alpha_ij_roots_inv : option (list (list float)))
    (second_derivative : bool)
  : result (float * float * float * option (list (list float))
            * list (list float) * list (list float)) :=
  let N := length a_alphas in
  let cmps := seq 0 N in
  '(a_alpha_ijs, a_alpha_i_roots, a_alpha_ij_roots_inv) ←
    match a_alpha_ijs, a_alpha_i_roots, a_alpha_ij_roots_inv with
    | Some m, Some r, Some inv => Ok (m, r, inv)
    | _, _, _ => a_alpha_aijs_composition_independent a_alphas kijs
    end;
  z_products ←
    comprehension (fun i =>
      comprehension (fun j =>
        zi ← getitem zs i; zj ← getitem zs j; Ok (zi * zj)) cmps) cmps;
  a_alpha ←
    for_range 0 N (fun i a_alpha =>
      a_alpha_ijs_i ← getitem a_alpha_ijs i;
      z_products_i ← getitem z_products i;
      a_alpha ←
        for_range 0 i (fun j a_alpha =>
          a_alpha_ij ← getitem a_alpha_ijs_i j;
          zi_zj ← getitem z_products_i j;
          let term := a_alpha_ij * zi_zj in
          Ok (a_alpha + (term + term)))
        a_alpha;
      a_alpha_ii ← getitem a_alpha_ijs_i i;
      zi_zi ← getitem z_products_i i;
      Ok (a_alpha + a_alpha_ii * zi_zi))
    0;
  let da_alpha_dT_ijs := zeros2 N in
  let d2a_alpha_dT2_ijs := if second_derivative then Some (zeros2 N) else None in
  '(da_alpha_dT, d2a_alpha_dT2, da_alpha_dT_ijs, d2a_alpha_dT2_ijs) ←
    for_range 0 N (fun i st =>
      kijs_i ← getitem kijs i;
      a_alphai ← getitem a_alphas i;
      z_products_i ← getitem z_products i;
      da_alpha_dT_i ← getitem da_alpha_dTs i;
      d2a_alpha_dT2_i ← getitem d2a_alpha_dT2s i;
      a_alpha_ij_roots_inv_i ← getitem a_alpha_ij_roots_inv i;
      for_each (fun j '(da_alpha_dT, d2a_alpha_dT2, da_alpha_dT_ijs, d2a_alpha_dT2_ijs) =>
        if (j <? i)%nat then
          (* continue *)
          Ok (da_alpha_dT, d2a_alpha_dT2, da_alpha_dT_ijs, d2a_alpha_dT2_ijs)
        else
          a_alphaj ← getitem a_alphas j;
          x0_05_inv ← getitem a_alpha_ij_roots_inv_i j;
          zi_zj ← getitem z_products_i j;
          da_alpha_dT_j ← getitem da_alpha_dTs j;
          let x1 := a_alphai * da_alpha_dT_j in
          let x2 := a_alphaj * da_alpha_dT_i in
          let x1_x2 := x1 + x2 in
          kij ← getitem kijs_i j;
          let kij_m1 := kij - 1 in
          let da_alpha_dT_ij := -0.5 * kij_m1 * x1_x2 * x0_05_inv in
          da_alpha_dT_ijs ← setitem2 da_alpha_dT_ijs i j da_alpha_dT_ij;
          da_alpha_dT_ijs ← setitem2 da_alpha_dT_ijs j i da_alpha_dT_ij;
          let da_alpha_dT_ij := da_alpha_dT_ij * zi_zj in
          let x0 := a_alphai * a_alphaj in
          d2a_alpha_dT2_j ← getitem d2a_alpha_dT2s j;
          quot ← py_div
                   (x0 * (-0.5 * (a_alphai * d2a_alpha_dT2_j + a_alphaj * d2a_alpha_dT2_i)
                          - da_alpha_dT_i * da_alpha_dT_j) + 0.25 * x1_x2 * x1_x2)
                   (x0_05_inv * x0 * x0);
          let d2a_alpha_dT2_ij := kij_m1 * quot in
          d2a_alpha_dT2_ijs ←
            match d2a_alpha_dT2_ijs with
            | Some m =>
                m ← setitem2 m i j d2a_alpha_dT2_ij;
                m ← setitem2 m j i d2a_alpha_dT2_ij;
                Ok (Some m)
            | None => Ok None
            end;
          let d2a_alpha_dT2_ij := d2a_alpha_dT2_ij * zi_zj in
          if decide (i ≠ j) then
            Ok (da_alpha_dT + (da_alpha_dT_ij + da_alpha_dT_ij),
                d2a_alpha_dT2 + (d2a_alpha_dT2_ij + d2a_alpha_dT2_ij),
                da_alpha_dT_ijs, d2a_alpha_dT2_ijs)
          else
            Ok (da_alpha_dT + da_alpha_dT_ij,
                d2a_alpha_dT2 + d2a_alpha_dT2_ij,
                da_alpha_dT_ijs, d2a_alpha_dT2_ijs))
        cmps st)
    (0, 0, da_alpha_dT_ijs, d2a_alpha_dT2_ijs);
  Ok (a_alpha, da_alpha_dT, d2a_alpha_dT2, d2a_alpha_dT2_ijs, da_alpha_dT_ijs,
      a_alpha_ijs).

Definition a_alpha_and_derivatives_quadratic_terms
    (a_alphas a_alpha_i_roots da_alpha_dTs d2a_alpha_dT2s : list float) (T : float)
    (zs : list float) (kijs : list (list float))
  : result (float * float * float * list float * list float) :=
  let N := length a_alphas in
  let a_alpha_j_rows := zeros N in
  let da_alpha_dT_j_rows := zeros N in
  '(a_alpha, da_alpha_dT, d2a_alpha_dT2, a_alpha_j_rows, da_alpha_dT_j_rows) ←
    for_range 0 N
      (fun i '(a_alpha, da_alpha_dT, d2a_alpha_dT2, a_alpha_j_rows, da_alpha_dT_j_rows) =>
        kijs_i ← getitem kijs i;
        a_alpha_i_root_i ← getitem a_alpha_i_roots i;
        a_alphai ← getitem a_alphas i;
        da_alpha_dT_i ← getitem da_alpha_dTs i;
        d2a_alpha_dT2_i ← getitem d2a_alpha_dT2s i;
        '(a_alpha, a_alpha_j_rows, da_alpha_dT_j_rows, workingd1, workings2) ←
          for_range 0 i
            (fun j '(a_alpha, a_alpha_j_rows, da_alpha_dT_j_rows, workingd1, workings2) =>
              a_alpha_i_root_j ← getitem a_alpha_i_roots j;
              let v0 := a_alpha_i_root_i * a_alpha_i_root_j in
              kij ← getitem kijs_i j;
              let a_alpha_ijs_ij := (1 - kij) * v0 in
              zi ← getitem zs i;
              let t200 := a_alpha_ijs_ij * zi in
              row_j ← getitem a_alpha_j_rows j;
              a_alpha_j_rows ← setitem a_alpha_j_rows j (row_j + t200);
              row_i ← getitem a_alpha_j_rows i;
              zj ← getitem zs j;
              a_alpha_j_rows ← setitem a_alpha_j_rows i (row_i + zj * a_alpha_ijs_ij);
              zj ← getitem zs j;
              let t200 := t200 * zj in
              let a_alpha := a_alpha + (t200 + t200) in
              a_alphaj ← getitem a_alphas j;
              da_alpha_dT_j ← getitem da_alpha_dTs j;
              zi ← getitem zs i;
              zj ← getitem zs j;
              let zi_zj := zi * zj in
              let x1 := a_alphai * da_alpha_dT_j in
              let x2 := a_alphaj * da_alpha_dT_i in
              let x1_x2 := x1 + x2 in
              kij ← getitem kijs_i j;
              let kij_m1 := kij - 1 in
              v0_inv ← py_div 1 v0;
              let v1 := kij_m1 * v0_inv in
              let da_alpha_dT_ij := x1_x2 * v1 in
              drow_j ← getitem da_alpha_dT_j_rows j;
              zi ← getitem zs i;
              da_alpha_dT_j_rows ← setitem da_alpha_dT_j_rows j (drow_j + zi * da_alpha_dT_ij);
              drow_i ← getitem da_alpha_dT_j_rows i;
              zj ← getitem zs j;
              da_alpha_dT_j_rows ← setitem da_alpha_dT_j_rows i (drow_i + zj * da_alpha_dT_ij);
              let da_alpha_dT_ij := da_alpha_dT_ij * zi_zj in
              let x0 := a_alphai * a_alphaj in
              d2a_alpha_dT2_j ← getitem d2a_alpha_dT2s j;
              let d2a_alpha_dT2_ij :=
                v0_inv * v0_inv * v1 *
                (x0 * (-0.5 * (a_alphai * d2a_alpha_dT2_j + a_alphaj * d2a_alpha_dT2_i)
                       - da_alpha_dT_i * da_alpha_dT_j) + 0.25 * x1_x2 * x1_x2) in
              let d2a_alpha_dT2_ij := d2a_alpha_dT2_ij * zi_zj in
              Ok (a_alpha, a_alpha_j_rows, da_alpha_dT_j_rows,
                  workingd1 + da_alpha_dT_ij, workings2 + d2a_alpha_dT2_ij))
            (a_alpha, a_alpha_j_rows, da_alpha_dT_j_rows, 0, 0);
        a_alpha_i ← getitem a_alphas i;
        zi ← getitem zs i;
        let t200 := a_alpha_i * zi in
        row_i ← getitem a_alpha_j_rows i;
        a_alpha_j_rows ← setitem a_alpha_j_rows i (row_i + t200);
        zi ← getitem zs i;
        let a_alpha := a_alpha + t200 * zi in
        zi ← getitem zs i;
        let zi_zj := zi * zi in
        let da_alpha_dT_ij := - da_alpha_dT_i - da_alpha_dT_i in
        drow_i ← getitem da_alpha_dT_j_rows i;
        zi ← getitem zs i;
        da_alpha_dT_j_rows ← setitem da_alpha_dT_j_rows i (drow_i + zi * da_alpha_dT_ij);
        let da_alpha_dT_ij := da_alpha_dT_ij * zi_zj in
        Ok (a_alpha,
            da_alpha_dT - 0.5 * (da_alpha_dT_ij + (workingd1 + workingd1)),
            d2a_alpha_dT2 + (d2a_alpha_dT2_i * zi_zj + (workings2 + workings2)),
            a_alpha_j_rows, da_alpha_dT_j_rows))
      (0, 0, 0, a_alpha_j_rows, da_alpha_dT_j_rows);
  da_alpha_dT_j_rows ←
    for_range 0 N (fun i da_alpha_dT_j_rows =>
      drow_i ← getitem da_alpha_dT_j_rows i;
      setitem da_alpha_dT_j_rows i (drow_i * -0.5))
    da_alpha_dT_j_rows;
  Ok (a_alpha, da_alpha_dT, d2a_alpha_dT2, a_alpha_j_rows, da_alpha_dT_j_rows).

(** The three totals of a run of [a_alpha_and_derivatives_full], if it
    returns. *)
Definition full_totals
    (out : result (float * float * float * option (list (list float))
                   * list (list float) * list (list float)))
  : option (float * float * float) :=
  match out with
  | Ok (a_alpha, da_alpha_dT, d2a_alpha_dT2, _, _, _) =>
      Some (a_alpha, da_alpha_dT, d2a_alpha_dT2)
  | Raise _ => None
  end.

(** The three totals of a run of [a_alpha_and_derivatives_quadratic_terms],
    if it returns. *)
Definition quadratic_totals
    (out : result (float * float * float * list float * list float))
  : option (float * float * float) :=
  match out with
  | Ok (a_alpha, da_alpha_dT, d2a_alpha_dT2, _, _) =>
      Some (a_alpha, da_alpha_dT, d2a_alpha_dT2)
  | Raise _ => None
  end.

End Float64.

(** * Properties *)

(** ** Results, list access and loops *)

Lemma bind_Ok {A B} (a : A) (f : A -> result B) : (Ok a ≫= f) = f a.
Proof. reflexivity. Qed.

Lemma bind_Raise {A B} e (f : A -> result B) : (Raise e ≫= f) = Raise e.
Proof. reflexivity. Qed.

Lemma getitem_Some {A} (l : list A) i x : l !! i = Some x -> getitem l i = Ok x.
Proof. unfold getitem. intros ->. reflexivity. Qed.

Lemma setitem_lt {A} (l : list A) i v :
  (i < length l)%nat -> setitem l i v = Ok (<[i := v]> l).
Proof. unfold setitem. intros H. destruct (decide _); [reflexivity | contradiction]. Qed.

Lemma item_lookup (l : list R) i x : l !! i = Some x -> item l i = x.
Proof. intros H. unfold item. apply nth_lookup_Some with (d := 0) in H. exact H. Qed.

Lemma entry_Some m i j v :
  entry m i j = Some v <-> exists row, m !! i = Some row /\ row !! j = Some v.
Proof. unfold entry. rewrite bind_Some. reflexivity. Qed.

Lemma item2_entry m i j v : entry m i j = Some v -> item2 m i j = v.
Proof.
  intros (row & Hr & Hv)%entry_Some. unfold item2.
  rewrite (nth_lookup_Some _ _ [] _ Hr). by apply item_lookup.
Qed.

Lemma setitem2_entry (m : list (list R)) i j v :
  is_Some (entry m i j) ->
  exists m', setitem2 m i j v = Ok m' /\
    forall p q, entry m' p q = if decide (p = i /\ q = j) then Some v else entry m p q.
Proof.
  intros [x (row & Hr & Hx)%entry_Some].
  exists (<[i := <[j := v]> row]> m). split.
  - unfold setitem2. rewrite (getitem_Some _ _ _ Hr), bind_Ok.
    rewrite setitem_lt by (by eapply lookup_lt_Some). reflexivity.
  - intros p q. unfold entry. destruct (decide (p = i)) as [->|Hp].
    + rewrite list_lookup_insert_eq by (by eapply lookup_lt_Some). simpl.
      destruct (decide (q = j)) as [->|Hq].
      * rewrite list_lookup_insert_eq by (by eapply lookup_lt_Some).
        destruct (decide _) as [|[]]; done.
      * rewrite list_lookup_insert_ne by done. rewrite Hr. simpl.
        destruct (decide _) as [[]|]; done.
    + rewrite list_lookup_insert_ne by done.
      destruct (decide _) as [[]|]; done.
Qed.

Lemma entry_zeros2 N p q : (p < N)%nat -> (q < N)%nat -> entry (zeros2 N) p q = Some 0.
Proof.
  intros Hp Hq. unfold entry, zeros2, zeros.
  rewrite lookup_replicate_2 by done. simpl. by rewrite lookup_replicate_2.
Qed.

Lemma for_each_ext {S} (f g : nat -> S -> result S) l s :
  (forall i s, In i l -> f i s = g i s) -> for_each f l s = for_each g l s.
Proof.
  revert s. induction l as [|i l IH]; intros s H; simpl; [reflexivity|].
  rewrite H by (by left). destruct (g i s); simpl; [|reflexivity].
  apply IH. intros; apply H; by right.
Qed.

Lemma for_range_ext {S} (f g : nat -> S -> result S) lo hi s :
  (forall i s, (lo <= i < hi)%nat -> f i s = g i s) ->
  for_range lo hi f s = for_range lo hi g s.
Proof.
  intros H. apply for_each_ext. intros i s' Hi%in_seq. apply H. lia.
Qed.

Lemma for_each_inv {S} (I : nat -> S -> Prop) (body : nat -> S -> result S) n lo s :
  I lo s ->
  (forall i s, (lo <= i < lo + n)%nat -> I i s -> exists s', body i s = Ok s' /\ I (Datatypes.S i) s') ->
  exists s', for_each body (seq lo n) s = Ok s' /\ I (lo + n)%nat s'.
Proof.
  revert lo s. induction n as [|n IH]; intros lo s H0 Hstep; simpl.
  - exists s. rewrite Nat.add_0_r. done.
  - destruct (Hstep lo s) as (s1 & -> & H1); [lia | done |]. rewrite bind_Ok.
    destruct (IH (Datatypes.S lo) s1) as (s2 & -> & H2); [done | |].
    + intros i s' Hi. apply Hstep. lia.
    + exists s2. split; [done|]. by replace (lo + Datatypes.S n)%nat with (Datatypes.S lo + n)%nat by lia.
Qed.

Lemma for_range_inv {S} (I : nat -> S -> Prop) (body : nat -> S -> result S) lo hi s :
  (lo <= hi)%nat -> I lo s ->
  (forall i s, (lo <= i < hi)%nat -> I i s -> exists s', body i s = Ok s' /\ I (Datatypes.S i) s') ->
  exists s', for_range lo hi body s = Ok s' /\ I hi s'.
Proof.
  intros Hle H0 Hstep. unfold for_range.
  destruct (for_each_inv I body (hi - lo) lo s) as (s' & Hs & HI); [done | |].
  - intros i s' Hi. apply Hstep. lia.
  - exists s'. split; [done|]. by replace hi with (lo + (hi - lo))%nat by lia.
Qed.

(** ** The two pairwise builders as one loop *)

Lemma aijs_plain a_alphas kijs :
  a_alpha_aijs_composition_independent a_alphas kijs = aijs_with (py_div 1) a_alphas kijs.
Proof. reflexivity. Qed.

Lemma setitem2_not_ZeroDivisionError {A} (m : list (list A)) i j v :
  setitem2 m i j v <> Raise ZeroDivisionError.
Proof.
  unfold setitem2, getitem, setitem. destruct (m !! i); simpl; [|done].
  destruct (decide _); done.
Qed.

Lemma try_except_recip (m : list (list R)) i j term :
  try_except_ZeroDivisionError
    (term_inv ← py_div 1 term; setitem2 m i j term_inv)
    (setitem2 m i j sentinel)
  = setitem2 m i j (recip_or_sentinel term).
Proof.
  unfold py_div, recip_or_sentinel. destruct (Req_dec_T term 0); simpl; [done|].
  pose proof (setitem2_not_ZeroDivisionError m i j (1 / term)) as H.
  destruct (setitem2 m i j (1 / term)) as [|[]]; done.
Qed.

Lemma aijs_support_zeros a_alphas kijs :
  a_alpha_aijs_composition_independent_support_zeros a_alphas kijs
  = aijs_with (fun term => Ok (recip_or_sentinel term)) a_alphas kijs.
Proof.
  unfold a_alpha_aijs_composition_independent_support_zeros, aijs_with.
  destruct (comprehension pow_half a_alphas) as [roots|]; [|done].
  rewrite !bind_Ok. f_equal.
  apply for_range_ext. intros i [m inv] _.
  destruct (getitem kijs i); [|done]. rewrite !bind_Ok.
  destruct (getitem a_alphas i); [|done]. rewrite !bind_Ok.
  destruct (getitem roots i); [|done]. rewrite !bind_Ok.
  apply for_range_ext. intros j [m' inv'] _.
  destruct (getitem roots j); [|done]. rewrite !bind_Ok.
  cbv zeta. by rewrite try_except_recip.
Qed.

(** ** What the pairwise loop computes *)

Lemma pow_half_nonneg a : 0 <= a -> pow_half a = Ok (sqrt a).
Proof. intros H. unfold pow_half. destruct (Rle_dec 0 a); done. Qed.

Lemma comprehension_pow_half a_alphas :
  Forall (fun a => 0 <= a) a_alphas ->
  comprehension pow_half a_alphas = Ok (map sqrt a_alphas).
Proof.
  induction 1 as [|a l Ha _ IH]; cbn [comprehension]; [done|].
  by rewrite (pow_half_nonneg a Ha), bind_Ok, IH.
Qed.

Lemma item_lt_lookup (l : list R) i : (i < length l)%nat -> l !! i = Some (item l i).
Proof.
  intros H. destruct (lookup_lt_is_Some_2 l i H) as [x Hx].
  by rewrite (item_lookup _ _ _ Hx).
Qed.

Lemma square_entry N m i j :
  square N m -> (i < N)%nat -> (j < N)%nat -> entry m i j = Some (item2 m i j).
Proof.
  intros [Hlen Hrows] Hi Hj.
  destruct (lookup_lt_is_Some_2 m i) as [row Hrow]; [lia|].
  assert (length row = N) as Hr.
  { rewrite Forall_forall in Hrows. apply Hrows. by eapply list_elem_of_lookup_2. }
  destruct (lookup_lt_is_Some_2 row j) as [x Hx]; [lia|].
  assert (entry m i j = Some x) as He by (apply entry_Some; eauto).
  by rewrite (item2_entry _ _ _ _ He).
Qed.

Section Pairwise.
Variable recip : R -> result R.
Variable rinv : R -> R.
Variables (a_alphas : list R) (kijs : list (list R)).
Let N := length a_alphas.
Let root i := sqrt (item a_alphas i).
Let term i j := root i * root j.
Let upper i j := (1 - item2 kijs i j) * term i j.

Hypothesis a_alphas_nonneg : Forall (fun a => 0 <= a) a_alphas.
Hypothesis kijs_square : square N kijs.
Hypothesis recip_ok :
  forall i j, (i <= j < N)%nat -> recip (term i j) = Ok (rinv (term i j)).

Let I (i j : nat) (st : list (list R) * list (list R)) : Prop :=
  forall p q, (p < N)%nat -> (q < N)%nat ->
    entry st.1 p q =
      Some (if decide (min p q < i \/ (min p q = i /\ max p q < j))%nat
            then upper (min p q) (max p q) else 0) /\
    entry st.2 p q =
      Some (if decide (p <= q /\ (p < i \/ (p = i /\ q < j)))%nat
            then rinv (term p q) else 0).

Lemma roots_lookup i : (i < N)%nat -> map sqrt a_alphas !! i = Some (root i).
Proof.
  intros Hi. rewrite list_lookup_fmap, (item_lt_lookup a_alphas i Hi). done.
Qed.

Lemma aijs_inner_step i kijs_i j st :
  kijs !! i = Some kijs_i -> (i <= j < N)%nat -> I i j st ->
  exists st',
    (let '(a_alpha_ijs, a_alpha_ij_roots_inv) := st in
     a_alpha_i_root_j ← getitem (map sqrt a_alphas) j;
     let term := root i * a_alpha_i_root_j in
     term_inv ← recip term;
     a_alpha_ij_roots_inv ← setitem2 a_alpha_ij_roots_inv i j term_inv;
     kij ← getitem kijs_i j;
     let a_alpha_ij := (1 - kij) * term in
     a_alpha_ijs ← setitem2 a_alpha_ijs i j a_alpha_ij;
     a_alpha_ijs ← setitem2 a_alpha_ijs j i a_alpha_ij;
     Ok (a_alpha_ijs, a_alpha_ij_roots_inv)) = Ok st' /\ I i (S j) st'.
Proof.
  intros Hrow Hij HI. destruct st as [m inv]. unfold I in HI; simpl in HI.
  rewrite (getitem_Some _ _ _ (roots_lookup j ltac:(lia))), bind_Ok. cbv zeta.
  fold (term i j). rewrite recip_ok, bind_Ok by lia.
  destruct (setitem2_entry inv i j (rinv (term i j))) as (inv' & -> & Hinv').
  { destruct (HI i j) as [_ ->]; [lia..|done]. }
  rewrite bind_Ok.
  assert (kijs_i !! j = Some (item2 kijs i j)) as Hk.
  { pose proof (square_entry N kijs i j kijs_square ltac:(lia) ltac:(lia)) as He.
    apply entry_Some in He as (row & Hr & Hv). congruence. }
  rewrite (getitem_Some _ _ _ Hk), bind_Ok. fold (upper i j).
  destruct (setitem2_entry m i j (upper i j)) as (m1 & -> & Hm1).
  { destruct (HI i j) as [-> _]; [lia..|done]. }
  rewrite bind_Ok.
  destruct (setitem2_entry m1 j i (upper i j)) as (m2 & -> & Hm2).
  { rewrite Hm1. case_decide; [done|]. destruct (HI j i) as [-> _]; [lia..|done]. }
  rewrite bind_Ok. eexists; split; [done|].
  intros p q Hp Hq. simpl. rewrite Hm2, Hm1, Hinv'.
  destruct (HI p q Hp Hq) as [-> ->]. split.
  - destruct (decide (p = j /\ q = i)) as [[-> ->]|].
    { rewrite decide_True by lia. by rewrite Nat.min_r, Nat.max_l by lia. }
    destruct (decide (p = i /\ q = j)) as [[-> ->]|].
    { rewrite decide_True by lia. by rewrite Nat.min_l, Nat.max_r by lia. }
    f_equal. repeat case_decide; try done; lia.
  - destruct (decide (p = i /\ q = j)) as [[-> ->]|].
    { by rewrite decide_True by lia. }
    f_equal. repeat case_decide; try done; lia.
Qed.

Lemma aijs_with_spec :
  exists a_alpha_ijs a_alpha_ij_roots_inv,
    aijs_with recip a_alphas kijs
      = Ok (a_alpha_ijs, map sqrt a_alphas, a_alpha_ij_roots_inv) /\
    (forall p q, (p < N)%nat -> (q < N)%nat ->
       entry a_alpha_ijs p q = Some (upper (min p q) (max p q))) /\
    (forall p q, (p < N)%nat -> (q < N)%nat ->
       entry a_alpha_ij_roots_inv p q
         = Some (if decide (p <= q)%nat then rinv (term p q) else 0)).
Proof.
  unfold aijs_with. rewrite (comprehension_pow_half _ a_alphas_nonneg), bind_Ok.
  fold N.
  match goal with |- context [for_range 0 N ?body ?s] =>
    destruct (for_range_inv (fun i st => I i i st) body 0 N s) as ([m inv] & -> & HI)
  end.
  - lia.
  - intros p q Hp Hq. simpl. rewrite !entry_zeros2 by done.
    split; f_equal; case_decide; try done; lia.
  - intros i [m inv] Hi HI.
    destruct (lookup_lt_is_Some_2 kijs i) as [kijs_i Hrow].
    { destruct kijs_square as [-> _]. lia. }
    rewrite (getitem_Some _ _ _ Hrow), bind_Ok.
    rewrite (getitem_Some _ _ _ (item_lt_lookup a_alphas i ltac:(lia))), bind_Ok.
    rewrite (getitem_Some _ _ _ (roots_lookup i ltac:(lia))), bind_Ok.
    match goal with |- context [for_range i N ?body ?s] =>
      destruct (for_range_inv (fun j st => I i j st) body i N s) as (st' & -> & HI')
    end.
    + lia.
    + done.
    + intros j st Hj HIj.
      destruct (aijs_inner_step i kijs_i j st Hrow Hj HIj) as (st' & Hst & HI').
      exists st'. split; [|done]. rewrite <- Hst. by destruct st.
    + exists st'. split; [done|].
      intros p q Hp Hq. destruct (HI' p q Hp Hq) as [-> ->].
      split; f_equal; repeat case_decide; try done; lia.
  - rewrite bind_Ok. exists m, inv. split; [done|]. unfold I in HI; simpl in HI. split.
    + intros p q Hp Hq. destruct (HI p q Hp Hq) as [-> _].
      f_equal. case_decide; try done; lia.
    + intros p q Hp Hq. destruct (HI p q Hp Hq) as [_ ->].
      f_equal. repeat case_decide; try done; lia.
Qed.
End Pairwise.

(** ** Float division *)

Lemma py_div_zero x y : y = 0 -> py_div x y = Raise ZeroDivisionError.
Proof. intros ->. unfold py_div. destruct (Req_dec_T 0 0); done. Qed.

Lemma py_div_nonzero x y : y <> 0 -> py_div x y = Ok (x / y).
Proof. intros H. unfold py_div. destruct (Req_dec_T y 0); done. Qed.

Ltac py_eval :=
  repeat first
    [ rewrite bind_Ok
    | rewrite bind_Raise
    | erewrite getitem_Some by reflexivity
    | rewrite setitem_lt by (cbn; lia)
    | progress unfold setitem2
    | progress cbn [list_insert insert] ].

(** ** The pairwise builders on positive and on non-negative terms *)

Lemma Forall_item (P : R -> Prop) l i :
  Forall P l -> (i < length l)%nat -> P (item l i).
Proof.
  intros H Hi. rewrite Forall_forall in H. apply H.
  eapply list_elem_of_lookup_2. by apply item_lt_lookup.
Qed.

Lemma Forall_pos_nonneg l : Forall (fun a => 0 < a) l -> Forall (fun a => 0 <= a) l.
Proof. intros H. eapply Forall_impl; [exact H|]. intros; simpl in *; lra. Qed.

Lemma root_product_pos a_alphas i j :
  Forall (fun a => 0 < a) a_alphas ->
  (i < length a_alphas)%nat -> (j < length a_alphas)%nat ->
  0 < root_product a_alphas i j.
Proof.
  intros H Hi Hj. unfold root_product.
  apply Rmult_lt_0_compat; apply sqrt_lt_R0; by apply (Forall_item (fun a => 0 < a)).
Qed.

Lemma sentinel_nonzero : sentinel <> 0.
Proof. unfold sentinel. lra. Qed.

Lemma recip_or_sentinel_nonzero t : recip_or_sentinel t <> 0.
Proof.
  unfold recip_or_sentinel. destruct (Req_dec_T t 0).
  - apply sentinel_nonzero.
  - unfold Rdiv. rewrite Rmult_1_l. by apply Rinv_neq_0_compat.
Qed.

(** The plain builder on strictly positive attractive terms. *)
Lemma aijs_plain_spec a_alphas kijs :
  Forall (fun a => 0 < a) a_alphas -> square (length a_alphas) kijs ->
  exists a_alpha_ijs a_alpha_ij_roots_inv,
    a_alpha_aijs_composition_independent a_alphas kijs
      = Ok (a_alpha_ijs, map sqrt a_alphas, a_alpha_ij_roots_inv) /\
    (forall p q, (p < length a_alphas)%nat -> (q < length a_alphas)%nat ->
       entry a_alpha_ijs p q
         = Some ((1 - item2 kijs (min p q) (max p q))
                 * root_product a_alphas (min p q) (max p q))) /\
    (forall p q, (p < length a_alphas)%nat -> (q < length a_alphas)%nat ->
       entry a_alpha_ij_roots_inv p q
         = Some (if decide (p <= q)%nat then 1 / root_product a_alphas p q else 0)).
Proof.
  intros Hpos Hsq. rewrite aijs_plain.
  apply (aijs_with_spec (py_div 1) (fun t => 1 / t)); [by apply Forall_pos_nonneg | done |].
  intros i j Hij. apply py_div_nonzero.
  pose proof (root_product_pos a_alphas i j Hpos ltac:(lia) ltac:(lia)) as H.
  unfold root_product in H. lra.
Qed.

(** The zero-tolerant builder on non-negative attractive terms. *)
Lemma aijs_support_zeros_spec a_alphas kijs :
  Forall (fun a => 0 <= a) a_alphas -> square (length a_alphas) kijs ->
  exists a_alpha_ijs a_alpha_ij_roots_inv,
    a_alpha_aijs_composition_independent_support_zeros a_alphas kijs
      = Ok (a_alpha_ijs, map sqrt a_alphas, a_alpha_ij_roots_inv) /\
    (forall p q, (p < length a_alphas)%nat -> (q < length a_alphas)%nat ->
       entry a_alpha_ijs p q
         = Some ((1 - item2 kijs (min p q) (max p q))
                 * root_product a_alphas (min p q) (max p q))) /\
    (forall p q, (p < length a_alphas)%nat -> (q < length a_alphas)%nat ->
       entry a_alpha_ij_roots_inv p q
         = Some (if decide (p <= q)%nat
                 then recip_or_sentinel (root_product a_alphas p q) else 0)).
Proof.
  intros Hpos Hsq. rewrite aijs_support_zeros.
  apply (aijs_with_spec (fun t => Ok (recip_or_sentinel t)) recip_or_sentinel); [done | done |]. intros; reflexivity.
Qed.

Lemma comprehension_pow_half_Ok a_alphas roots :
  comprehension pow_half a_alphas = Ok roots -> roots = map sqrt a_alphas.
Proof.
  revert roots. induction a_alphas as [|a l IH]; intros roots; cbn [comprehension].
  - by intros [= <-].
  - destruct (pow_half a) as [y|] eqn:Hy; [|done]. rewrite bind_Ok.
    assert (y = sqrt a) as ->.
    { unfold pow_half in Hy. destruct (Rle_dec 0 a); congruence. }
    destruct (comprehension pow_half l) as [ys|]; [|done].
    rewrite bind_Ok. intros [= <-]. by rewrite (IH ys eq_refl).
Qed.

Lemma getitem_Ok {A} (l : list A) i x : getitem l i = Ok x -> l !! i = Some x.
Proof. unfold getitem. destruct (l !! i); [by intros [= ->] | done]. Qed.

Lemma getitem_roots a_alphas i x :
  getitem (map sqrt a_alphas) i = Ok x ->
  (i < length a_alphas)%nat /\ x = sqrt (item a_alphas i).
Proof.
  intros H%getitem_Ok. rewrite list_lookup_fmap in H.
  destruct (a_alphas !! i) as [a|] eqn:Ha; [|done].
  split; [by eapply lookup_lt_Some|].
  injection H as <-. by rewrite (item_lookup _ _ _ Ha).
Qed.

(** Where no product of roots is zero the two builders run alike. *)
Lemma aijs_support_zeros_plain a_alphas kijs :
  (forall i j, (i < length a_alphas)%nat -> (j < length a_alphas)%nat ->
     root_product a_alphas i j <> 0) ->
  a_alpha_aijs_composition_independent_support_zeros a_alphas kijs
  = a_alpha_aijs_composition_independent a_alphas kijs.
Proof.
  intros Hnz. rewrite aijs_support_zeros, aijs_plain. unfold aijs_with.
  destruct (comprehension pow_half a_alphas) as [roots|] eqn:Hroots; [|done].
  apply comprehension_pow_half_Ok in Hroots as ->.
  rewrite !bind_Ok. f_equal.
  apply for_range_ext. intros i [m inv] Hi.
  destruct (getitem kijs i); [|done]. rewrite !bind_Ok.
  destruct (getitem a_alphas i); [|done]. rewrite !bind_Ok.
  destruct (getitem (map sqrt a_alphas) i) as [ri|] eqn:Hri; [|done].
  apply getitem_roots in Hri as [_ ->]. rewrite !bind_Ok.
  apply for_range_ext. intros j [m' inv'] Hj.
  destruct (getitem (map sqrt a_alphas) j) as [rj|] eqn:Hrj; [|done].
  apply getitem_roots in Hrj as [_ ->]. rewrite !bind_Ok. cbv zeta.
  fold (root_product a_alphas i j).
  rewrite py_div_nonzero by (apply Hnz; lia).
  unfold recip_or_sentinel. destruct (Req_dec_T _ 0) as [E|]; [|done].
  exfalso. revert E. apply Hnz; lia.
Qed.

(** ** Properties of the pairwise builders *)

Lemma a_alpha_ij_formula_upper a_alphas kijs p q :
  Forall (fun a => 0 <= a) a_alphas -> symmetric (length a_alphas) kijs ->
  (p < length a_alphas)%nat -> (q < length a_alphas)%nat ->
  (1 - item2 kijs (min p q) (max p q)) * root_product a_alphas (min p q) (max p q)
  = a_alpha_ij_formula a_alphas kijs p q.
Proof.
  intros Hpos Hsym Hp Hq. unfold a_alpha_ij_formula, root_product.
  rewrite sqrt_mult by (by apply (Forall_item (fun a => 0 <= a))).
  destruct (Nat.le_ge_cases p q).
  - by rewrite Nat.min_l, Nat.max_r.
  - rewrite Nat.min_r, Nat.max_l by done. rewrite (Hsym q p) by done. ring.
Qed.

Ltac square_concrete := split; [reflexivity | repeat constructor].
Ltac symmetric_concrete :=
  let i := fresh "i" in let j := fresh "j" in
  intros i j ? ?;
  repeat (destruct i as [|i]; [| try lia]);
  repeat (destruct j as [|j]; [| try lia]);
  try reflexivity; try lia.

(** C1 as stated fails at a zero attractive term: the reciprocal of the
    root product raises. *)
Lemma C1_pairwise_terms_zero_raises :
  Forall (fun a => 0 <= a) [0] /\ square 1 [[0]] /\ symmetric 1 [[0]] /\
  a_alpha_aijs_composition_independent [0] [[0]] = Raise ZeroDivisionError.
Proof.
  split; [repeat constructor; lra|].
  split; [square_concrete|].
  split; [intros [|i] [|j] Hi Hj; simpl in *; try reflexivity; lia|].
  unfold a_alpha_aijs_composition_independent.
  rewrite comprehension_pow_half by (repeat constructor; lra).
  cbn [length map for_range seq for_each Nat.sub zeros2 zeros replicate].
  py_eval.
  rewrite py_div_zero by (rewrite sqrt_0; lra). reflexivity.
Qed.

(** C6: on non-negative attractive terms the zero-tolerant builder does not
    fail and stores the sentinel 1e100 as the reciprocal of every root
    product that is zero; where no root product is zero it returns what
    [a_alpha_aijs_composition_independent] returns. *)
Theorem C6_support_zeros (a_alphas : list R) (kijs : list (list R)) :
  (Forall (fun a => 0 <= a) a_alphas -> square (length a_alphas) kijs ->
   exists a_alpha_ijs a_alpha_i_roots a_alpha_ij_roots_inv,
     a_alpha_aijs_composition_independent_support_zeros a_alphas kijs
       = Ok (a_alpha_ijs, a_alpha_i_roots, a_alpha_ij_roots_inv) /\
     forall i j, (i <= j < length a_alphas)%nat ->
       root_product a_alphas i j = 0 ->
       entry a_alpha_ij_roots_inv i j = Some sentinel) /\
  ((forall i j, (i < length a_alphas)%nat -> (j < length a_alphas)%nat ->
      root_product a_alphas i j <> 0) ->
   a_alpha_aijs_composition_independent_support_zeros a_alphas kijs
   = a_alpha_aijs_composition_independent a_alphas kijs).
Proof.
  split.
  - intros Hpos Hsq.
    destruct (aijs_support_zeros_spec a_alphas kijs Hpos Hsq)
      as (m & inv & Hrun & _ & Hinv).
    exists m, (map sqrt a_alphas), inv. split; [done|].
    intros i j Hij Hz. rewrite Hinv by lia. rewrite decide_True by lia.
    unfold recip_or_sentinel. by destruct (Req_dec_T _ 0).
  - apply aijs_support_zeros_plain.
Qed.

Lemma C6_support_zeros_witness :
  (exists a_alpha_ijs a_alpha_i_roots a_alpha_ij_roots_inv,
     a_alpha_aijs_composition_independent_support_zeros [0; 4] [[0; 0.1]; [0.1; 0]]
       = Ok (a_alpha_ijs, a_alpha_i_roots, a_alpha_ij_roots_inv) /\
     entry a_alpha_ij_roots_inv 0 1 = Some sentinel) /\
  a_alpha_aijs_composition_independent_support_zeros [4; 9] [[0; 0.1]; [0.1; 0]]
  = a_alpha_aijs_composition_independent [4; 9] [[0; 0.1]; [0.1; 0]].
Proof.
  split.
  - destruct (proj1 (C6_support_zeros [0; 4] [[0; 0.1]; [0.1; 0]]))
      as (m & r & inv & Hrun & Hinv).
    + repeat constructor; lra.
    + square_concrete.
    + exists m, r, inv. split; [exact Hrun|]. apply Hinv.
      * simpl. lia.
      * unfold root_product, item. simpl. rewrite sqrt_0. lra.
  - apply (proj2 (C6_support_zeros [4; 9] [[0; 0.1]; [0.1; 0]])).
    intros i j Hi Hj. apply Rgt_not_eq, Rlt_gt, root_product_pos; try done.
    repeat constructor; lra.
Defined.

(** C9: for every N x N matrix [kijs], symmetric or not, the pairwise matrix
    returned by [a_alpha_aijs_composition_independent] (on positive attractive
    terms) and by the zero-tolerant variant (on non-negative ones) is
    symmetric: entries (i,j) and (j,i) hold the one value computed from
    [kijs[min i j][max i j]], an entry of the upper triangle. *)
Theorem C9_pairwise_matrix_symmetric (a_alphas : list R) (kijs : list (list R)) :
  square (length a_alphas) kijs ->
  (Forall (fun a => 0 < a) a_alphas ->
   exists a_alpha_ijs a_alpha_i_roots a_alpha_ij_roots_inv,
     a_alpha_aijs_composition_independent a_alphas kijs
       = Ok (a_alpha_ijs, a_alpha_i_roots, a_alpha_ij_roots_inv) /\
     forall i j, (i < length a_alphas)%nat -> (j < length a_alphas)%nat ->
       entry a_alpha_ijs i j = entry a_alpha_ijs j i /\
       entry a_alpha_ijs i j
         = Some ((1 - item2 kijs (min i j) (max i j))
                 * root_product a_alphas (min i j) (max i j))) /\
  (Forall (fun a => 0 <= a) a_alphas ->
   exists a_alpha_ijs a_alpha_i_roots a_alpha_ij_roots_inv,
     a_alpha_aijs_composition_independent_support_zeros a_alphas kijs
       = Ok (a_alpha_ijs, a_alpha_i_roots, a_alpha_ij_roots_inv) /\
     forall i j, (i < length a_alphas)%nat -> (j < length a_alphas)%nat ->
       entry a_alpha_ijs i j = entry a_alpha_ijs j i /\
       entry a_alpha_ijs i j
         = Some ((1 - item2 kijs (min i j) (max i j))
                 * root_product a_alphas (min i j) (max i j))).
Proof.
  intros Hsq. split; intros Hpos.
  - destruct (aijs_plain_spec a_alphas kijs Hpos Hsq) as (m & inv & Hrun & Hm & _).
    exists m, (map sqrt a_alphas), inv. split; [done|].
    intros i j Hi Hj. rewrite !Hm by done.
    by rewrite (Nat.min_comm j i), (Nat.max_comm j i).
  - destruct (aijs_support_zeros_spec a_alphas kijs Hpos Hsq) as (m & inv & Hrun & Hm & _).
    exists m, (map sqrt a_alphas), inv. split; [done|].
    intros i j Hi Hj. rewrite !Hm by done.
    by rewrite (Nat.min_comm j i), (Nat.max_comm j i).
Qed.

Lemma C9_pairwise_matrix_symmetric_witness :
  (exists a_alpha_ijs a_alpha_i_roots a_alpha_ij_roots_inv,
     a_alpha_aijs_composition_independent [4; 9] [[0; 0.1]; [0.3; 0]]
       = Ok (a_alpha_ijs, a_alpha_i_roots, a_alpha_ij_roots_inv) /\
     entry a_alpha_ijs 0 1 = entry a_alpha_ijs 1 0) /\
  (exists a_alpha_ijs a_alpha_i_roots a_alpha_ij_roots_inv,
     a_alpha_aijs_composition_independent_support_zeros [0; 9] [[0; 0.1]; [0.3; 0]]
       = Ok (a_alpha_ijs, a_alpha_i_roots, a_alpha_ij_roots_inv) /\
     entry a_alpha_ijs 0 1 = entry a_alpha_ijs 1 0).
Proof.
  split.
  - destruct (C9_pairwise_matrix_symmetric [4; 9] [[0; 0.1]; [0.3; 0]])
      as [(m & r & inv & Hrun & Hm) _]; [square_concrete | repeat constructor; lra |].
    exists m, r, inv. split; [exact Hrun|]. apply Hm; simpl; lia.
  - destruct (C9_pairwise_matrix_symmetric [0; 9] [[0; 0.1]; [0.3; 0]])
      as [_ (m & r & inv & Hrun & Hm)]; [square_concrete | repeat constructor; lra |].
    exists m, r, inv. split; [exact Hrun|]. apply Hm; simpl; lia.
Defined.

(** C10: the matrix of reciprocal root products returned by
    [a_alpha_aijs_composition_independent] (and by the zero-tolerant variant)
    is populated only on and above the diagonal: every entry (i,j) with
    j < i is still the initial 0.0, while its mirror (j,i) holds the
    reciprocal (or the sentinel), which is not zero; so the returned matrix
    is not symmetric. *)
Theorem C10_inverse_roots_upper_triangle (a_alphas : list R) (kijs : list (list R)) :
  square (length a_alphas) kijs ->
  (Forall (fun a => 0 < a) a_alphas ->
   exists a_alpha_ijs a_alpha_i_roots a_alpha_ij_roots_inv,
     a_alpha_aijs_composition_independent a_alphas kijs
       = Ok (a_alpha_ijs, a_alpha_i_roots, a_alpha_ij_roots_inv) /\
     (forall i j, (i <= j < length a_alphas)%nat ->
        entry a_alpha_ij_roots_inv i j = Some (1 / root_product a_alphas i j)) /\
     (forall i j, (j < i < length a_alphas)%nat ->
        entry a_alpha_ij_roots_inv i j = Some 0 /\
        entry a_alpha_ij_roots_inv i j <> entry a_alpha_ij_roots_inv j i)) /\
  (Forall (fun a => 0 <= a) a_alphas ->
   exists a_alpha_ijs a_alpha_i_roots a_alpha_ij_roots_inv,
     a_alpha_aijs_composition_independent_support_zeros a_alphas kijs
       = Ok (a_alpha_ijs, a_alpha_i_roots, a_alpha_ij_roots_inv) /\
     (forall i j, (i <= j < length a_alphas)%nat ->
        entry a_alpha_ij_roots_inv i j
          = Some (recip_or_sentinel (root_product a_alphas i j))) /\
     (forall i j, (j < i < length a_alphas)%nat ->
        entry a_alpha_ij_roots_inv i j = Some 0 /\
        entry a_alpha_ij_roots_inv i j <> entry a_alpha_ij_roots_inv j i)).
Proof.
  intros Hsq. split; intros Hpos.
  - destruct (aijs_plain_spec a_alphas kijs Hpos Hsq) as (m & inv & Hrun & _ & Hinv).
    exists m, (map sqrt a_alphas), inv. split; [done|]. split.
    + intros i j Hij. rewrite Hinv by lia. by rewrite decide_True by lia.
    + intros i j Hij. rewrite !Hinv by lia.
      rewrite decide_False by lia. rewrite decide_True by lia.
      split; [done|]. intros [= E].
      pose proof (root_product_pos a_alphas j i Hpos ltac:(lia) ltac:(lia)) as Hp.
      assert (0 < 1 / root_product a_alphas j i) by (by apply Rdiv_lt_0_compat; [lra|]).
      lra.
  - destruct (aijs_support_zeros_spec a_alphas kijs Hpos Hsq) as (m & inv & Hrun & _ & Hinv).
    exists m, (map sqrt a_alphas), inv. split; [done|]. split.
    + intros i j Hij. rewrite Hinv by lia. by rewrite decide_True by lia.
    + intros i j Hij. rewrite !Hinv by lia.
      rewrite decide_False by lia. rewrite decide_True by lia.
      split; [done|]. intros [= E].
      by apply (recip_or_sentinel_nonzero (root_product a_alphas j i)).
Qed.

Lemma C10_inverse_roots_upper_triangle_witness :
  (exists a_alpha_ijs a_alpha_i_roots a_alpha_ij_roots_inv,
     a_alpha_aijs_composition_independent [4; 9] [[0; 0.1]; [0.1; 0]]
       = Ok (a_alpha_ijs, a_alpha_i_roots, a_alpha_ij_roots_inv) /\
     entry a_alpha_ij_roots_inv 1 0 = Some 0) /\
  (exists a_alpha_ijs a_alpha_i_roots a_alpha_ij_roots_inv,
     a_alpha_aijs_composition_independent_support_zeros [0; 9] [[0; 0.1]; [0.1; 0]]
       = Ok (a_alpha_ijs, a_alpha_i_roots, a_alpha_ij_roots_inv) /\
     entry a_alpha_ij_roots_inv 1 0 = Some 0).
Proof.
  split.
  - destruct (C10_inverse_roots_upper_triangle [4; 9] [[0; 0.1]; [0.1; 0]])
      as [(m & r & inv & Hrun & _ & Hlow) _]; [square_concrete | repeat constructor; lra |].
    exists m, r, inv. split; [exact Hrun|]. apply Hlow; simpl; lia.
  - destruct (C10_inverse_roots_upper_triangle [0; 9] [[0; 0.1]; [0.1; 0]])
      as [_ (m & r & inv & Hrun & _ & Hlow)]; [square_concrete | repeat constructor; lra |].
    exists m, r, inv. split; [exact Hrun|]. apply Hlow; simpl; lia.
Defined.

(** ** Finite sums *)

Lemma Rsum_ext n f g : (forall i, (i < n)%nat -> f i = g i) -> Rsum n f = Rsum n g.
Proof.
  induction n as [|n IH]; intros H; cbn [Rsum]; [done|].
  rewrite IH by (intros; apply H; lia). by rewrite H by lia.
Qed.

Lemma Rsum_zero n : Rsum n (fun _ => 0) = 0.
Proof. induction n as [|n IH]; cbn [Rsum]; [done|]. rewrite IH. lra. Qed.

Lemma Rsum_plus n f g : Rsum n (fun i => f i + g i) = Rsum n f + Rsum n g.
Proof. induction n as [|n IH]; cbn [Rsum]; [lra|]. rewrite IH. lra. Qed.

Lemma Rsum_scal n c f : Rsum n (fun i => c * f i) = c * Rsum n f.
Proof. induction n as [|n IH]; cbn [Rsum]; [lra|]. rewrite IH. lra. Qed.

Lemma Rsum_swap n m (f : nat -> nat -> R) :
  Rsum n (fun i => Rsum m (fun j => f i j)) = Rsum m (fun j => Rsum n (fun i => f i j)).
Proof.
  induction n as [|n IH]; cbn [Rsum].
  - by rewrite Rsum_zero.
  - by rewrite IH, <- Rsum_plus.
Qed.

(** A sum that keeps the one index [p]. *)
Lemma Rsum_only n p f :
  Rsum n (fun i => if decide (i = p) then f i else 0)
  = if decide (p < n)%nat then f p else 0.
Proof.
  induction n as [|n IH]; cbn [Rsum].
  - case_decide; [lia | done].
  - rewrite IH. repeat case_decide; subst; try lia; lra.
Qed.

(** A sum that keeps the indices below [m]. *)
Lemma Rsum_below n m f :
  (m <= n)%nat ->
  Rsum n (fun i => if decide (i < m)%nat then f i else 0) = Rsum m f.
Proof.
  induction n as [|n IH]; intros Hm; cbn [Rsum].
  - by replace m with 0%nat by lia.
  - destruct (decide (m = S n)) as [->|].
    + rewrite decide_True by lia. cbn [Rsum]. f_equal.
      apply Rsum_ext. intros i Hi. by rewrite decide_True by lia.
    + rewrite IH by lia. rewrite decide_False by lia. lra.
Qed.

(** Every index is below, at or above [p]. *)
Lemma Rsum_split3 n p f :
  Rsum n f
  = Rsum n (fun i => if decide (i < p)%nat then f i else 0)
    + Rsum n (fun i => if decide (i = p) then f i else 0)
    + Rsum n (fun i => if decide (p < i)%nat then f i else 0).
Proof.
  rewrite <- !Rsum_plus. apply Rsum_ext. intros i _.
  repeat case_decide; try lia; lra.
Qed.

(** The two ways to enumerate the pairs [j < i < n]. *)
Lemma Rsum_triangle n (f : nat -> nat -> R) :
  Rsum n (fun i => Rsum n (fun j => if decide (i < j)%nat then f i j else 0))
  = Rsum n (fun j => Rsum j (fun i => f i j)).
Proof.
  rewrite Rsum_swap. apply Rsum_ext. intros j Hj.
  rewrite <- (Rsum_below n j (fun i => f i j)) by lia. done.
Qed.

(** ** Reading and writing lists *)

Lemma getitem_nth {A} (d : A) (l : list A) i :
  (i < length l)%nat -> getitem l i = Ok (nth i l d).
Proof.
  intros H. apply getitem_Some. destruct (lookup_lt_is_Some_2 l i H) as [x Hx].
  by rewrite (nth_lookup_Some _ _ d _ Hx).
Qed.

Lemma getitem_item (l : list R) i : (i < length l)%nat -> getitem l i = Ok (item l i).
Proof. apply getitem_nth. Qed.

Lemma item_insert (l : list R) j v p :
  (j < length l)%nat ->
  item (<[j := v]> l) p = if decide (p = j) then v else item l p.
Proof.
  intros Hj. unfold item. case_decide as E.
  - subst. apply nth_lookup_Some. by apply list_lookup_insert_eq.
  - rewrite !nth_lookup. by rewrite list_lookup_insert_ne.
Qed.

Lemma item_zeros N p : item (zeros N) p = 0.
Proof.
  unfold item, zeros. rewrite nth_lookup.
  destruct (decide (p < N)%nat).
  - by rewrite lookup_replicate_2.
  - by rewrite lookup_ge_None_2 by (rewrite length_replicate; lia).
Qed.

Lemma length_zeros N : length (zeros N) = N.
Proof. apply length_replicate. Qed.

Lemma square_row N m i :
  square N m -> (i < N)%nat -> length (nth i m []) = N.
Proof.
  intros [Hlen Hrows] Hi. rewrite Forall_forall in Hrows. apply Hrows.
  eapply list_elem_of_lookup_2.
  destruct (lookup_lt_is_Some_2 m i) as [row Hrow]; [lia|].
  by rewrite (nth_lookup_Some _ _ [] _ Hrow).
Qed.

(** ** The run of a_alpha_quadratic_terms *)

Ltac len := rewrite ?length_insert, ?length_zeros; lia.

Ltac py_run :=
  repeat first
    [ rewrite bind_Ok
    | match goal with
      | |- context [@getitem R ?l ?i] => rewrite (getitem_item l i) by len
      end
    | match goal with
      | |- context [@getitem (list R) ?l ?i] =>
          rewrite (getitem_nth (@nil R) l i) by len
      end
    | match goal with
      | |- context [setitem ?l ?i ?v] => rewrite (setitem_lt l i v) by len
      end ].

Ltac unfold_row := unfold quadratic_row.

Section QuadraticTerms.
Variables (a_alphas a_alpha_i_roots : list R) (T : R) (zs : list R).
Variable kijs : list (list R).
Let N := length a_alphas.
Hypothesis roots_length : length a_alpha_i_roots = N.
Hypothesis zs_length : length zs = N.
Hypothesis kijs_square : square N kijs.

Let t i := item a_alpha_i_roots i * item zs i.
Local Abbreviation scatter := (scatter a_alpha_i_roots zs kijs).
Local Abbreviation scattered := (scattered a_alpha_i_roots zs kijs).
Local Abbreviation quadratic_row := (quadratic_row a_alphas a_alpha_i_roots zs kijs).

Lemma quadratic_things0 :
  exists things0,
    for_range 0 N (fun i things0 =>
      root_i ← getitem a_alpha_i_roots i;
      zi ← getitem zs i;
      setitem things0 i (root_i * zi)) (zeros N) = Ok things0 /\
    length things0 = N /\ forall p, (p < N)%nat -> item things0 p = t p.
Proof.
  match goal with |- context [for_range 0 N ?body ?s] =>
    destruct (for_range_inv
      (fun i th => length th = N /\
         forall p, item th p = if decide (p < i)%nat then t p else 0)
      body 0 N s) as (th & -> & Hlen & Hth)
  end.
  - lia.
  - split; [len|]. intros p. rewrite item_zeros. case_decide; [lia|done].
  - intros i th Hi [Hlen Hth]. py_run. eexists; split; [done|]. split; [len|].
    intros p. rewrite item_insert by len. rewrite Hth.
    repeat case_decide; subst; try lia; done.
  - exists th. split; [done|]. split; [done|].
    intros p Hp. rewrite Hth. by rewrite decide_True.
Qed.

Lemma quadratic_scatter things0 :
  length things0 = N -> (forall p, (p < N)%nat -> item things0 p = t p) ->
  exists rows,
    for_range 0 N (fun i a_alpha_j_rows =>
      kijs_i ← getitem kijs i;
      for_range 0 i (fun j a_alpha_j_rows =>
        row_j ← getitem a_alpha_j_rows j;
        kij ← getitem kijs_i j;
        things0_i ← getitem things0 i;
        a_alpha_j_rows ← setitem a_alpha_j_rows j (row_j + (1 - kij) * things0_i);
        row_i ← getitem a_alpha_j_rows i;
        kij ← getitem kijs_i j;
        things0_j ← getitem things0 j;
        setitem a_alpha_j_rows i (row_i + (1 - kij) * things0_j))
      a_alpha_j_rows) (zeros N) = Ok rows /\
    length rows = N /\ forall p, item rows p = scattered N p.
Proof.
  intros Hlen0 Hth.
  pose proof (proj1 kijs_square) as Hklen.
  match goal with |- context [for_range 0 N ?body ?s] =>
    destruct (for_range_inv
      (fun i rows => length rows = N /\
         forall p, item rows p = Rsum i (fun m => Rsum m (fun j => scatter m j p)))
      body 0 N s) as (rows & -> & Hlen & Hrows)
  end.
  - lia.
  - split; [len|]. intros p. by rewrite item_zeros.
  - intros i rows Hi [Hlen Hrows]. py_run.
    pose proof (square_row N kijs i kijs_square ltac:(lia)) as Hrowlen.
    match goal with |- context [for_range 0 i ?body ?s] =>
      destruct (for_range_inv
        (fun j rows => length rows = N /\
           forall p, item rows p
             = Rsum i (fun m => Rsum m (fun j => scatter m j p))
               + Rsum j (fun q => scatter i q p))
        body 0 i s) as (rows' & -> & Hlen' & Hrows')
    end.
    + lia.
    + split; [done|]. intros p. rewrite Hrows. cbn [Rsum]. lra.
    + intros j rows' Hj [Hlen' Hrows']. py_run. eexists; split; [done|].
      split; [len|]. intros p. rewrite !item_insert by len.
      rewrite !Hth by lia. rewrite !Hrows'. cbn [Rsum].
      assert (scatter i j p
              = (if decide (p = j) then (1 - item (nth i kijs []) j) * t i else 0)
                + (if decide (p = i) then (1 - item (nth i kijs []) j) * t j else 0))
        as -> by reflexivity.
      repeat case_decide; subst; try lia; try lra.
    + exists rows'. split; [done|]. split; [done|].
      intros p. rewrite Hrows'. done.
  - exists rows. done.
Qed.

Lemma quadratic_terms_run :
  exists a_alpha_j_rows,
    a_alpha_quadratic_terms a_alphas a_alpha_i_roots T zs kijs
      = Ok (Rsum N (fun p => quadratic_row p * item zs p), a_alpha_j_rows) /\
    length a_alpha_j_rows = N /\
    forall p, (p < N)%nat -> item a_alpha_j_rows p = quadratic_row p.
Proof.
  unfold a_alpha_quadratic_terms. fold N.
  destruct quadratic_things0 as (things0 & -> & Hlen0 & Hth). rewrite bind_Ok.
  destruct (quadratic_scatter things0 Hlen0 Hth) as (rows & -> & Hlen & Hrows).
  rewrite bind_Ok.
  pose proof (proj1 kijs_square) as Hklen.
  match goal with |- context [for_range 0 N ?body ?s] =>
    destruct (for_range_inv
      (fun i st => st.1 = Rsum i (fun p => quadratic_row p * item zs p) /\
         length st.2 = N /\
         forall p, item st.2 p
           = if decide (p < i)%nat then quadratic_row p else scattered N p)
      body 0 N s) as ([a_alpha rows'] & -> & Ha & Hlen' & Hrows')
  end.
  - lia.
  - split; [done|]. split; [done|]. intros p. cbn [fst snd]. rewrite Hrows.
    case_decide; [lia|done].
  - intros i [a_alpha rows'] Hi (Ha & Hlen' & Hrows'). cbn [fst snd] in *.
    pose proof (square_row N kijs i kijs_square ltac:(lia)) as Hrowlen.
    py_run. eexists; split; [done|]. cbn [fst snd].
    assert (forall p, item (<[i:=item (<[i:=item rows' i * item a_alpha_i_roots i]> rows') i +
               (1 - item (nth i kijs []) i) * item a_alphas i * item zs i]>
               (<[i:=item rows' i * item a_alpha_i_roots i]> rows')) p
            = if decide (p < S i)%nat then quadratic_row p else scattered N p) as Hnew.
    { intros p. rewrite !item_insert by len. rewrite !Hrows'.
      rewrite (decide_True (P := i = i)) by done.
      rewrite (decide_False (P := (i < i)%nat)) by lia.
      unfold_row; unfold item2. fold N.
      repeat case_decide; subst; try lia; done. }
    split; [|split; [len | exact Hnew]].
    rewrite Ha, Hnew. by rewrite decide_True by lia.
  - cbn [fst snd] in *. exists rows'. subst a_alpha. split; [done|]. split; [done|].
    intros p Hp. rewrite Hrows'. by rewrite decide_True.
Qed.
End QuadraticTerms.

(** ** a_alpha_quadratic_terms against the double sum *)

Section QuadraticTermsFormula.
Variables (a_alphas a_alpha_i_roots : list R) (zs : list R).
Variable kijs : list (list R).
Let N := length a_alphas.
Hypothesis a_alphas_nonneg : Forall (fun a => 0 <= a) a_alphas.
Hypothesis roots_are_roots :
  forall i, (i < N)%nat -> item a_alpha_i_roots i = sqrt (item a_alphas i).
Hypothesis kijs_symmetric : symmetric N kijs.

Let k i j := item2 kijs i j.
Let t i := item a_alpha_i_roots i * item zs i.

Lemma scattered_formula p :
  (p < N)%nat ->
  scattered a_alpha_i_roots zs kijs N p
  = Rsum N (fun i => if decide (p < i)%nat then (1 - k p i) * t i else 0)
    + Rsum N (fun i => if decide (i < p)%nat then (1 - k p i) * t i else 0).
Proof.
  intros Hp.
  rewrite (Rsum_below N p (fun j => (1 - k p j) * t j)) by lia.
  transitivity
    (Rsum N (fun i =>
       (if decide (p < i)%nat then (1 - k p i) * t i else 0)
       + (if decide (i = p) then Rsum p (fun j => (1 - k p j) * t j) else 0))).
  - apply Rsum_ext. intros i Hi.
    change (Rsum i (fun j => scatter a_alpha_i_roots zs kijs i j p))
      with (Rsum i (fun j =>
              (if decide (p = j) then (1 - k i j) * t i else 0)
              + (if decide (p = i) then (1 - k i j) * t j else 0))).
    rewrite Rsum_plus. f_equal.
    + rewrite (Rsum_ext _ _ (fun j => if decide (j = p) then (1 - k i p) * t i else 0)).
      * rewrite (Rsum_only i p (fun _ => (1 - k i p) * t i)).
        case_decide; [|done]. unfold k. by rewrite (kijs_symmetric i p).
      * intros j _. repeat case_decide; subst; try lia; done.
    + case_decide as E; [subst; by rewrite decide_True by done|].
      rewrite decide_False by done. by rewrite Rsum_zero.
  - rewrite Rsum_plus.
    rewrite (Rsum_only N p (fun _ => Rsum p (fun j => (1 - k p j) * t j))).
    by rewrite decide_True by done.
Qed.

Lemma quadratic_row_formula p :
  (p < N)%nat ->
  quadratic_row a_alphas a_alpha_i_roots zs kijs p = row_sum_formula a_alphas zs kijs p.
Proof.
  intros Hp. unfold quadratic_row, row_sum_formula. fold N.
  rewrite (scattered_formula p Hp).
  rewrite (Rsum_ext N (fun j => item zs j * a_alpha_ij_formula a_alphas kijs p j)
             (fun j => item a_alpha_i_roots p * ((1 - k p j) * t j))).
  2:{ intros j Hj. unfold a_alpha_ij_formula, k, t.
      rewrite sqrt_mult by (by apply (Forall_item (fun a => 0 <= a))).
      rewrite !roots_are_roots by done. ring. }
  rewrite Rsum_scal, (Rsum_split3 N p (fun j => (1 - k p j) * t j)).
  rewrite (Rsum_only N p (fun j => (1 - k p j) * t j)), decide_True by done.
  pose proof (sqrt_sqrt (item a_alphas p)
                (Forall_item (fun a => 0 <= a) _ _ a_alphas_nonneg Hp)) as Hsq.
  set (S1 := Rsum N (fun i => if decide (p < i)%nat then (1 - k p i) * t i else 0)).
  set (S2 := Rsum N (fun i => if decide (i < p)%nat then (1 - k p i) * t i else 0)).
  unfold t, k. rewrite (roots_are_roots p Hp).
  set (s := sqrt (item a_alphas p)) in *. rewrite <- Hsq. ring.
Qed.

Lemma quadratic_a_alpha_formula :
  Rsum N (fun p => quadratic_row a_alphas a_alpha_i_roots zs kijs p * item zs p)
  = a_alpha_formula a_alphas zs kijs.
Proof.
  unfold a_alpha_formula. fold N. apply Rsum_ext. intros p Hp.
  rewrite (quadratic_row_formula p Hp). unfold row_sum_formula. fold N.
  rewrite Rmult_comm, <- Rsum_scal. apply Rsum_ext. intros j _. ring.
Qed.
End QuadraticTermsFormula.

(** ** The run of a_alpha_and_derivatives_quadratic_terms *)

Ltac tuple_eq :=
  repeat match goal with |- (_, _) = (_, _) => apply (f_equal2 pair) end.
Ltac fill_evar :=
  match goal with |- _ = ?x => is_evar x; reflexivity end.

Ltac unfold_quad := unfold quad_t200, quad_da_ij, quad_d2_ij.

Section QuadraticDerivatives.
Variables (a_alphas a_alpha_i_roots da_alpha_dTs d2a_alpha_dT2s : list R).
Variables (T : R) (zs : list R) (kijs : list (list R)).
Let N := length a_alphas.
Hypothesis a_alphas_pos : Forall (fun a => 0 < a) a_alphas.
Hypothesis roots_length : length a_alpha_i_roots = N.
Hypothesis roots_are_roots :
  forall i, (i < N)%nat -> item a_alpha_i_roots i = sqrt (item a_alphas i).
Hypothesis da_length : length da_alpha_dTs = N.
Hypothesis d2a_length : length d2a_alpha_dT2s = N.
Hypothesis zs_length : length zs = N.
Hypothesis kijs_square : square N kijs.

Local Abbreviation quad_t200 := (quad_t200 a_alphas zs kijs).
Local Abbreviation quad_da_ij := (quad_da_ij a_alphas da_alpha_dTs zs kijs).
Local Abbreviation quad_d2_ij := (quad_d2_ij a_alphas da_alpha_dTs d2a_alpha_dT2s zs kijs).

Lemma quad_run :
  exists a_alpha_j_rows da_alpha_dT_j_rows,
    a_alpha_and_derivatives_quadratic_terms a_alphas a_alpha_i_roots
      da_alpha_dTs d2a_alpha_dT2s T zs kijs
    = Ok (quad_a_alpha a_alphas zs kijs,
          quad_da_alpha_dT a_alphas da_alpha_dTs zs kijs,
          quad_d2a_alpha_dT2 a_alphas da_alpha_dTs d2a_alpha_dT2s zs kijs,
          a_alpha_j_rows, da_alpha_dT_j_rows).
Proof.
  unfold a_alpha_and_derivatives_quadratic_terms. fold N.
  pose proof (proj1 kijs_square) as Hklen.
  match goal with |- context [for_range 0 N ?body ?s] =>
    pose proof (for_range_inv
      (fun i st =>
         exists rows drows,
           st = (Rsum i (fun p => Rsum p (fun j => quad_t200 p j + quad_t200 p j)
                                  + item a_alphas p * item zs p * item zs p),
                 Rsum i (fun p =>
                   - (0.5 * ((- item da_alpha_dTs p - item da_alpha_dTs p)
                             * (item zs p * item zs p)
                             + (Rsum p (quad_da_ij p) + Rsum p (quad_da_ij p))))),
                 Rsum i (fun p =>
                   item d2a_alpha_dT2s p * (item zs p * item zs p)
                   + (Rsum p (quad_d2_ij p) + Rsum p (quad_d2_ij p))),
                 rows, drows) /\
           length rows = N /\ length drows = N)
      body 0 N s) as Hloop
  end.
  destruct Hloop as (st & Hst & rows & drows & Hs & Hlen1 & Hlen2).
  - lia.
  - exists (zeros N), (zeros N). split; [done|]. split; len.
  - intros i st Hi (rows & drows & -> & Hlen1 & Hlen2).
    pose proof (square_row N kijs i kijs_square ltac:(lia)) as Hrowlen.
    py_run.
    match goal with |- context [for_range 0 i ?body ?s] =>
      pose proof (for_range_inv
        (fun j st =>
           exists rows' drows',
             st = (Rsum i (fun p => Rsum p (fun j => quad_t200 p j + quad_t200 p j)
                                    + item a_alphas p * item zs p * item zs p)
                   + Rsum j (fun q => quad_t200 i q + quad_t200 i q),
                   rows', drows', Rsum j (quad_da_ij i), Rsum j (quad_d2_ij i)) /\
             length rows' = N /\ length drows' = N)
        body 0 i s) as Hloop
    end.
    destruct Hloop as (st & Hst & rows' & drows' & Hs & Hlen1' & Hlen2').
    + lia.
    + exists rows, drows. split; [|done]. cbn [Rsum]. tuple_eq; try reflexivity. lra.
    + intros j st Hj (rows' & drows' & -> & Hlen1' & Hlen2').
      py_run. cbv zeta.
      rewrite (roots_are_roots i), (roots_are_roots j) by lia.
      fold (root_product a_alphas i j).
      rewrite py_div_nonzero.
      2:{ apply Rgt_not_eq, Rlt_gt, root_product_pos; [done|lia..]. }
      py_run. eexists; split; [reflexivity|].
      eexists _, _. split.
      * tuple_eq; try fill_evar.
        all: cbn [Rsum]; unfold_quad; unfold d2_bracket, x1_x2_at, item2.
        all: ring.
      * split; len.
    + rewrite Hst. subst st. py_run. cbv zeta.
      eexists; split; [reflexivity|].
      eexists _, _. split.
      * tuple_eq; try fill_evar.
        all: cbn [Rsum]; ring.
      * split; len.
  - rewrite Hst. subst st. py_run.
    match goal with |- context [for_range 0 N ?body ?s] =>
      pose proof (for_range_inv (fun (i : nat) (drows : list R) => length drows = N)
                    body 0 N s) as Hloop
    end.
    destruct Hloop as (drows' & Hst' & Hlen').
    + lia.
    + done.
    + intros i drows0 Hi Hlen0. py_run. eexists; split; [reflexivity|]. len.
    + rewrite Hst'. py_run. by exists rows, drows'.
Qed.
End QuadraticDerivatives.

(** ** The run of a_alpha_and_derivatives_full *)

Lemma setitem2_filled N (m : list (list R)) i j v :
  filled N m -> (i < N)%nat -> (j < N)%nat ->
  exists m', setitem2 m i j v = Ok m' /\ filled N m'.
Proof.
  intros Hm Hi Hj.
  destruct (setitem2_entry m i j v (Hm i j Hi Hj)) as (m' & Hrun & Hm').
  exists m'. split; [done|]. intros p q Hp Hq. rewrite Hm'.
  case_decide; [done | by apply Hm].
Qed.

Lemma filled_zeros2 N : filled N (zeros2 N).
Proof. intros p q Hp Hq. by rewrite entry_zeros2. Qed.

Lemma entry_row N (m : list (list R)) (f : nat -> nat -> R) p :
  (forall p q, (p < N)%nat -> (q < N)%nat -> entry m p q = Some (f p q)) ->
  (p < N)%nat ->
  exists row, m !! p = Some row /\ forall q, (q < N)%nat -> row !! q = Some (f p q).
Proof.
  intros Hm Hp. destruct (proj1 (entry_Some _ _ _ _) (Hm p p Hp Hp)) as (row & Hrow & _).
  exists row. split; [done|]. intros q Hq.
  destruct (proj1 (entry_Some _ _ _ _) (Hm p q Hp Hq)) as (row' & Hrow' & Hq').
  congruence.
Qed.

Lemma comprehension_Ok_map {A B} (f : A -> result B) (g : A -> B) l :
  (forall x, x ∈ l -> f x = Ok (g x)) -> comprehension f l = Ok (map g l).
Proof.
  induction l as [|x l IH]; intros H; cbn [comprehension map]; [done|].
  rewrite (H x) by left. rewrite bind_Ok, IH, bind_Ok; [done|].
  intros y Hy. apply H. by right.
Qed.

Lemma getitem_map_seq {B} (g : nat -> B) n i :
  (i < n)%nat -> getitem (map g (seq 0 n)) i = Ok (g i).
Proof.
  intros Hi. apply getitem_Some.
  change (map g (seq 0 n)) with (g <$> seq 0 n).
  rewrite list_lookup_fmap, lookup_seq_lt by done. done.
Qed.

Lemma z_products_run (zs : list R) N :
  length zs = N ->
  comprehension (fun i =>
    comprehension (fun j =>
      zi ← getitem zs i; zj ← getitem zs j; Ok (zi * zj)) (seq 0 N)) (seq 0 N)
  = Ok (map (fun i => map (fun j => item zs i * item zs j) (seq 0 N)) (seq 0 N)).
Proof.
  intros Hlen. apply comprehension_Ok_map. intros i Hi%elem_of_seq.
  apply comprehension_Ok_map. intros j Hj%elem_of_seq.
  by rewrite !getitem_item, !bind_Ok by lia.
Qed.

Lemma entry_row_item N (m : list (list R)) (f : nat -> nat -> R) p :
  (forall p q, (p < N)%nat -> (q < N)%nat -> entry m p q = Some (f p q)) ->
  (p < N)%nat ->
  exists row, m !! p = Some row /\ (N <= length row)%nat /\
    forall q, (q < N)%nat -> item row q = f p q.
Proof.
  intros Hm Hp. destruct (entry_row N m f p Hm Hp) as (row & Hrow & Hq).
  exists row. split; [done|]. split.
  - destruct (decide (N <= length row)%nat) as [|Hn]; [done|].
    pose proof (lookup_lt_Some _ _ _ (Hq (N - 1)%nat ltac:(lia))). lia.
  - intros q Hq'. by apply item_lookup, Hq.
Qed.

Lemma full_step_lt i j x : (j < i)%nat -> full_step i j x = 0.
Proof. intros H. unfold full_step. by rewrite (proj2 (Nat.ltb_lt j i) H). Qed.

Lemma full_step_diag i x : full_step i i x = x.
Proof.
  unfold full_step. rewrite Nat.ltb_irrefl. by rewrite decide_False by (intros H; by apply H).
Qed.

Lemma full_step_gt i j x : (i < j)%nat -> full_step i j x = x + x.
Proof.
  intros H. unfold full_step.
  rewrite (proj2 (Nat.ltb_ge j i)) by lia. by rewrite decide_True by lia.
Qed.

Ltac unfold_full := unfold full_da_ij, full_d2_ij.

Section FullDerivatives.
Variables (a_alphas da_alpha_dTs d2a_alpha_dT2s : list R).
Variables (T : R) (zs : list R) (kijs : list (list R)).
Variable second_derivative : bool.
Let N := length a_alphas.
Hypothesis a_alphas_pos : Forall (fun a => 0 < a) a_alphas.
Hypothesis da_length : length da_alpha_dTs = N.
Hypothesis d2a_length : length d2a_alpha_dT2s = N.
Hypothesis zs_length : length zs = N.
Hypothesis kijs_square : square N kijs.

Local Abbreviation built := (a_alpha_ij_built a_alphas kijs).
Local Abbreviation full_da_ij := (full_da_ij a_alphas da_alpha_dTs kijs).
Local Abbreviation full_d2_ij := (full_d2_ij a_alphas da_alpha_dTs d2a_alpha_dT2s kijs).

Let zz i j := item zs i * item zs j.

Lemma full_a_alpha_loop (m : list (list R)) :
  (forall p q, (p < N)%nat -> (q < N)%nat -> entry m p q = Some (built p q)) ->
  for_range 0 N (fun i a_alpha =>
    a_alpha_ijs_i ← getitem m i;
    z_products_i ← getitem
      (map (fun i => map (fun j => item zs i * item zs j) (seq 0 N)) (seq 0 N)) i;
    a_alpha ←
      for_range 0 i (fun j a_alpha =>
        a_alpha_ij ← getitem a_alpha_ijs_i j;
        zi_zj ← getitem z_products_i j;
        Ok (a_alpha + (a_alpha_ij * zi_zj + a_alpha_ij * zi_zj)))
      a_alpha;
    a_alpha_ii ← getitem a_alpha_ijs_i i;
    zi_zi ← getitem z_products_i i;
    Ok (a_alpha + a_alpha_ii * zi_zi))
  0 = Ok (full_a_alpha a_alphas zs kijs).
Proof.
  intros Hm.
  match goal with |- context [for_range 0 N ?body ?s] =>
    pose proof (for_range_inv
      (fun i a_alpha =>
         a_alpha = Rsum i (fun p =>
           Rsum p (fun q => built p q * zz p q + built p q * zz p q)
           + built p p * zz p p))
      body 0 N s) as Hloop
  end.
  destruct Hloop as (a_alpha & Hst & Ha).
  - lia.
  - done.
  - intros i a_alpha Hi ->.
    destruct (entry_row N m _ i Hm ltac:(lia)) as (row & Hrow & Hrowq).
    rewrite (getitem_Some _ _ _ Hrow), bind_Ok.
    rewrite getitem_map_seq, bind_Ok by lia.
    match goal with |- context [for_range 0 i ?body ?s] =>
      pose proof (for_range_inv
        (fun j a_alpha =>
           a_alpha = Rsum i (fun p =>
             Rsum p (fun q => built p q * zz p q + built p q * zz p q)
             + built p p * zz p p)
             + Rsum j (fun q => built i q * zz i q + built i q * zz i q))
        body 0 i s) as Hloop
    end.
    destruct Hloop as (a_alpha & Hst & Ha).
    + lia.
    + cbn [Rsum]. lra.
    + intros j a_alpha Hj ->.
      rewrite (getitem_Some _ _ _ (Hrowq j ltac:(lia))), bind_Ok.
      rewrite getitem_map_seq, bind_Ok by lia.
      eexists; split; [reflexivity|]. cbn [Rsum]. unfold zz. ring.
    + rewrite Hst, bind_Ok.
      rewrite (getitem_Some _ _ _ (Hrowq i ltac:(lia))), bind_Ok.
      rewrite getitem_map_seq, bind_Ok by lia.
      eexists; split; [reflexivity|]. subst a_alpha. cbn [Rsum]. unfold zz. ring.
  - rewrite Hst. subst a_alpha. reflexivity.
Qed.

Lemma root_product_sq i j :
  (i < N)%nat -> (j < N)%nat ->
  root_product a_alphas i j * root_product a_alphas i j
  = item a_alphas i * item a_alphas j.
Proof.
  intros Hi Hj. unfold root_product.
  pose proof (Forall_item (fun a => 0 < a) _ i a_alphas_pos Hi) as Hai.
  pose proof (Forall_item (fun a => 0 < a) _ j a_alphas_pos Hj) as Haj.
  simpl in Hai, Haj.
  transitivity ((sqrt (item a_alphas i) * sqrt (item a_alphas i))
                * (sqrt (item a_alphas j) * sqrt (item a_alphas j))); [ring|].
  by rewrite !sqrt_sqrt by lra.
Qed.

Lemma full_d2_denominator i j :
  (i < N)%nat -> (j < N)%nat ->
  1 / root_product a_alphas i j * (item a_alphas i * item a_alphas j)
  * (item a_alphas i * item a_alphas j) <> 0.
Proof.
  intros Hi Hj.
  pose proof (root_product_pos a_alphas i j a_alphas_pos Hi Hj) as Hrp.
  pose proof (Forall_item (fun a => 0 < a) _ i a_alphas_pos Hi) as Hai.
  pose proof (Forall_item (fun a => 0 < a) _ j a_alphas_pos Hj) as Haj.
  simpl in Hai, Haj.
  assert (0 < 1 / root_product a_alphas i j) by (apply Rdiv_lt_0_compat; lra).
  assert (0 < item a_alphas i * item a_alphas j) by (by apply Rmult_lt_0_compat).
  apply Rgt_not_eq, Rlt_gt.
  apply Rmult_lt_0_compat; [apply Rmult_lt_0_compat|]; assumption.
Qed.

Let filled_opt (d2m : option (list (list R))) : Prop :=
  match d2m with Some m => filled N m | None => True end.

Lemma full_run :
  exists d2a_alpha_dT2_ijs da_alpha_dT_ijs a_alpha_ijs,
    a_alpha_and_derivatives_full a_alphas da_alpha_dTs d2a_alpha_dT2s T zs kijs
      None None None second_derivative
    = Ok (full_a_alpha a_alphas zs kijs,
          full_da_alpha_dT a_alphas da_alpha_dTs zs kijs,
          full_d2a_alpha_dT2 a_alphas da_alpha_dTs d2a_alpha_dT2s zs kijs,
          d2a_alpha_dT2_ijs, da_alpha_dT_ijs, a_alpha_ijs).
Proof.
  unfold a_alpha_and_derivatives_full. fold N.
  destruct (aijs_plain_spec a_alphas kijs a_alphas_pos kijs_square)
    as (m & inv & -> & Hm & Hinv).
  fold N in Hm, Hinv. rewrite bind_Ok. cbv zeta.
  rewrite (z_products_run zs N zs_length), bind_Ok.
  rewrite (full_a_alpha_loop m Hm), bind_Ok.
  pose proof (proj1 kijs_square) as Hklen.
  match goal with |- context [for_range 0 N ?body ?s] =>
    pose proof (for_range_inv
      (fun i st =>
         exists dam d2m,
           st = (Rsum i (fun p => Rsum N (fun q =>
                   full_step p q (full_da_ij p q * zz p q))),
                 Rsum i (fun p => Rsum N (fun q =>
                   full_step p q (full_d2_ij p q * zz p q))),
                 dam, d2m) /\
           filled N dam /\ filled_opt d2m)
      body 0 N s) as Hloop
  end.
  destruct Hloop as (st & Hst & dam & d2m & Hs & _).
  - lia.
  - eexists _, _. split; [reflexivity|]. split; [apply filled_zeros2|].
    destruct second_derivative; [apply filled_zeros2 | exact I].
  - intros i st Hi (dam & d2m & -> & Hdam & Hd2m).
    pose proof (square_row N kijs i kijs_square ltac:(lia)) as Hrowlen.
    destruct (entry_row_item N inv _ i Hinv ltac:(lia))
      as (invrow & Hinvrow & Hinvlen & Hinvq).
    py_run. rewrite getitem_map_seq, bind_Ok by lia. py_run.
    rewrite (getitem_Some _ _ _ Hinvrow), bind_Ok.
    match goal with |- context [for_each ?body (seq 0 N) ?s] =>
      pose proof (for_each_inv
        (fun j st =>
           exists dam d2m,
             st = (Rsum i (fun p => Rsum N (fun q =>
                     full_step p q (full_da_ij p q * zz p q)))
                   + Rsum j (fun q => full_step i q (full_da_ij i q * zz i q)),
                   Rsum i (fun p => Rsum N (fun q =>
                     full_step p q (full_d2_ij p q * zz p q)))
                   + Rsum j (fun q => full_step i q (full_d2_ij i q * zz i q)),
                   dam, d2m) /\
             filled N dam /\ filled_opt d2m)
        body N 0%nat s) as Hloop
    end.
    destruct Hloop as (st & Hst & dam' & d2m' & Hs & Hdam' & Hd2m').
    + exists dam, d2m. split; [|done]. cbn [Rsum]. tuple_eq; try reflexivity; lra.
    + intros j st Hj (dam' & d2m' & -> & Hdam' & Hd2m'). cbv beta iota.
      destruct (Nat.ltb_spec j i) as [Hlt|Hle].
      * eexists; split; [reflexivity|]. exists dam', d2m'. split; [|done].
        cbn [Rsum]. rewrite !(full_step_lt i j) by done.
        tuple_eq; try reflexivity; lra.
      * py_run. rewrite getitem_map_seq, bind_Ok by lia. py_run.
        rewrite (Hinvq j) by lia. rewrite decide_True by lia.
        destruct (setitem2_filled N dam' i j
                    (-0.5 * (item (nth i kijs []) j - 1)
                     * (item a_alphas i * item da_alpha_dTs j
                        + item a_alphas j * item da_alpha_dTs i)
                     * (1 / root_product a_alphas i j)) Hdam')
          as (dam1 & -> & Hdam1); [lia..|]. rewrite bind_Ok.
        destruct (setitem2_filled N dam1 j i
                    (-0.5 * (item (nth i kijs []) j - 1)
                     * (item a_alphas i * item da_alpha_dTs j
                        + item a_alphas j * item da_alpha_dTs i)
                     * (1 / root_product a_alphas i j)) Hdam1)
          as (dam2 & -> & Hdam2); [lia..|]. rewrite bind_Ok. py_run.
        rewrite py_div_nonzero by (apply full_d2_denominator; lia).
        rewrite bind_Ok.
        assert (exists d2m2,
                  match d2m' with
                  | Some m0 =>
                      m1 ← setitem2 m0 i j
                             ((item (nth i kijs []) j - 1)
                              * ((item a_alphas i * item a_alphas j
                                  * (-0.5 * (item a_alphas i * item d2a_alpha_dT2s j
                                             + item a_alphas j * item d2a_alpha_dT2s i)
                                     - item da_alpha_dTs i * item da_alpha_dTs j)
                                  + 0.25 * (item a_alphas i * item da_alpha_dTs j
                                            + item a_alphas j * item da_alpha_dTs i)
                                    * (item a_alphas i * item da_alpha_dTs j
                                       + item a_alphas j * item da_alpha_dTs i))
                                 / (1 / root_product a_alphas i j
                                    * (item a_alphas i * item a_alphas j)
                                    * (item a_alphas i * item a_alphas j))));
                      m2 ← setitem2 m1 j i
                             ((item (nth i kijs []) j - 1)
                              * ((item a_alphas i * item a_alphas j
                                  * (-0.5 * (item a_alphas i * item d2a_alpha_dT2s j
                                             + item a_alphas j * item d2a_alpha_dT2s i)
                                     - item da_alpha_dTs i * item da_alpha_dTs j)
                                  + 0.25 * (item a_alphas i * item da_alpha_dTs j
                                            + item a_alphas j * item da_alpha_dTs i)
                                    * (item a_alphas i * item da_alpha_dTs j
                                       + item a_alphas j * item da_alpha_dTs i))
                                 / (1 / root_product a_alphas i j
                                    * (item a_alphas i * item a_alphas j)
                                    * (item a_alphas i * item a_alphas j))));
                      Ok (Some m2)
                  | None => Ok None
                  end = Ok d2m2 /\ filled_opt d2m2) as (d2m2 & -> & Hd2m2).
        { destruct d2m' as [m0|]; [|by exists None].
          destruct (setitem2_filled N m0 i j
                      ((item (nth i kijs []) j - 1)
                       * ((item a_alphas i * item a_alphas j
                           * (-0.5 * (item a_alphas i * item d2a_alpha_dT2s j
                                      + item a_alphas j * item d2a_alpha_dT2s i)
                              - item da_alpha_dTs i * item da_alpha_dTs j)
                           + 0.25 * (item a_alphas i * item da_alpha_dTs j
                                     + item a_alphas j * item da_alpha_dTs i)
                             * (item a_alphas i * item da_alpha_dTs j
                                + item a_alphas j * item da_alpha_dTs i))
                          / (1 / root_product a_alphas i j
                             * (item a_alphas i * item a_alphas j)
                             * (item a_alphas i * item a_alphas j)))) Hd2m')
            as (m1 & -> & Hm1); [lia..|]. rewrite bind_Ok.
          destruct (setitem2_filled N m1 j i
                      ((item (nth i kijs []) j - 1)
                       * ((item a_alphas i * item a_alphas j
                           * (-0.5 * (item a_alphas i * item d2a_alpha_dT2s j
                                      + item a_alphas j * item d2a_alpha_dT2s i)
                              - item da_alpha_dTs i * item da_alpha_dTs j)
                           + 0.25 * (item a_alphas i * item da_alpha_dTs j
                                     + item a_alphas j * item da_alpha_dTs i)
                             * (item a_alphas i * item da_alpha_dTs j
                                + item a_alphas j * item da_alpha_dTs i))
                          / (1 / root_product a_alphas i j
                             * (item a_alphas i * item a_alphas j)
                             * (item a_alphas i * item a_alphas j)))) Hm1)
            as (m2 & -> & Hm2); [lia..|]. rewrite bind_Ok.
          by exists (Some m2). }
        rewrite bind_Ok.
        assert (forall x y : R,
                  (if decide (i ≠ j)
                   then Ok (x, y, dam2, d2m2) else Ok (x, y, dam2, d2m2))
                  = Ok (x, y, dam2, d2m2)) as Hif by (intros; by case_decide).
        destruct (decide (i ≠ j)) as [Hne|Heq].
        -- eexists; split; [reflexivity|]. exists dam2, d2m2. split; [|done].
           cbn [Rsum]. rewrite !(full_step_gt i j) by lia.
           unfold_full; unfold d2_bracket, x1_x2_at, item2, zz.
           tuple_eq; try reflexivity; ring.
        -- eexists; split; [reflexivity|]. exists dam2, d2m2. split; [|done].
           assert (j = i) as -> by (destruct (decide (i = j)); [done | contradiction]).
           cbn [Rsum]. rewrite !full_step_diag.
           unfold_full; unfold d2_bracket, x1_x2_at, item2, zz.
           tuple_eq; try reflexivity; ring.
    + rewrite Hst. subst st. eexists; split; [reflexivity|].
      exists dam', d2m'. split; [|done]. cbn [Rsum Nat.add]. reflexivity.
  - rewrite Hst. subst st. rewrite bind_Ok. by eexists _, _, _.
Qed.
End FullDerivatives.

(** ** Agreement of the closed forms of the two routines *)

Lemma Rsum_opp n f : Rsum n (fun i => - f i) = - Rsum n f.
Proof. induction n as [|n IH]; cbn [Rsum]; [lra|]. rewrite IH. lra. Qed.

Lemma root_product_sym a_alphas i j :
  root_product a_alphas i j = root_product a_alphas j i.
Proof. unfold root_product. ring. Qed.

(** Decimal literals as fractions, for [field]. *)
Ltac decimals :=
  try (replace (-0.5) with (- / 2) by lra);
  try (replace 0.5 with (/ 2) by lra);
  try (replace 0.25 with (/ 4) by lra).

Section Agreement.
Variables (a_alphas da_alpha_dTs d2a_alpha_dT2s zs : list R).
Variable kijs : list (list R).
Let N := length a_alphas.
Hypothesis a_alphas_pos : Forall (fun a => 0 < a) a_alphas.
Hypothesis kijs_symmetric : symmetric N kijs.
Hypothesis kijs_zero_diagonal : zero_diagonal N kijs.

Local Abbreviation rp := (root_product a_alphas).
Local Abbreviation bracket := (d2_bracket a_alphas da_alpha_dTs d2a_alpha_dT2s).
Local Abbreviation x12 := (x1_x2_at a_alphas da_alpha_dTs).

Local Abbreviation zz i j := (item zs i * item zs j).

Lemma rp_diag i : (i < N)%nat -> rp i i = item a_alphas i.
Proof.
  intros Hi. unfold root_product. apply sqrt_sqrt.
  pose proof (Forall_item (fun a => 0 < a) _ i a_alphas_pos Hi) as H. simpl in H. lra.
Qed.

Lemma a_alphas_item_pos i : (i < N)%nat -> 0 < item a_alphas i.
Proof. intros Hi. exact (Forall_item (fun a => 0 < a) _ i a_alphas_pos Hi). Qed.

Lemma bracket_sym i j : bracket i j = bracket j i.
Proof. unfold d2_bracket, x1_x2_at. ring. Qed.

Lemma x12_sym i j : x12 i j = x12 j i.
Proof. unfold x1_x2_at. ring. Qed.

(** *** a_alpha *)

Lemma agree_a_alpha : full_a_alpha a_alphas zs kijs = quad_a_alpha a_alphas zs kijs.
Proof.
  unfold full_a_alpha, quad_a_alpha. fold N. apply Rsum_ext. intros i Hi. f_equal.
  - apply Rsum_ext. intros j Hj. unfold a_alpha_ij_built, quad_t200.
    rewrite Nat.min_r, Nat.max_l by lia.
    rewrite (kijs_symmetric j i) by lia. rewrite (root_product_sym a_alphas j i). ring.
  - unfold a_alpha_ij_built. rewrite Nat.min_id, Nat.max_id.
    rewrite (kijs_zero_diagonal i Hi), (rp_diag i Hi). ring.
Qed.

(** *** The derivative totals: the upper triangle, row by row, against the
    lower triangle, row by row *)

Lemma full_row_split i (F : nat -> R) :
  (i < N)%nat ->
  Rsum N (fun j => full_step i j (F j))
  = F i + Rsum N (fun j => if decide (i < j)%nat then F j + F j else 0).
Proof.
  intros Hi.
  rewrite (Rsum_ext N _ (fun j => (if decide (j = i) then F j else 0)
                                  + (if decide (i < j)%nat then F j + F j else 0))).
  - rewrite Rsum_plus, (Rsum_only N i F). by rewrite decide_True.
  - intros j _. destruct (lt_eq_lt_dec j i) as [[Hlt|Heq]|Hgt]; [| subst j |].
    + rewrite full_step_lt by done. repeat case_decide; try lia; lra.
    + rewrite full_step_diag. repeat case_decide; try lia; try done; lra.
    + rewrite full_step_gt by done. repeat case_decide; try lia; lra.
Qed.

Lemma full_total_split (F : nat -> nat -> R) :
  Rsum N (fun i => Rsum N (fun j => full_step i j (F i j)))
  = Rsum N (fun i => F i i + Rsum i (fun j => F j i + F j i)).
Proof.
  rewrite (Rsum_ext N _ (fun i =>
             F i i + Rsum N (fun j => if decide (i < j)%nat then F i j + F i j else 0))).
  2:{ intros i Hi. by apply full_row_split. }
  rewrite Rsum_plus, (Rsum_triangle N (fun i j => F i j + F i j)).
  by rewrite <- Rsum_plus.
Qed.

(** *** First derivative *)

Lemma full_da_diag i :
  (i < N)%nat ->
  full_da_ij a_alphas da_alpha_dTs kijs i i * zz i i = item da_alpha_dTs i * zz i i.
Proof.
  intros Hi. unfold full_da_ij, x1_x2_at.
  rewrite (kijs_zero_diagonal i Hi), (rp_diag i Hi).
  pose proof (a_alphas_item_pos i Hi). decimals. field. lra.
Qed.

Lemma full_da_offdiag i j :
  (j < i)%nat -> (i < N)%nat ->
  full_da_ij a_alphas da_alpha_dTs kijs j i * zz j i
  + full_da_ij a_alphas da_alpha_dTs kijs j i * zz j i
  = - quad_da_ij a_alphas da_alpha_dTs zs kijs i j.
Proof.
  intros Hj Hi. unfold full_da_ij, quad_da_ij.
  rewrite (kijs_symmetric j i) by lia.
  rewrite (root_product_sym a_alphas j i), (x12_sym j i).
  pose proof (root_product_pos a_alphas i j a_alphas_pos ltac:(lia) ltac:(lia)).
  decimals. field. lra.
Qed.

Lemma agree_da_alpha_dT :
  full_da_alpha_dT a_alphas da_alpha_dTs zs kijs
  = quad_da_alpha_dT a_alphas da_alpha_dTs zs kijs.
Proof.
  unfold full_da_alpha_dT, quad_da_alpha_dT. fold N.
  rewrite (full_total_split
             (fun i j => full_da_ij a_alphas da_alpha_dTs kijs i j * zz i j)).
  apply Rsum_ext. intros i Hi. rewrite (full_da_diag i Hi).
  rewrite (Rsum_ext i _ (fun j => - quad_da_ij a_alphas da_alpha_dTs zs kijs i j)).
  2:{ intros j Hj. by apply full_da_offdiag. }
  rewrite Rsum_opp. lra.
Qed.

(** *** Second derivative *)

Lemma full_d2_diag i :
  (i < N)%nat ->
  full_d2_ij a_alphas da_alpha_dTs d2a_alpha_dT2s kijs i i * zz i i
  = item d2a_alpha_dT2s i * zz i i.
Proof.
  intros Hi. unfold full_d2_ij, d2_bracket, x1_x2_at.
  rewrite (kijs_zero_diagonal i Hi), (rp_diag i Hi).
  pose proof (a_alphas_item_pos i Hi). decimals. field. lra.
Qed.

Lemma full_d2_offdiag i j :
  (j < i)%nat -> (i < N)%nat ->
  full_d2_ij a_alphas da_alpha_dTs d2a_alpha_dT2s kijs j i * zz j i
  = quad_d2_ij a_alphas da_alpha_dTs d2a_alpha_dT2s zs kijs i j.
Proof.
  intros Hj Hi. unfold full_d2_ij, quad_d2_ij.
  rewrite (kijs_symmetric j i) by lia.
  rewrite (root_product_sym a_alphas j i), (bracket_sym j i).
  rewrite <- (root_product_sq a_alphas a_alphas_pos j i) by lia.
  rewrite (root_product_sym a_alphas j i).
  pose proof (root_product_pos a_alphas i j a_alphas_pos ltac:(lia) ltac:(lia)).
  set (B := bracket i j). set (r := rp i j) in *.
  field. lra.
Qed.

Lemma agree_d2a_alpha_dT2 :
  full_d2a_alpha_dT2 a_alphas da_alpha_dTs d2a_alpha_dT2s zs kijs
  = quad_d2a_alpha_dT2 a_alphas da_alpha_dTs d2a_alpha_dT2s zs kijs.
Proof.
  unfold full_d2a_alpha_dT2, quad_d2a_alpha_dT2. fold N.
  rewrite (full_total_split
             (fun i j => full_d2_ij a_alphas da_alpha_dTs d2a_alpha_dT2s kijs i j * zz i j)).
  apply Rsum_ext. intros i Hi. rewrite (full_d2_diag i Hi). f_equal.
  rewrite <- Rsum_plus. apply Rsum_ext. intros j Hj.
  by rewrite (full_d2_offdiag i j Hj Hi).
Qed.
End Agreement.

(** ** Properties of the mixture routines *)

(** C7: for non-negative attractive terms, their precomputed roots, mole
    fractions and a symmetric N x N matrix [kijs], [a_alpha_quadratic_terms]
    returns the double sum over all ordered pairs of
    [zs[i]*zs[j]*(1-kijs[i][j])*sqrt(a_alphas[i]*a_alphas[j])] and the row sums
    [sum_j zs[j]*(1-kijs[i][j])*sqrt(a_alphas[i]*a_alphas[j])]. *)
Theorem C7_quadratic_terms_formula
    (a_alphas a_alpha_i_roots : list R) (T : R) (zs : list R)
    (kijs : list (list R)) :
  Forall (fun a => 0 <= a) a_alphas ->
  length a_alpha_i_roots = length a_alphas ->
  (forall i, (i < length a_alphas)%nat ->
     item a_alpha_i_roots i = sqrt (item a_alphas i)) ->
  length zs = length a_alphas ->
  square (length a_alphas) kijs ->
  symmetric (length a_alphas) kijs ->
  exists a_alpha_j_rows,
    a_alpha_quadratic_terms a_alphas a_alpha_i_roots T zs kijs
      = Ok (a_alpha_formula a_alphas zs kijs, a_alpha_j_rows) /\
    length a_alpha_j_rows = length a_alphas /\
    forall i, (i < length a_alphas)%nat ->
      a_alpha_j_rows !! i = Some (row_sum_formula a_alphas zs kijs i).
Proof.
  intros Hpos Hrlen Hroots Hzlen Hsq Hsym.
  destruct (quadratic_terms_run a_alphas a_alpha_i_roots T zs kijs Hrlen Hzlen Hsq)
    as (rows & Hrun & Hlen & Hrows).
  exists rows. split; [|split; [done|]].
  - rewrite Hrun. by rewrite (quadratic_a_alpha_formula _ _ _ _ Hpos Hroots Hsym).
  - intros i Hi. rewrite (item_lt_lookup rows i) by lia.
    by rewrite (Hrows i Hi), (quadratic_row_formula _ _ _ _ Hpos Hroots Hsym i Hi).
Qed.

Lemma item_sqrt_concrete2 a b i :
  (i < 2)%nat -> item [sqrt a; sqrt b] i = sqrt (item [a; b] i).
Proof. intros Hi. destruct i as [|[|i]]; [reflexivity | reflexivity | lia]. Qed.

Lemma C7_quadratic_terms_formula_witness :
  exists a_alpha_j_rows,
    a_alpha_quadratic_terms [4; 0] [sqrt 4; sqrt 0] 300 [0.25; 0.75]
      [[0; 0.1]; [0.1; 0]]
    = Ok (a_alpha_formula [4; 0] [0.25; 0.75] [[0; 0.1]; [0.1; 0]], a_alpha_j_rows).
Proof.
  destruct (C7_quadratic_terms_formula [4; 0] [sqrt 4; sqrt 0] 300 [0.25; 0.75]
              [[0; 0.1]; [0.1; 0]]) as (rows & Hrun & _).
  - repeat constructor; lra.
  - reflexivity.
  - apply item_sqrt_concrete2.
  - reflexivity.
  - square_concrete.
  - intros [|[|i]] [|[|j]] Hi Hj; simpl in *; try reflexivity; lia.
  - exists rows. exact Hrun.
Defined.

(** C2 (amended): on strictly positive attractive terms with their roots, and
    a symmetric zero-diagonal N x N matrix [kijs], the double-sum routine and
    the quadratic-terms routine return equal [a_alpha], [da_alpha_dT] and
    [d2a_alpha_dT2] (as real numbers). *)
Theorem C2_full_and_quadratic_agree
    (a_alphas a_alpha_i_roots da_alpha_dTs d2a_alpha_dT2s : list R) (T : R)
    (zs : list R) (kijs : list (list R)) (second_derivative : bool) :
  Forall (fun a => 0 < a) a_alphas ->
  length a_alpha_i_roots = length a_alphas ->
  (forall i, (i < length a_alphas)%nat ->
     item a_alpha_i_roots i = sqrt (item a_alphas i)) ->
  length da_alpha_dTs = length a_alphas ->
  length d2a_alpha_dT2s = length a_alphas ->
  length zs = length a_alphas ->
  square (length a_alphas) kijs ->
  symmetric (length a_alphas) kijs ->
  zero_diagonal (length a_alphas) kijs ->
  same_totals
    (a_alpha_and_derivatives_full a_alphas da_alpha_dTs d2a_alpha_dT2s T zs kijs
       None None None second_derivative)
    (a_alpha_and_derivatives_quadratic_terms a_alphas a_alpha_i_roots
       da_alpha_dTs d2a_alpha_dT2s T zs kijs).
Proof.
  intros Hpos Hrlen Hroots Hdlen Hd2len Hzlen Hsq Hsym Hdiag.
  destruct (full_run a_alphas da_alpha_dTs d2a_alpha_dT2s T zs kijs second_derivative
              Hpos Hdlen Hd2len Hzlen Hsq) as (d2m & dam & m & Hfull).
  destruct (quad_run a_alphas a_alpha_i_roots da_alpha_dTs d2a_alpha_dT2s T zs kijs
              Hpos Hrlen Hroots Hdlen Hd2len Hzlen Hsq) as (rows & drows & Hquad).
  exists (quad_a_alpha a_alphas zs kijs),
         (quad_da_alpha_dT a_alphas da_alpha_dTs zs kijs),
         (quad_d2a_alpha_dT2 a_alphas da_alpha_dTs d2a_alpha_dT2s zs kijs),
         d2m, dam, m, rows, drows.
  split; [|exact Hquad]. rewrite Hfull.
  rewrite (agree_a_alpha a_alphas zs kijs Hpos Hsym Hdiag).
  rewrite (agree_da_alpha_dT a_alphas da_alpha_dTs zs kijs Hpos Hsym Hdiag).
  by rewrite (agree_d2a_alpha_dT2 a_alphas da_alpha_dTs d2a_alpha_dT2s zs kijs
                Hpos Hsym Hdiag).
Qed.

Lemma C2_full_and_quadratic_agree_witness :
  same_totals
    (a_alpha_and_derivatives_full [4; 9] [0.5; 0.25] [0.5; 0.25] 300 [0.25; 0.75]
       [[0; 0.1]; [0.1; 0]] None None None false)
    (a_alpha_and_derivatives_quadratic_terms [4; 9] [sqrt 4; sqrt 9]
       [0.5; 0.25] [0.5; 0.25] 300 [0.25; 0.75] [[0; 0.1]; [0.1; 0]]).
Proof.
  apply C2_full_and_quadratic_agree.
  - repeat constructor; lra.
  - reflexivity.
  - apply item_sqrt_concrete2.
  - reflexivity.
  - reflexivity.
  - reflexivity.
  - square_concrete.
  - intros [|[|i]] [|[|j]] Hi Hj; simpl in *; try reflexivity; lia.
  - intros [|[|i]] Hi; simpl in *; try reflexivity; lia.
Defined.

(** Symmetry of [kijs] cannot be dropped from the agreement of the two
    routines: on this zero-diagonal matrix, which is not symmetric, the
    double sum reads [kijs[0][1]] and the reformulation reads [kijs[1][0]]. *)
Lemma asymmetric_kijs_totals_differ :
  zero_diagonal 2 [[0; 0.5]; [0; 0]] /\
  exists da1 d21 d2m dam m da2 d22 rows drows,
    a_alpha_and_derivatives_full [1; 1] [0; 0] [0; 0] 300 [1; 1]
      [[0; 0.5]; [0; 0]] None None None false
    = Ok (3, da1, d21, d2m, dam, m) /\
    a_alpha_and_derivatives_quadratic_terms [1; 1] [1; 1] [0; 0] [0; 0] 300 [1; 1]
      [[0; 0.5]; [0; 0]]
    = Ok (4, da2, d22, rows, drows).
Proof.
  split; [intros [|[|i]] Hi; simpl in *; try reflexivity; lia|].
  assert (Forall (fun a => 0 < a) [1; 1]) as Hpos by (repeat constructor; lra).
  assert (square 2 [[0; 0.5]; [0; 0]]) as Hsq by square_concrete.
  destruct (full_run [1; 1] [0; 0] [0; 0] 300 [1; 1] [[0; 0.5]; [0; 0]] false
              Hpos eq_refl eq_refl eq_refl Hsq) as (d2m & dam & m & Hfull).
  destruct (quad_run [1; 1] [1; 1] [0; 0] [0; 0] 300 [1; 1] [[0; 0.5]; [0; 0]]
              Hpos eq_refl) as (rows & drows & Hquad); try reflexivity; try done.
  { intros [|[|i]] Hi; simpl in *; unfold item; simpl; rewrite ?sqrt_1; try reflexivity; lia. }
  eexists _, _, d2m, dam, m, _, _, rows, drows. split.
  - rewrite Hfull. apply (f_equal Ok). tuple_eq; try reflexivity.
    unfold full_a_alpha, a_alpha_ij_built, root_product, item2, item. simpl.
    rewrite sqrt_1. lra.
  - rewrite Hquad. apply (f_equal Ok). tuple_eq; try reflexivity.
    unfold quad_a_alpha, quad_t200, root_product, item2, item. simpl.
    rewrite sqrt_1. lra.
Qed.

(** ** The run of PR_lnphis *)

Lemma py_log_pos x : 0 < x -> py_log x = Ok (ln x).
Proof. intros H. unfold py_log. destruct (Rlt_dec 0 x); done. Qed.

Lemma sqrt2_pos : 0 < sqrt 2.
Proof. apply sqrt_lt_R0. lra. Qed.

Section PengRobinsonProofs.
Variable R_gas : R.
Hypothesis R_gas_nonzero : R_gas <> 0.
Variable volume_solutions_halley : R -> R -> R -> R -> R -> R -> result (R * R * R).

Lemma PR_lnphis_run (T P Z b a_alpha : R) (zs bs a_alpha_j_rows : list R) :
  T <> 0 -> P <> 0 -> b <> 0 -> a_alpha <> 0 ->
  0 < Z - PR_B R_gas T P b ->
  Z + PR_B R_gas T P b - sqrt 2 * PR_B R_gas T P b <> 0 ->
  0 < PR_log_argument Z (PR_B R_gas T P b) ->
  (length zs <= length bs)%nat ->
  (length zs <= length a_alpha_j_rows)%nat ->
  exists lnphis,
    PR_lnphis R_gas T P Z b a_alpha zs bs a_alpha_j_rows = Ok lnphis /\
    length lnphis = length zs /\
    forall i, (i < length zs)%nat ->
      lnphis !! i
      = Some (lnphi_formula R_gas T P Z b a_alpha (item bs i) (item a_alpha_j_rows i)).
Proof.
  intros HT HP Hb Ha HZB Hden Harg Hbs Hrows.
  pose proof sqrt2_pos as Hs2.
  assert (PR_B R_gas T P b <> 0) as HB.
  { unfold PR_B. unfold Rdiv. apply Rmult_integral_contrapositive_currified.
    - by apply Rmult_integral_contrapositive_currified.
    - apply Rinv_neq_0_compat. by apply Rmult_integral_contrapositive_currified. }
  unfold PR_lnphis, R2_inv, R_inv, root_two.
  rewrite (py_div_nonzero 1 T HT), bind_Ok.
  assert (b * (P * (1 / T)) * (1 / R_gas) = PR_B R_gas T P b) as ->
    by (unfold PR_B; field; done).
  set (B := PR_B R_gas T P b) in *.
  rewrite (py_log_pos _ HZB), bind_Ok.
  assert (Z + B - B * sqrt 2 <> 0) as Hden' by (by rewrite (Rmult_comm B)).
  rewrite (py_div_nonzero _ _ Hden'), bind_Ok.
  assert ((Z + B + B * sqrt 2) / (Z + B - B * sqrt 2) = PR_log_argument Z B) as ->.
  { unfold PR_log_argument. by rewrite (Rmult_comm B). }
  rewrite (py_log_pos _ Harg), bind_Ok.
  assert (B * sqrt 2 + B * sqrt 2 <> 0) as H2B.
  { assert (B * sqrt 2 <> 0) by (apply Rmult_integral_contrapositive_currified; lra).
    lra. }
  rewrite (py_div_nonzero _ (a_alpha * (B * sqrt 2 + B * sqrt 2))), bind_Ok
    by (by apply Rmult_integral_contrapositive_currified).
  rewrite (py_div_nonzero _ (b * (B * sqrt 2 + B * sqrt 2))), bind_Ok
    by (by apply Rmult_integral_contrapositive_currified).
  set (L := ln (PR_log_argument Z B)).
  match goal with |- context [for_range 0 ?n ?body ?s] =>
    pose proof (for_range_inv
      (fun i lnphis =>
         length lnphis = length zs /\
         forall p, (p < i)%nat ->
           item lnphis p
           = lnphi_formula R_gas T P Z b a_alpha (item bs p) (item a_alpha_j_rows p))
      body 0 n s) as Hloop
  end.
  destruct Hloop as (lnphis & Hst & Hlen & Hval).
  - lia.
  - split; [len|]. intros p Hp. lia.
  - intros i lnphis Hi [Hlen Hval]. py_run. eexists; split; [reflexivity|].
    split; [len|]. intros p Hp. rewrite item_insert by len.
    case_decide as E; [subst p | apply Hval; lia].
    unfold lnphi_formula, PR_A. fold B. fold L. cbv zeta.
    field. repeat split; try done; lra.
  - exists lnphis. split; [done|]. split; [done|].
    intros i Hi. rewrite (item_lt_lookup lnphis i) by lia. by rewrite Hval.
Qed.
End PengRobinsonProofs.

(** ** The run of PR_lnphis_fastest *)

Lemma select_root_requested l g b V0 V1 V2 :
  l = true \/ g = true ->
  select_root l g b V0 V1 V2 = Ok (selected_root l b V0 V1 V2).
Proof.
  intros Hlg. unfold select_root, selected_root, liquid_root, gas_root.
  destruct l; [|destruct g; [|by destruct Hlg]];
    destruct (Req_dec_T V1 0); reflexivity.
Qed.

Lemma select_root_neither b V0 V1 V2 :
  select_root false false b V0 V1 V2 = Raise (ValueError "Root must be specified").
Proof. reflexivity. Qed.




Lemma gas_root_largest b V0 V1 V2 :
  V1 <> 0 -> V0 > b ->
  largest_root_exceeding b V0 V1 V2 (gas_root b V0 V1 V2).
Proof.
  intros H1 H0. unfold gas_root, largest_root_exceeding.
  destruct (Req_dec_T V1 0); [contradiction|]. cbv zeta.
  destruct (Rlt_dec V0 V1), (Rgt_dec V1 b);
    match goal with |- context [Rlt_dec ?x V2] => destruct (Rlt_dec x V2) end;
    destruct (Rgt_dec V2 b);
    (split; [tauto|]); (split; [lra|]); intros W [ -> | [ -> | -> ] ] HW; lra.
Qed.




Lemma mixture_b_run (bs zs : list R) :
  (length bs <= length zs)%nat ->
  for_range 0 (length bs) (fun i b =>
    b_i ← getitem bs i;
    zi ← getitem zs i;
    Ok (b + b_i * zi)) 0 = Ok (mixture_b bs zs).
Proof.
  intros Hlen.
  match goal with |- context [for_range 0 ?n ?body ?s] =>
    pose proof (for_range_inv
      (fun i b => b = Rsum i (fun p => item bs p * item zs p))
      body 0 n s) as Hloop
  end.
  destruct Hloop as (b & Hst & Hb).
  - lia.
  - done.
  - intros i b Hi ->. py_run. eexists; split; [reflexivity|]. done.
  - rewrite Hst. by subst b.
Qed.

Section RootSelection.
Variable R_gas : R.
Variable volume_solutions_halley : R -> R -> R -> R -> R -> R -> result (R * R * R).

Lemma PR_lnphis_fastest_run (zs : list R) (T P : R) (kijs : list (list R))
    (l g : bool) (ais bs a_alphas a_alpha_i_roots kappas : list R) (V0 V1 V2 : R) :
  length bs = length a_alphas ->
  length zs = length a_alphas ->
  length a_alpha_i_roots = length a_alphas ->
  square (length a_alphas) kijs ->
  volume_solutions_halley T P (mixture_b bs zs) (2 * mixture_b bs zs)
    (- mixture_b bs zs * mixture_b bs zs)
    (quadratic_a_alpha a_alphas a_alpha_i_roots zs kijs) = Ok (V0, V1, V2) ->
  exists a_alpha_j_rows,
    PR_lnphis_fastest R_gas volume_solutions_halley zs T P kijs l g ais bs a_alphas
      a_alpha_i_roots kappas
    = (V ← select_root l g (mixture_b bs zs) V0 V1 V2;
       Z ← py_div (P * V) (R_gas * T);
       PR_lnphis R_gas T P Z (mixture_b bs zs)
         (quadratic_a_alpha a_alphas a_alpha_i_roots zs kijs) zs bs a_alpha_j_rows).
Proof.
  intros Hbs Hzs Hroots Hsq Hsolver. unfold PR_lnphis_fastest.
  rewrite mixture_b_run, bind_Ok by lia.
  destruct (quadratic_terms_run a_alphas a_alpha_i_roots T zs kijs Hroots Hzs Hsq)
    as (rows & Hrun & _).
  fold (quadratic_a_alpha a_alphas a_alpha_i_roots zs kijs) in Hrun.
  rewrite Hrun, bind_Ok. rewrite Hsolver, bind_Ok. by exists rows.
Qed.
End RootSelection.

(** ** Properties of the Peng-Robinson routines *)

Lemma sqrt2_lt_2 : sqrt 2 < 2.
Proof.
  replace 2 with (sqrt (2 * 2)) at 2 by (apply sqrt_square; lra).
  apply sqrt_lt_1_alt. lra.
Qed.

Lemma R_CODATA_pos : 0 < R_CODATA.
Proof. unfold R_CODATA. lra. Qed.

(** C3: wherever the expression is defined (non-zero [T], [P], [b], [a_alpha],
    positive arguments of both logarithms), [PR_lnphis] returns, for each
    component i, the closed-form Peng-Robinson value
    [(b_i/b)*((Z-1)*2*sqrt(2)*B + A*ln(..))/(2*sqrt(2)*B) - ln(Z-B)
     - A*ln(..)*(2*rowsum_i)/(a_alpha*2*sqrt(2)*B)]
    with [A = a_alpha*P/(R^2*T^2)] and [B = b*P/(R*T)]. *)
Theorem C3_PR_lnphis_closed_form (R_gas T P Z b a_alpha : R)
    (zs bs a_alpha_j_rows : list R) :
  R_gas <> 0 -> T <> 0 -> P <> 0 -> b <> 0 -> a_alpha <> 0 ->
  0 < Z - PR_B R_gas T P b ->
  Z + PR_B R_gas T P b - sqrt 2 * PR_B R_gas T P b <> 0 ->
  0 < PR_log_argument Z (PR_B R_gas T P b) ->
  (length zs <= length bs)%nat ->
  (length zs <= length a_alpha_j_rows)%nat ->
  exists lnphis,
    PR_lnphis R_gas T P Z b a_alpha zs bs a_alpha_j_rows = Ok lnphis /\
    length lnphis = length zs /\
    forall i, (i < length zs)%nat ->
      lnphis !! i
      = Some (lnphi_formula R_gas T P Z b a_alpha (item bs i) (item a_alpha_j_rows i)).
Proof. intros HR. by apply PR_lnphis_run. Qed.

Lemma PR_B_unit : PR_B R_CODATA 1 1 R_CODATA = 1.
Proof. unfold PR_B. pose proof R_CODATA_pos. field. lra. Qed.

Lemma C3_PR_lnphis_closed_form_witness :
  exists lnphis,
    PR_lnphis R_CODATA 1 1 4 R_CODATA 1 [0.5; 0.5] [1; 2] [3; 4] = Ok lnphis /\
    length lnphis = 2%nat /\
    forall i, (i < 2)%nat ->
      lnphis !! i
      = Some (lnphi_formula R_CODATA 1 1 4 R_CODATA 1 (item [1; 2] i) (item [3; 4] i)).
Proof.
  pose proof R_CODATA_pos as HR. pose proof sqrt2_pos as Hs. pose proof sqrt2_lt_2 as Hs2.
  apply (C3_PR_lnphis_closed_form R_CODATA 1 1 4 R_CODATA 1 [0.5; 0.5] [1; 2] [3; 4]).
  - lra.
  - lra.
  - lra.
  - lra.
  - lra.
  - rewrite PR_B_unit. lra.
  - rewrite PR_B_unit. lra.
  - rewrite PR_B_unit. unfold PR_log_argument. apply Rdiv_lt_0_compat; lra.
  - simpl. lia.
  - simpl. lia.
Defined.

Section RootSelectionProperties.
Variable R_gas : R.
Variable volume_solutions_halley : R -> R -> R -> R -> R -> R -> result (R * R * R).

(** C5: on an otherwise valid input (lists of one length, a square [kijs], a
    solver that returns), [PR_lnphis_fastest] with neither [l] nor [g] raises
    [ValueError] and returns no vector; with [l] or [g] set the raise is not
    reached: a root is selected and the run goes on to [PR_lnphis]. *)
Theorem C5_root_must_be_specified (zs : list R) (T P : R) (kijs : list (list R))
    (l g : bool) (ais bs a_alphas a_alpha_i_roots kappas : list R) (V0 V1 V2 : R) :
  length bs = length a_alphas ->
  length zs = length a_alphas ->
  length a_alpha_i_roots = length a_alphas ->
  square (length a_alphas) kijs ->
  volume_solutions_halley T P (mixture_b bs zs) (2 * mixture_b bs zs)
    (- mixture_b bs zs * mixture_b bs zs)
    (quadratic_a_alpha a_alphas a_alpha_i_roots zs kijs) = Ok (V0, V1, V2) ->
  (l = false -> g = false ->
   PR_lnphis_fastest R_gas volume_solutions_halley zs T P kijs l g ais bs a_alphas
     a_alpha_i_roots kappas
   = Raise (ValueError "Root must be specified")) /\
  (l = true \/ g = true ->
   exists V a_alpha_j_rows,
     select_root l g (mixture_b bs zs) V0 V1 V2 = Ok V /\
     PR_lnphis_fastest R_gas volume_solutions_halley zs T P kijs l g ais bs a_alphas
       a_alpha_i_roots kappas
     = (Z ← py_div (P * V) (R_gas * T);
        PR_lnphis R_gas T P Z (mixture_b bs zs)
          (quadratic_a_alpha a_alphas a_alpha_i_roots zs kijs) zs bs a_alpha_j_rows)).
Proof.
  intros Hbs Hzs Hroots Hsq Hsolver.
  destruct (PR_lnphis_fastest_run R_gas volume_solutions_halley zs T P kijs l g ais bs
              a_alphas a_alpha_i_roots kappas V0 V1 V2 Hbs Hzs Hroots Hsq Hsolver)
    as (rows & Hrun).
  split.
  - intros -> ->. rewrite Hrun. by rewrite select_root_neither.
  - intros Hlg. exists (selected_root l (mixture_b bs zs) V0 V1 V2), rows.
    split; [by apply select_root_requested|].
    rewrite Hrun. by rewrite (select_root_requested l g _ V0 V1 V2 Hlg), bind_Ok.
Qed.

End RootSelectionProperties.


Ltac decide_real dec a b :=
  lazymatch a with
  | context [if _ then _ else _] => fail
  | _ => destruct (dec a b); try lra
  end.

Ltac decide_reals :=
  repeat match goal with
    | |- context [Req_dec_T ?a ?b] => decide_real Req_dec_T a b
    | |- context [Rgt_dec ?a ?b] => decide_real Rgt_dec a b
    | |- context [Rlt_dec ?a ?b] => decide_real Rlt_dec a b
    end.

Lemma C5_root_must_be_specified_witness :
  PR_lnphis_fastest R_CODATA (three_roots 2 3 4) [1] 1 1 [[0]] false false
    [] [1] [1] [1] []
  = Raise (ValueError "Root must be specified") /\
  exists V a_alpha_j_rows,
    select_root true false (mixture_b [1] [1]) 2 3 4 = Ok V /\
    PR_lnphis_fastest R_CODATA (three_roots 2 3 4) [1] 1 1 [[0]] true false
      [] [1] [1] [1] []
    = (Z ← py_div (1 * V) (R_CODATA * 1);
       PR_lnphis R_CODATA 1 1 Z (mixture_b [1] [1])
         (quadratic_a_alpha [1] [1] [1] [[0]]) [1] [1] a_alpha_j_rows).
Proof.
  split.
  - apply (C5_root_must_be_specified R_CODATA (three_roots 2 3 4) [1] 1 1 [[0]]
             false false [] [1] [1] [1] [] 2 3 4);
      try reflexivity. square_concrete.
  - apply (C5_root_must_be_specified R_CODATA (three_roots 2 3 4) [1] 1 1 [[0]]
             true false [] [1] [1] [1] [] 2 3 4);
      try reflexivity; [square_concrete | by left].
Defined.



(** * Further properties *)

(** ** Further properties of the root selection *)

(** X17: When a root is requested, the volume selected is always one of the
    solver's three roots; it is the first root unless a root exceeding b
    displaced it; the liquid selection never moves above the first root and
    the gas selection never below it. *)
Theorem select_root_is_a_solver_root (l g : bool) (b V0 V1 V2 : R) :
  l = true \/ g = true ->
  exists V,
    select_root l g b V0 V1 V2 = Ok V /\
    (V = V0 \/ V = V1 \/ V = V2) /\
    (V <> V0 -> V > b) /\
    (l = true -> V <= V0) /\
    (l = false -> V0 <= V).
Proof.
  intros Hlg. exists (selected_root l b V0 V1 V2).
  split; [by apply select_root_requested|].
  unfold selected_root, liquid_root, gas_root.
  destruct l; cbv zeta; decide_reals; repeat split; intros; try lra; try tauto; try congruence.
Qed.

Lemma select_root_is_a_solver_root_witness :
  exists V,
    select_root true false 1 4 3 2 = Ok V /\
    (V = 4 \/ V = 3 \/ V = 2) /\
    (V <> 4 -> V > 1) /\
    (true = true -> V <= 4) /\
    (true = false -> 4 <= V).
Proof. apply (select_root_is_a_solver_root true false 1 4 3 2). by left. Defined.

(** ** Where PR_lnphis raises *)

Lemma py_log_nonpos x :
  x <= 0 -> py_log x = Raise (ValueError "math domain error").
Proof. intros H. unfold py_log. destruct (Rlt_dec 0 x); [lra | done]. Qed.

(** X13: [PR_lnphis] at [T = 0] raises [ZeroDivisionError] (from [1.0/T]); at any
    other temperature, a compressibility factor [Z] that does not exceed
    [B = b*P/(R*T)] raises [ValueError] (from [log(Z - B)]).  Either way no
    vector is returned, whatever the composition. *)
Theorem PR_lnphis_raises (R_gas T P Z b a_alpha : R) (zs bs a_alpha_j_rows : list R) :
  R_gas <> 0 ->
  (T = 0 ->
   PR_lnphis R_gas T P Z b a_alpha zs bs a_alpha_j_rows = Raise ZeroDivisionError) /\
  (T <> 0 -> Z <= PR_B R_gas T P b ->
   PR_lnphis R_gas T P Z b a_alpha zs bs a_alpha_j_rows
   = Raise (ValueError "math domain error")).
Proof.
  intros HR. split.
  - intros ->. unfold PR_lnphis. by rewrite py_div_zero.
  - intros HT HZ. unfold PR_lnphis, R_inv.
    rewrite (py_div_nonzero 1 T HT), bind_Ok.
    assert (b * (P * (1 / T)) * (1 / R_gas) = PR_B R_gas T P b) as ->
      by (unfold PR_B; field; done).
    by rewrite py_log_nonpos by lra.
Qed.

Lemma PR_lnphis_raises_witness :
  PR_lnphis R_CODATA 0 1 4 R_CODATA 1 [0.5; 0.5] [1; 2] [3; 4]
  = Raise ZeroDivisionError /\
  PR_lnphis R_CODATA 1 1 0.5 R_CODATA 1 [0.5; 0.5] [1; 2] [3; 4]
  = Raise (ValueError "math domain error").
Proof.
  pose proof R_CODATA_pos as HR.
  split.
  - apply (PR_lnphis_raises R_CODATA 0 1 4 R_CODATA 1); [lra | reflexivity].
  - apply (PR_lnphis_raises R_CODATA 1 1 0.5 R_CODATA 1); [lra | lra |].
    rewrite PR_B_unit. lra.
Defined.

(** X14: [PR_lnphis] never returns a vector for a degenerate state: with a zero
    temperature, pressure, co-volume or attractive term, whatever the other
    arguments, the call ends in an exception (the divisions that form [t50]
    and [t51] have a zero divisor when nothing raised before them). *)
Theorem PR_lnphis_degenerate_state_raises
    (R_gas T P Z b a_alpha : R) (zs bs a_alpha_j_rows : list R) :
  T = 0 \/ P = 0 \/ b = 0 \/ a_alpha = 0 ->
  exists e, PR_lnphis R_gas T P Z b a_alpha zs bs a_alpha_j_rows = Raise e.
Proof.
  intros Hdeg. unfold PR_lnphis.
  destruct (py_div 1 T) as [T_inv|e] eqn:HT; [|by exists e]. rewrite bind_Ok. cbv zeta.
  destruct (py_log _) as [x0|e]; [|by exists e]. rewrite bind_Ok.
  match goal with |- context [py_div ?x ?y ≫= _] =>
    destruct (py_div x y) as [ratio|e]; [|by exists e] end.
  rewrite bind_Ok.
  destruct (py_log ratio) as [log_ratio|e]; [|by exists e]. rewrite bind_Ok.
  destruct Hdeg as [-> | [-> | [-> | ->]]].
  - by rewrite py_div_zero in HT.
  - exists ZeroDivisionError.
    match goal with |- py_div ?x ?y ≫= _ = _ => by rewrite (py_div_zero x y) by ring end.
  - exists ZeroDivisionError.
    match goal with |- py_div ?x ?y ≫= _ = _ => by rewrite (py_div_zero x y) by ring end.
  - exists ZeroDivisionError.
    match goal with |- py_div ?x ?y ≫= _ = _ => by rewrite (py_div_zero x y) by ring end.
Qed.

Lemma PR_lnphis_degenerate_state_raises_witness :
  exists e, PR_lnphis R_CODATA 300 1 4 0 1 [0.5; 0.5] [1; 2] [3; 4] = Raise e.
Proof.
  apply (PR_lnphis_degenerate_state_raises R_CODATA 300 1 4 0 1). right. right. by left.
Defined.

(** ** Loops that raise *)

Lemma for_each_app {S} (body : nat -> S -> result S) l1 l2 s :
  for_each body (l1 ++ l2) s = (for_each body l1 s ≫= for_each body l2).
Proof.
  revert s. induction l1 as [|i l1 IH]; intros s; simpl; [reflexivity|].
  destruct (body i s); simpl; [apply IH | reflexivity].
Qed.

(** A loop whose iterations below [k] succeed and keep [I], and whose
    iteration [k] raises [e], raises [e]. *)
Lemma for_range_raises {S} (I : nat -> S -> Prop) (body : nat -> S -> result S)
    lo k hi s e :
  (lo <= k < hi)%nat -> I lo s ->
  (forall i s, (lo <= i < k)%nat -> I i s ->
     exists s', body i s = Ok s' /\ I (Datatypes.S i) s') ->
  (forall s, I k s -> body k s = Raise e) ->
  for_range lo hi body s = Raise e.
Proof.
  intros Hk H0 Hstep Hraise. unfold for_range.
  replace (hi - lo)%nat with ((k - lo) + Datatypes.S (hi - k - 1))%nat by lia.
  rewrite seq_app, for_each_app.
  destruct (for_each_inv I body (k - lo) lo s) as (s' & -> & HI); [done | |].
  { intros i s' Hi. apply Hstep. lia. }
  rewrite bind_Ok. replace (lo + (k - lo))%nat with k in * by lia.
  cbn [seq for_each]. by rewrite (Hraise s' HI).
Qed.

Lemma getitem_ge {A} (l : list A) i :
  (length l <= i)%nat -> getitem l i = Raise IndexError.
Proof. intros H. unfold getitem. by rewrite lookup_ge_None_2. Qed.

(** ** The loop of PR_lnphis *)

Section PengRobinsonLoop.
Variable R_gas : R.
Hypothesis R_gas_nonzero : R_gas <> 0.

(** The scalar part of [PR_lnphis]: where it is defined the call comes down
    to its loop. *)
Lemma PR_lnphis_loop (T P Z b a_alpha : R) (zs bs a_alpha_j_rows : list R) :
  T <> 0 -> P <> 0 -> b <> 0 -> a_alpha <> 0 ->
  0 < Z - PR_B R_gas T P b ->
  Z + PR_B R_gas T P b - sqrt 2 * PR_B R_gas T P b <> 0 ->
  0 < PR_log_argument Z (PR_B R_gas T P b) ->
  exists x0 t50 t51,
    PR_lnphis R_gas T P Z b a_alpha zs bs a_alpha_j_rows
    = for_range 0 (length zs) (fun i lnphis =>
        b_i ← getitem bs i;
        row_i ← getitem a_alpha_j_rows i;
        setitem lnphis i (b_i * t51 - x0 - t50 * row_i))
      (zeros (length zs)).
Proof.
  intros HT HP Hb Ha HZB Hden Harg.
  pose proof sqrt2_pos as Hs2.
  assert (PR_B R_gas T P b <> 0) as HB.
  { unfold PR_B. unfold Rdiv. apply Rmult_integral_contrapositive_currified.
    - by apply Rmult_integral_contrapositive_currified.
    - apply Rinv_neq_0_compat. by apply Rmult_integral_contrapositive_currified. }
  unfold PR_lnphis, R2_inv, R_inv, root_two.
  rewrite (py_div_nonzero 1 T HT), bind_Ok.
  assert (b * (P * (1 / T)) * (1 / R_gas) = PR_B R_gas T P b) as ->
    by (unfold PR_B; field; done).
  set (B := PR_B R_gas T P b) in *.
  rewrite (py_log_pos _ HZB), bind_Ok.
  assert (Z + B - B * sqrt 2 <> 0) as Hden' by (by rewrite (Rmult_comm B)).
  rewrite (py_div_nonzero _ _ Hden'), bind_Ok.
  assert ((Z + B + B * sqrt 2) / (Z + B - B * sqrt 2) = PR_log_argument Z B) as ->.
  { unfold PR_log_argument. by rewrite (Rmult_comm B). }
  rewrite (py_log_pos _ Harg), bind_Ok.
  assert (B * sqrt 2 + B * sqrt 2 <> 0) as H2B.
  { assert (B * sqrt 2 <> 0) by (apply Rmult_integral_contrapositive_currified; lra).
    lra. }
  rewrite (py_div_nonzero _ (a_alpha * (B * sqrt 2 + B * sqrt 2))), bind_Ok
    by (by apply Rmult_integral_contrapositive_currified).
  rewrite (py_div_nonzero _ (b * (B * sqrt 2 + B * sqrt 2))), bind_Ok
    by (by apply Rmult_integral_contrapositive_currified).
  by eexists _, _, _.
Qed.
End PengRobinsonLoop.

(** X15: [PR_lnphis] reads [bs[i]] and [a_alpha_j_rows[i]] for every index of
    [zs]: where the scalar part of the expression is defined and one of the
    two lists is shorter than [zs], the call raises [IndexError] and returns
    no vector. *)
Theorem PR_lnphis_short_list_raises (R_gas T P Z b a_alpha : R)
    (zs bs a_alpha_j_rows : list R) :
  R_gas <> 0 -> T <> 0 -> P <> 0 -> b <> 0 -> a_alpha <> 0 ->
  0 < Z - PR_B R_gas T P b ->
  Z + PR_B R_gas T P b - sqrt 2 * PR_B R_gas T P b <> 0 ->
  0 < PR_log_argument Z (PR_B R_gas T P b) ->
  (length bs < length zs)%nat \/ (length a_alpha_j_rows < length zs)%nat ->
  PR_lnphis R_gas T P Z b a_alpha zs bs a_alpha_j_rows = Raise IndexError.
Proof.
  intros HR HT HP Hb Ha HZB Hden Harg Hshort.
  destruct (PR_lnphis_loop R_gas HR T P Z b a_alpha zs bs a_alpha_j_rows
              HT HP Hb Ha HZB Hden Harg) as (x0 & t50 & t51 & ->).
  apply (for_range_raises (fun _ lnphis => length lnphis = length zs) _ 0
           (min (length bs) (length a_alpha_j_rows))).
  - lia.
  - len.
  - intros i lnphis Hi Hlen. py_run. eexists; split; [reflexivity | len].
  - intros lnphis Hlen.
    destruct (decide (length bs <= length a_alpha_j_rows)%nat).
    + rewrite Nat.min_l by done. by rewrite (getitem_ge bs) by lia.
    + rewrite Nat.min_r by lia. rewrite (getitem_item bs) by lia. rewrite bind_Ok.
      by rewrite (getitem_ge a_alpha_j_rows) by lia.
Qed.

Lemma PR_lnphis_short_list_raises_witness :
  PR_lnphis R_CODATA 1 1 4 R_CODATA 1 [0.5; 0.5] [1] [3; 4] = Raise IndexError.
Proof.
  pose proof R_CODATA_pos as HR. pose proof sqrt2_pos as Hs. pose proof sqrt2_lt_2 as Hs2.
  apply (PR_lnphis_short_list_raises R_CODATA 1 1 4 R_CODATA 1 [0.5; 0.5] [1] [3; 4]).
  - lra.
  - lra.
  - lra.
  - lra.
  - lra.
  - rewrite PR_B_unit. lra.
  - rewrite PR_B_unit. lra.
  - rewrite PR_B_unit. unfold PR_log_argument. apply Rdiv_lt_0_compat; lra.
  - left. simpl. lia.
Defined.

(** ** The mole-fraction-weighted sum of the fugacity coefficients *)

(** The closed form is affine in [b_i] and in the row sum, so its weighted
    sum over a mixture is the closed form of the mixture. *)
Lemma lnphi_formula_weighted_sum (R_gas T P Z b a_alpha : R)
    (zs bs a_alpha_j_rows : list R) :
  R_gas <> 0 -> T <> 0 -> P <> 0 -> b <> 0 -> a_alpha <> 0 ->
  Rsum (length zs) (fun i => item zs i) = 1 ->
  Rsum (length zs) (fun i => item zs i * item bs i) = b ->
  Rsum (length zs) (fun i => item zs i * item a_alpha_j_rows i) = a_alpha ->
  Rsum (length zs) (fun i =>
    item zs i
    * lnphi_formula R_gas T P Z b a_alpha (item bs i) (item a_alpha_j_rows i))
  = lnphi_mixture R_gas T P Z b a_alpha.
Proof.
  intros HR HT HP Hb Ha Hz Hzb Hza.
  pose proof sqrt2_pos as Hs2.
  assert (PR_B R_gas T P b <> 0) as HB.
  { unfold PR_B. unfold Rdiv. apply Rmult_integral_contrapositive_currified.
    - by apply Rmult_integral_contrapositive_currified.
    - apply Rinv_neq_0_compat. by apply Rmult_integral_contrapositive_currified. }
  set (B := PR_B R_gas T P b) in *.
  set (A := PR_A R_gas T P a_alpha).
  set (L := ln (PR_log_argument Z B)).
  rewrite (Rsum_ext _ _ (fun i =>
     ((Z - 1) * 2 * sqrt 2 * B + A * L) / (2 * sqrt 2 * B) / b * (item zs i * item bs i)
     + (- ln (Z - B) * item zs i
        + - (A * L * 2 / (a_alpha * 2 * sqrt 2 * B))
          * (item zs i * item a_alpha_j_rows i)))).
  - rewrite !Rsum_plus, !Rsum_scal, Hzb, Hza.
    change (Rsum (length zs) (item zs)) with (Rsum (length zs) (fun i => item zs i)).
    rewrite Hz.
    unfold lnphi_mixture. fold A B L. cbv zeta. field. repeat split; try done; lra.
  - intros i Hi.
    unfold lnphi_formula. fold A B L. cbv zeta. field. repeat split; try done; lra.
Qed.

(** X16: Weighted by the mole fractions, the values [PR_lnphis] returns add up to
    the fugacity coefficient of the mixture as one fluid: for mole fractions
    that sum to 1, [b = sum_i zs[i]*bs[i]] and
    [a_alpha = sum_i zs[i]*a_alpha_j_rows[i]],
    [sum_i zs[i]*lnphis[i] = Z - 1 - ln(Z-B) - A/(2*sqrt(2)*B)*ln(..)]. *)
Theorem PR_lnphis_weighted_sum (R_gas T P Z b a_alpha : R)
    (zs bs a_alpha_j_rows : list R) :
  R_gas <> 0 -> T <> 0 -> P <> 0 -> b <> 0 -> a_alpha <> 0 ->
  0 < Z - PR_B R_gas T P b ->
  Z + PR_B R_gas T P b - sqrt 2 * PR_B R_gas T P b <> 0 ->
  0 < PR_log_argument Z (PR_B R_gas T P b) ->
  (length zs <= length bs)%nat ->
  (length zs <= length a_alpha_j_rows)%nat ->
  Rsum (length zs) (fun i => item zs i) = 1 ->
  Rsum (length zs) (fun i => item zs i * item bs i) = b ->
  Rsum (length zs) (fun i => item zs i * item a_alpha_j_rows i) = a_alpha ->
  exists lnphis,
    PR_lnphis R_gas T P Z b a_alpha zs bs a_alpha_j_rows = Ok lnphis /\
    Rsum (length zs) (fun i => item zs i * item lnphis i)
    = lnphi_mixture R_gas T P Z b a_alpha.
Proof.
  intros HR HT HP Hb Ha HZB Hden Harg Hbs Hrows Hz Hzb Hza.
  destruct (PR_lnphis_run R_gas HR T P Z b a_alpha zs bs a_alpha_j_rows
              HT HP Hb Ha HZB Hden Harg Hbs Hrows) as (lnphis & Hrun & Hlen & Hval).
  exists lnphis. split; [done|].
  rewrite <- (lnphi_formula_weighted_sum R_gas T P Z b a_alpha zs bs a_alpha_j_rows)
    by done.
  apply Rsum_ext. intros i Hi. by rewrite (item_lookup lnphis i _ (Hval i Hi)).
Qed.

Lemma PR_lnphis_weighted_sum_witness :
  exists lnphis,
    PR_lnphis R_CODATA 1 1 4 R_CODATA 3.5 [0.5; 0.5]
      [R_CODATA - 1; R_CODATA + 1] [3; 4] = Ok lnphis /\
    Rsum 2 (fun i => item [0.5; 0.5] i * item lnphis i)
    = lnphi_mixture R_CODATA 1 1 4 R_CODATA 3.5.
Proof.
  pose proof R_CODATA_pos as HR. pose proof sqrt2_pos as Hs. pose proof sqrt2_lt_2 as Hs2.
  apply (PR_lnphis_weighted_sum R_CODATA 1 1 4 R_CODATA 3.5 [0.5; 0.5]
           [R_CODATA - 1; R_CODATA + 1] [3; 4]).
  - lra.
  - lra.
  - lra.
  - lra.
  - lra.
  - rewrite PR_B_unit. lra.
  - rewrite PR_B_unit. lra.
  - rewrite PR_B_unit. unfold PR_log_argument. apply Rdiv_lt_0_compat; lra.
  - simpl. lia.
  - simpl. lia.
  - unfold item. simpl. lra.
  - unfold item. simpl. lra.
  - unfold item. simpl. lra.
Defined.

(** ** PR_lnphis_fastest from the pure-component terms to the result *)

Section FastestClosedForm.
Variable R_gas : R.
Variable volume_solutions_halley : R -> R -> R -> R -> R -> R -> result (R * R * R).

(** [PR_lnphis_fastest_run] with the row sums it hands to [PR_lnphis]. *)
Lemma PR_lnphis_fastest_rows (zs : list R) (T P : R) (kijs : list (list R))
    (l g : bool) (ais bs a_alphas a_alpha_i_roots kappas : list R) (V0 V1 V2 : R) :
  length bs = length a_alphas ->
  length zs = length a_alphas ->
  length a_alpha_i_roots = length a_alphas ->
  square (length a_alphas) kijs ->
  volume_solutions_halley T P (mixture_b bs zs) (2 * mixture_b bs zs)
    (- mixture_b bs zs * mixture_b bs zs)
    (quadratic_a_alpha a_alphas a_alpha_i_roots zs kijs) = Ok (V0, V1, V2) ->
  exists a_alpha_j_rows,
    PR_lnphis_fastest R_gas volume_solutions_halley zs T P kijs l g ais bs a_alphas
      a_alpha_i_roots kappas
    = (V ← select_root l g (mixture_b bs zs) V0 V1 V2;
       Z ← py_div (P * V) (R_gas * T);
       PR_lnphis R_gas T P Z (mixture_b bs zs)
         (quadratic_a_alpha a_alphas a_alpha_i_roots zs kijs) zs bs a_alpha_j_rows) /\
    length a_alpha_j_rows = length a_alphas /\
    forall p, (p < length a_alphas)%nat ->
      item a_alpha_j_rows p = quadratic_row a_alphas a_alpha_i_roots zs kijs p.
Proof.
  intros Hbs Hzs Hroots Hsq Hsolver. unfold PR_lnphis_fastest.
  rewrite mixture_b_run, bind_Ok by lia.
  destruct (quadratic_terms_run a_alphas a_alpha_i_roots T zs kijs Hroots Hzs Hsq)
    as (rows & Hrun & Hlen & Hrows).
  fold (quadratic_a_alpha a_alphas a_alpha_i_roots zs kijs) in Hrun.
  rewrite Hrun, bind_Ok. rewrite Hsolver, bind_Ok. by exists rows.
Qed.
End FastestClosedForm.

(** X18: From the pure-component terms to the result: for non-negative
    [a_alphas] with their roots, a symmetric [kijs], a solver that returns
    and a requested root, [PR_lnphis_fastest] returns for each component the
    closed-form Peng-Robinson value at [Z = P*V/(R*T)], [V] being the selected
    root, with [b = sum_i bs[i]*zs[i]], [a_alpha] the double sum of
    [zs[i]*zs[j]*(1-kijs[i][j])*sqrt(a_alphas[i]*a_alphas[j])] and the row sum
    [sum_j zs[j]*(1-kijs[i][j])*sqrt(a_alphas[i]*a_alphas[j])], wherever
    that expression is defined. *)
Theorem PR_lnphis_fastest_closed_form (R_gas : R)
    (volume_solutions_halley : R -> R -> R -> R -> R -> R -> result (R * R * R))
    (zs : list R) (T P : R) (kijs : list (list R))
    (l g : bool) (ais bs a_alphas a_alpha_i_roots kappas : list R) (V0 V1 V2 : R) :
  let b := mixture_b bs zs in
  let a_alpha := a_alpha_formula a_alphas zs kijs in
  let Z := P * selected_root l b V0 V1 V2 / (R_gas * T) in
  R_gas <> 0 -> T <> 0 -> P <> 0 ->
  Forall (fun a => 0 <= a) a_alphas ->
  length bs = length a_alphas ->
  length zs = length a_alphas ->
  length a_alpha_i_roots = length a_alphas ->
  (forall i, (i < length a_alphas)%nat ->
     item a_alpha_i_roots i = sqrt (item a_alphas i)) ->
  square (length a_alphas) kijs ->
  symmetric (length a_alphas) kijs ->
  volume_solutions_halley T P b (2 * b) (- b * b) a_alpha = Ok (V0, V1, V2) ->
  l = true \/ g = true ->
  b <> 0 -> a_alpha <> 0 ->
  0 < Z - PR_B R_gas T P b ->
  Z + PR_B R_gas T P b - sqrt 2 * PR_B R_gas T P b <> 0 ->
  0 < PR_log_argument Z (PR_B R_gas T P b) ->
  exists lnphis,
    PR_lnphis_fastest R_gas volume_solutions_halley zs T P kijs l g ais bs a_alphas
      a_alpha_i_roots kappas = Ok lnphis /\
    length lnphis = length zs /\
    forall i, (i < length zs)%nat ->
      lnphis !! i
      = Some (lnphi_formula R_gas T P Z b a_alpha (item bs i)
                (row_sum_formula a_alphas zs kijs i)).
Proof.
  intros b a_alpha Z HR HT HP Hpos Hbs Hzs Hrlen Hroots Hsq Hsym Hsolver Hlg
         Hb Ha HZB Hden Harg.
  assert (quadratic_a_alpha a_alphas a_alpha_i_roots zs kijs = a_alpha) as Hqa
    by apply (quadratic_a_alpha_formula _ _ _ _ Hpos Hroots Hsym).
  destruct (PR_lnphis_fastest_rows R_gas volume_solutions_halley zs T P kijs l g ais bs
              a_alphas a_alpha_i_roots kappas V0 V1 V2 Hbs Hzs Hrlen Hsq)
    as (rows & Hrun & Hlen & Hrows).
  { by rewrite Hqa. }
  rewrite Hrun, Hqa. fold b.
  rewrite (select_root_requested l g b V0 V1 V2 Hlg), bind_Ok.
  rewrite py_div_nonzero, bind_Ok by (by apply Rmult_integral_contrapositive_currified).
  fold Z.
  destruct (PR_lnphis_run R_gas HR T P Z b a_alpha zs bs rows
              HT HP Hb Ha HZB Hden Harg) as (lnphis & Hph & Hphlen & Hval); [lia | lia |].
  exists lnphis. split; [done|]. split; [done|].
  intros i Hi. rewrite (Hval i Hi). rewrite Hrows by lia.
  by rewrite (quadratic_row_formula _ _ _ _ Hpos Hroots Hsym i) by lia.
Qed.

Lemma mixture_b_pair (b0 b1 z0 z1 : R) :
  mixture_b [b0; b1] [z0; z1] = b0 * z0 + b1 * z1.
Proof. unfold mixture_b, item. simpl. lra. Qed.

Lemma mixture_b_concrete2 :
  mixture_b [0.5 * R_CODATA; 1.5 * R_CODATA] [0.5; 0.5] = R_CODATA.
Proof. rewrite mixture_b_pair. lra. Qed.

Lemma gas_root_concrete2 :
  1 * selected_root false R_CODATA (2 * R_CODATA) (4 * R_CODATA) (3 * R_CODATA)
  / (R_CODATA * 1) = 4.
Proof.
  pose proof R_CODATA_pos as HR.
  assert (selected_root false R_CODATA (2 * R_CODATA) (4 * R_CODATA) (3 * R_CODATA)
          = 4 * R_CODATA) as ->.
  { unfold selected_root, gas_root. decide_reals; try reflexivity. }
  field. lra.
Qed.

Lemma a_alpha_formula_concrete2_pos :
  0 < a_alpha_formula [4; 9] [0.5; 0.5] [[0; 0.1]; [0.1; 0]].
Proof.
  unfold a_alpha_formula, a_alpha_ij_formula, item2, item. simpl.
  pose proof (sqrt_lt_R0 (4 * 4) ltac:(lra)).
  pose proof (sqrt_lt_R0 (4 * 9) ltac:(lra)).
  pose proof (sqrt_lt_R0 (9 * 4) ltac:(lra)).
  pose proof (sqrt_lt_R0 (9 * 9) ltac:(lra)).
  nra.
Qed.

Lemma PR_lnphis_fastest_closed_form_witness :
  exists lnphis,
    PR_lnphis_fastest R_CODATA
      (three_roots (2 * R_CODATA) (4 * R_CODATA) (3 * R_CODATA))
      [0.5; 0.5] 1 1 [[0; 0.1]; [0.1; 0]] false true []
      [0.5 * R_CODATA; 1.5 * R_CODATA] [4; 9] [sqrt 4; sqrt 9] [] = Ok lnphis /\
    length lnphis = 2%nat /\
    forall i, (i < 2)%nat ->
      lnphis !! i
      = Some (lnphi_formula R_CODATA 1 1
                (1 * selected_root false
                       (mixture_b [0.5 * R_CODATA; 1.5 * R_CODATA] [0.5; 0.5])
                       (2 * R_CODATA) (4 * R_CODATA) (3 * R_CODATA)
                 / (R_CODATA * 1))
                (mixture_b [0.5 * R_CODATA; 1.5 * R_CODATA] [0.5; 0.5])
                (a_alpha_formula [4; 9] [0.5; 0.5] [[0; 0.1]; [0.1; 0]])
                (item [0.5 * R_CODATA; 1.5 * R_CODATA] i)
                (row_sum_formula [4; 9] [0.5; 0.5] [[0; 0.1]; [0.1; 0]] i)).
Proof.
  pose proof R_CODATA_pos as HR. pose proof sqrt2_pos as Hs. pose proof sqrt2_lt_2 as Hs2.
  pose proof mixture_b_concrete2 as Hb. pose proof gas_root_concrete2 as HZ.
  pose proof a_alpha_formula_concrete2_pos as Ha.
  apply (PR_lnphis_fastest_closed_form R_CODATA
           (three_roots (2 * R_CODATA) (4 * R_CODATA) (3 * R_CODATA))
           [0.5; 0.5] 1 1 [[0; 0.1]; [0.1; 0]] false true []
           [0.5 * R_CODATA; 1.5 * R_CODATA] [4; 9] [sqrt 4; sqrt 9] []
           (2 * R_CODATA) (4 * R_CODATA) (3 * R_CODATA)).
  - lra.
  - lra.
  - lra.
  - repeat constructor; lra.
  - reflexivity.
  - reflexivity.
  - reflexivity.
  - apply item_sqrt_concrete2.
  - square_concrete.
  - intros [|[|i]] [|[|j]] Hi Hj; simpl in *; try reflexivity; lia.
  - reflexivity.
  - by right.
  - rewrite Hb. lra.
  - lra.
  - rewrite Hb, HZ, PR_B_unit. lra.
  - rewrite Hb, HZ, PR_B_unit. lra.
  - rewrite Hb, HZ, PR_B_unit. unfold PR_log_argument. apply Rdiv_lt_0_compat; lra.
Defined.

(** X19: The values [PR_lnphis_fastest] returns satisfy the mixture sum rule with
    no further assumption on [kijs] or on the roots: the routine forms
    [b = sum_i bs[i]*zs[i]] and [a_alpha = sum_i a_alpha_j_rows[i]*zs[i]]
    itself, so for mole fractions that sum to 1,
    [sum_i zs[i]*lnphis[i]] is the fugacity coefficient of the mixture as one
    fluid, [Z - 1 - ln(Z-B) - A/(2*sqrt(2)*B)*ln(..)]. *)
Theorem PR_lnphis_fastest_weighted_sum (R_gas : R)
    (volume_solutions_halley : R -> R -> R -> R -> R -> R -> result (R * R * R))
    (zs : list R) (T P : R) (kijs : list (list R))
    (l g : bool) (ais bs a_alphas a_alpha_i_roots kappas : list R) (V0 V1 V2 : R) :
  let b := mixture_b bs zs in
  let a_alpha := quadratic_a_alpha a_alphas a_alpha_i_roots zs kijs in
  let Z := P * selected_root l b V0 V1 V2 / (R_gas * T) in
  R_gas <> 0 -> T <> 0 -> P <> 0 ->
  length bs = length a_alphas ->
  length zs = length a_alphas ->
  length a_alpha_i_roots = length a_alphas ->
  square (length a_alphas) kijs ->
  volume_solutions_halley T P b (2 * b) (- b * b) a_alpha = Ok (V0, V1, V2) ->
  l = true \/ g = true ->
  b <> 0 -> a_alpha <> 0 ->
  0 < Z - PR_B R_gas T P b ->
  Z + PR_B R_gas T P b - sqrt 2 * PR_B R_gas T P b <> 0 ->
  0 < PR_log_argument Z (PR_B R_gas T P b) ->
  Rsum (length zs) (fun i => item zs i) = 1 ->
  exists lnphis,
    PR_lnphis_fastest R_gas volume_solutions_halley zs T P kijs l g ais bs a_alphas
      a_alpha_i_roots kappas = Ok lnphis /\
    Rsum (length zs) (fun i => item zs i * item lnphis i)
    = lnphi_mixture R_gas T P Z b a_alpha.
Proof.
  intros b a_alpha Z HR HT HP Hbs Hzs Hrlen Hsq Hsolver Hlg Hb Ha HZB Hden Harg Hz.
  destruct (PR_lnphis_fastest_rows R_gas volume_solutions_halley zs T P kijs l g ais bs
              a_alphas a_alpha_i_roots kappas V0 V1 V2 Hbs Hzs Hrlen Hsq Hsolver)
    as (rows & Hrun & Hlen & Hrows).
  rewrite Hrun. fold b a_alpha.
  rewrite (select_root_requested l g b V0 V1 V2 Hlg), bind_Ok.
  rewrite py_div_nonzero, bind_Ok by (by apply Rmult_integral_contrapositive_currified).
  fold Z.
  destruct (PR_lnphis_run R_gas HR T P Z b a_alpha zs bs rows
              HT HP Hb Ha HZB Hden Harg) as (lnphis & Hph & Hphlen & Hval); [lia | lia |].
  exists lnphis. split; [done|].
  rewrite <- (lnphi_formula_weighted_sum R_gas T P Z b a_alpha zs bs rows); try done.
  - apply Rsum_ext. intros i Hi. by rewrite (item_lookup lnphis i _ (Hval i Hi)).
  - unfold b, mixture_b. rewrite Hbs, <- Hzs. apply Rsum_ext. intros i _. ring.
  - unfold a_alpha, quadratic_a_alpha. rewrite <- Hzs. apply Rsum_ext. intros i Hi.
    rewrite Hrows by lia. ring.
Qed.

Lemma quadratic_a_alpha_concrete2 :
  quadratic_a_alpha [4; 9] [2; 3] [0.5; 0.5] [[0; 0.1]; [0.1; 0]] = 5.95.
Proof.
  unfold quadratic_a_alpha, quadratic_row, scattered, scatter, item2, item. simpl.
  repeat case_decide; try lia. lra.
Qed.

Lemma PR_lnphis_fastest_weighted_sum_witness :
  exists lnphis,
    PR_lnphis_fastest R_CODATA
      (three_roots (2 * R_CODATA) (4 * R_CODATA) (3 * R_CODATA))
      [0.5; 0.5] 1 1 [[0; 0.1]; [0.1; 0]] false true []
      [0.5 * R_CODATA; 1.5 * R_CODATA] [4; 9] [2; 3] [] = Ok lnphis /\
    Rsum 2 (fun i => item [0.5; 0.5] i * item lnphis i)
    = lnphi_mixture R_CODATA 1 1
        (1 * selected_root false
               (mixture_b [0.5 * R_CODATA; 1.5 * R_CODATA] [0.5; 0.5])
               (2 * R_CODATA) (4 * R_CODATA) (3 * R_CODATA)
         / (R_CODATA * 1))
        (mixture_b [0.5 * R_CODATA; 1.5 * R_CODATA] [0.5; 0.5])
        (quadratic_a_alpha [4; 9] [2; 3] [0.5; 0.5] [[0; 0.1]; [0.1; 0]]).
Proof.
  pose proof R_CODATA_pos as HR. pose proof sqrt2_pos as Hs. pose proof sqrt2_lt_2 as Hs2.
  pose proof mixture_b_concrete2 as Hb. pose proof gas_root_concrete2 as HZ.
  apply (PR_lnphis_fastest_weighted_sum R_CODATA
           (three_roots (2 * R_CODATA) (4 * R_CODATA) (3 * R_CODATA))
           [0.5; 0.5] 1 1 [[0; 0.1]; [0.1; 0]] false true []
           [0.5 * R_CODATA; 1.5 * R_CODATA] [4; 9] [2; 3] []
           (2 * R_CODATA) (4 * R_CODATA) (3 * R_CODATA)).
  - lra.
  - lra.
  - lra.
  - reflexivity.
  - reflexivity.
  - reflexivity.
  - square_concrete.
  - reflexivity.
  - by right.
  - rewrite Hb. lra.
  - rewrite quadratic_a_alpha_concrete2. lra.
  - rewrite Hb, HZ, PR_B_unit. lra.
  - rewrite Hb, HZ, PR_B_unit. lra.
  - rewrite Hb, HZ, PR_B_unit. unfold PR_log_argument. apply Rdiv_lt_0_compat; lra.
  - unfold item. simpl. lra.
Defined.

(** ** Further properties of a_alpha_quadratic_terms *)

(** A list of reals is its length and its items. *)
Lemma list_item_ext (l l' : list R) :
  length l = length l' ->
  (forall p, (p < length l)%nat -> item l p = item l' p) ->
  l = l'.
Proof. intros Hlen Hitem. by apply (nth_ext l l' 0 0). Qed.

Lemma quadratic_row_lower a_alphas a_alpha_i_roots zs kijs kijs' p :
  agree_on_lower (length a_alphas) kijs kijs' -> (p < length a_alphas)%nat ->
  quadratic_row a_alphas a_alpha_i_roots zs kijs p
  = quadratic_row a_alphas a_alpha_i_roots zs kijs' p.
Proof.
  intros Hlow Hp. unfold quadratic_row, scattered.
  rewrite (Hlow p p) by lia. f_equal. f_equal.
  apply Rsum_ext. intros i Hi. apply Rsum_ext. intros j Hj.
  unfold scatter. by rewrite (Hlow i j) by lia.
Qed.

(** X8: The mixture [a_alpha] that [a_alpha_quadratic_terms] returns is the
    mole-fraction-weighted sum of the row sums it returns with it, whatever
    the values of [a_alphas], of the roots and of [kijs]; the row-sum vector
    has one entry per component. *)
Theorem a_alpha_quadratic_terms_weighted_rows
    (a_alphas a_alpha_i_roots : list R) (T : R) (zs : list R)
    (kijs : list (list R)) :
  length a_alpha_i_roots = length a_alphas ->
  length zs = length a_alphas ->
  square (length a_alphas) kijs ->
  exists a_alpha a_alpha_j_rows,
    a_alpha_quadratic_terms a_alphas a_alpha_i_roots T zs kijs
      = Ok (a_alpha, a_alpha_j_rows) /\
    length a_alpha_j_rows = length a_alphas /\
    a_alpha = Rsum (length a_alphas) (fun i => item a_alpha_j_rows i * item zs i).
Proof.
  intros Hroots Hzs Hsq.
  destruct (quadratic_terms_run a_alphas a_alpha_i_roots T zs kijs Hroots Hzs Hsq)
    as (rows & Hrun & Hlen & Hrows).
  eexists _, rows. split; [exact Hrun|]. split; [done|].
  apply Rsum_ext. intros i Hi. by rewrite Hrows.
Qed.

Lemma a_alpha_quadratic_terms_weighted_rows_witness :
  exists a_alpha a_alpha_j_rows,
    a_alpha_quadratic_terms [4; 9] [2; 3] 300 [0.25; 0.75] [[0; 0.3]; [0.1; 0]]
      = Ok (a_alpha, a_alpha_j_rows) /\
    length a_alpha_j_rows = 2%nat /\
    a_alpha = Rsum 2 (fun i => item a_alpha_j_rows i * item [0.25; 0.75] i).
Proof.
  apply (a_alpha_quadratic_terms_weighted_rows [4; 9] [2; 3] 300 [0.25; 0.75]
           [[0; 0.3]; [0.1; 0]]).
  - reflexivity.
  - reflexivity.
  - square_concrete.
Defined.

(** X9: [a_alpha_quadratic_terms] reads [kijs] on and below the diagonal only,
    and does not read [T]: two calls whose matrices agree at every [(i, j)]
    with [j <= i] return the same [a_alpha] and the same row sums, whatever
    the entries above the diagonal and the temperatures. *)
Theorem a_alpha_quadratic_terms_reads_lower_triangle
    (a_alphas a_alpha_i_roots : list R) (T T' : R) (zs : list R)
    (kijs kijs' : list (list R)) :
  length a_alpha_i_roots = length a_alphas ->
  length zs = length a_alphas ->
  square (length a_alphas) kijs ->
  square (length a_alphas) kijs' ->
  agree_on_lower (length a_alphas) kijs kijs' ->
  a_alpha_quadratic_terms a_alphas a_alpha_i_roots T zs kijs
  = a_alpha_quadratic_terms a_alphas a_alpha_i_roots T' zs kijs'.
Proof.
  intros Hroots Hzs Hsq Hsq' Hlow.
  destruct (quadratic_terms_run a_alphas a_alpha_i_roots T zs kijs Hroots Hzs Hsq)
    as (rows & -> & Hlen & Hrows).
  destruct (quadratic_terms_run a_alphas a_alpha_i_roots T' zs kijs' Hroots Hzs Hsq')
    as (rows' & -> & Hlen' & Hrows').
  f_equal. f_equal.
  - apply Rsum_ext. intros p Hp. by rewrite (quadratic_row_lower _ _ _ kijs kijs').
  - apply list_item_ext; [congruence|]. intros p Hp.
    rewrite Hrows, Hrows' by lia. apply quadratic_row_lower; [done | lia].
Qed.

Lemma a_alpha_quadratic_terms_reads_lower_triangle_witness :
  a_alpha_quadratic_terms [4; 9] [2; 3] 300 [0.25; 0.75] [[0; 0.3]; [0.1; 0]]
  = a_alpha_quadratic_terms [4; 9] [2; 3] 500 [0.25; 0.75] [[0; 0.7]; [0.1; 0]].
Proof.
  apply a_alpha_quadratic_terms_reads_lower_triangle.
  - reflexivity.
  - reflexivity.
  - square_concrete.
  - square_concrete.
  - intros [|[|i]] [|[|j]] Hij Hi; simpl in *; try reflexivity; lia.
Defined.

(** ** The shape of what the pairwise builders return *)

(** What every iteration keeps, a loop that returns keeps. *)
Lemma for_each_preserves {S} (P : S -> Prop) (body : nat -> S -> result S) l s s' :
  P s ->
  (forall i s s', P s -> body i s = Ok s' -> P s') ->
  for_each body l s = Ok s' -> P s'.
Proof.
  intros H0 Hstep. revert s H0. induction l as [|i l IH]; intros s H0; simpl.
  - by intros [= <-].
  - destruct (body i s) as [s1|] eqn:E; [|done]. rewrite bind_Ok.
    apply IH. by eapply Hstep.
Qed.

Lemma for_range_preserves {S} (P : S -> Prop) (body : nat -> S -> result S)
    lo hi s s' :
  P s ->
  (forall i s s', P s -> body i s = Ok s' -> P s') ->
  for_range lo hi body s = Ok s' -> P s'.
Proof. apply for_each_preserves. Qed.

Lemma square_zeros2 N : square N (zeros2 N).
Proof.
  split; [apply length_replicate|]. apply Forall_replicate, length_zeros.
Qed.

Lemma setitem2_square N (m m' : list (list R)) i j v :
  square N m -> setitem2 m i j v = Ok m' -> square N m'.
Proof.
  intros [Hlen Hrows]. unfold setitem2.
  destruct (getitem m i) as [row|] eqn:Hrow; [|done]. rewrite bind_Ok.
  apply getitem_Ok in Hrow. unfold setitem.
  destruct (decide (j < length row)%nat); [|done]. rewrite bind_Ok. intros [= <-].
  split; [by rewrite length_insert|].
  apply Forall_insert; [done|]. rewrite length_insert.
  by apply (Forall_lookup_1 _ _ _ _ Hrows Hrow).
Qed.

Lemma aijs_with_square recip a_alphas kijs m roots inv :
  aijs_with recip a_alphas kijs = Ok (m, roots, inv) ->
  square (length a_alphas) m /\ square (length a_alphas) inv.
Proof.
  unfold aijs_with.
  destruct (comprehension pow_half a_alphas) as [rs|]; [|done]. rewrite bind_Ok.
  set (N := length a_alphas).
  destruct (for_range 0 N _ _) as [[m1 inv1]|] eqn:Hloop; [|done].
  rewrite bind_Ok. intros [= <- _ <-].
  apply (for_range_preserves (fun st => square N st.1 /\ square N st.2)) in Hloop;
    [done | split; apply square_zeros2 |].
  clear. intros i [m inv] [m' inv'] HP.
  destruct (getitem kijs i) as [kijs_i|]; [|done]. rewrite bind_Ok.
  destruct (getitem a_alphas i) as [a_i|]; [|done]. rewrite bind_Ok.
  destruct (getitem rs i) as [r_i|]; [|done]. rewrite bind_Ok.
  apply (for_range_preserves (fun st => square N st.1 /\ square N st.2)); [done|].
  clear. intros j [m inv] [m' inv'] [Hm Hinv].
  destruct (getitem rs j) as [r_j|]; [|done]. rewrite bind_Ok. cbv zeta.
  destruct (recip _) as [t|]; [|done]. rewrite bind_Ok.
  destruct (setitem2 inv i j t) as [inv1|] eqn:E1; [|done]. rewrite bind_Ok.
  destruct (getitem kijs_i j) as [kij|]; [|done]. rewrite bind_Ok.
  destruct (setitem2 m i j _) as [m1|] eqn:E2; [|done]. rewrite bind_Ok.
  destruct (setitem2 m1 j i _) as [m2|] eqn:E3; [|done]. rewrite bind_Ok.
  intros [= <- <-]. simpl in *. split.
  - eapply setitem2_square; [|exact E3]. eapply setitem2_square; [exact Hm | exact E2].
  - eapply setitem2_square; [exact Hinv | exact E1].
Qed.

(** The entries of a square matrix determine it. *)
Lemma square_entry_ext N (m m' : list (list R)) :
  square N m -> square N m' ->
  (forall p q, (p < N)%nat -> (q < N)%nat -> entry m p q = entry m' p q) ->
  m = m'.
Proof.
  intros [Hlen Hrows] [Hlen' Hrows'] Hentry.
  apply list_eq. intros p.
  destruct (decide (p < N)%nat) as [Hp|Hp].
  - destruct (lookup_lt_is_Some_2 m p) as [row Hrow]; [lia|].
    destruct (lookup_lt_is_Some_2 m' p) as [row' Hrow']; [lia|].
    rewrite Hrow, Hrow'. f_equal.
    pose proof (Forall_lookup_1 _ _ _ _ Hrows Hrow) as Hl.
    pose proof (Forall_lookup_1 _ _ _ _ Hrows' Hrow') as Hl'.
    simpl in Hl, Hl'. apply list_eq. intros q.
    destruct (decide (q < N)%nat) as [Hq|Hq].
    + specialize (Hentry p q Hp Hq). unfold entry in Hentry.
      by rewrite Hrow, Hrow' in Hentry.
    + by rewrite !lookup_ge_None_2 by lia.
  - by rewrite !lookup_ge_None_2 by lia.
Qed.

(** X1: Both builders return square matrices of the size of [a_alphas] and one
    root per component: the pairwise matrix and the matrix of reciprocals are
    N x N, the root vector has length N. *)
Theorem pairwise_builders_return_square (a_alphas : list R) (kijs : list (list R)) :
  square (length a_alphas) kijs ->
  (Forall (fun a => 0 < a) a_alphas ->
   exists a_alpha_ijs a_alpha_i_roots a_alpha_ij_roots_inv,
     a_alpha_aijs_composition_independent a_alphas kijs
       = Ok (a_alpha_ijs, a_alpha_i_roots, a_alpha_ij_roots_inv) /\
     square (length a_alphas) a_alpha_ijs /\
     length a_alpha_i_roots = length a_alphas /\
     square (length a_alphas) a_alpha_ij_roots_inv) /\
  (Forall (fun a => 0 <= a) a_alphas ->
   exists a_alpha_ijs a_alpha_i_roots a_alpha_ij_roots_inv,
     a_alpha_aijs_composition_independent_support_zeros a_alphas kijs
       = Ok (a_alpha_ijs, a_alpha_i_roots, a_alpha_ij_roots_inv) /\
     square (length a_alphas) a_alpha_ijs /\
     length a_alpha_i_roots = length a_alphas /\
     square (length a_alphas) a_alpha_ij_roots_inv).
Proof.
  intros Hsq. split; intros Hpos.
  - destruct (aijs_plain_spec a_alphas kijs Hpos Hsq) as (m & inv & Hrun & _).
    exists m, (map sqrt a_alphas), inv. split; [done|].
    rewrite aijs_plain in Hrun. apply aijs_with_square in Hrun as [Hm Hinv].
    by rewrite length_map.
  - destruct (aijs_support_zeros_spec a_alphas kijs Hpos Hsq) as (m & inv & Hrun & _).
    exists m, (map sqrt a_alphas), inv. split; [done|].
    rewrite aijs_support_zeros in Hrun. apply aijs_with_square in Hrun as [Hm Hinv].
    by rewrite length_map.
Qed.

Lemma pairwise_builders_return_square_witness :
  (exists a_alpha_ijs a_alpha_i_roots a_alpha_ij_roots_inv,
     a_alpha_aijs_composition_independent [4; 9] [[0; 0.1]; [0.3; 0]]
       = Ok (a_alpha_ijs, a_alpha_i_roots, a_alpha_ij_roots_inv) /\
     square 2 a_alpha_ijs /\
     length a_alpha_i_roots = 2%nat /\
     square 2 a_alpha_ij_roots_inv) /\
  (exists a_alpha_ijs a_alpha_i_roots a_alpha_ij_roots_inv,
     a_alpha_aijs_composition_independent_support_zeros [0; 9] [[0; 0.1]; [0.3; 0]]
       = Ok (a_alpha_ijs, a_alpha_i_roots, a_alpha_ij_roots_inv) /\
     square 2 a_alpha_ijs /\
     length a_alpha_i_roots = 2%nat /\
     square 2 a_alpha_ij_roots_inv).
Proof.
  split.
  - apply (pairwise_builders_return_square [4; 9] [[0; 0.1]; [0.3; 0]]).
    + square_concrete.
    + repeat constructor; lra.
  - apply (pairwise_builders_return_square [0; 9] [[0; 0.1]; [0.3; 0]]).
    + square_concrete.
    + repeat constructor; lra.
Defined.

(** X2: The builders read [kijs] on and above the diagonal only: two square
    matrices that agree at every [(i, j)] with [i <= j] give the same three
    outputs, whatever their entries below the diagonal. *)
Theorem pairwise_builders_read_upper_triangle
    (a_alphas : list R) (kijs kijs' : list (list R)) :
  square (length a_alphas) kijs ->
  square (length a_alphas) kijs' ->
  agree_on_upper (length a_alphas) kijs kijs' ->
  (Forall (fun a => 0 < a) a_alphas ->
   a_alpha_aijs_composition_independent a_alphas kijs
   = a_alpha_aijs_composition_independent a_alphas kijs') /\
  (Forall (fun a => 0 <= a) a_alphas ->
   a_alpha_aijs_composition_independent_support_zeros a_alphas kijs
   = a_alpha_aijs_composition_independent_support_zeros a_alphas kijs').
Proof.
  intros Hsq Hsq' Hup. split; intros Hpos.
  - destruct (aijs_plain_spec a_alphas kijs Hpos Hsq) as (m & inv & Hrun & Hm & Hinv).
    destruct (aijs_plain_spec a_alphas kijs' Hpos Hsq') as (m' & inv' & Hrun' & Hm' & Hinv').
    rewrite Hrun, Hrun'.
    rewrite aijs_plain in Hrun, Hrun'.
    apply aijs_with_square in Hrun as [Sm Sinv].
    apply aijs_with_square in Hrun' as [Sm' Sinv'].
    f_equal. f_equal; [f_equal|].
    + apply (square_entry_ext _ _ _ Sm Sm'). intros p q Hp Hq.
      rewrite Hm, Hm' by done. by rewrite (Hup (min p q) (max p q)) by lia.
    + apply (square_entry_ext _ _ _ Sinv Sinv'). intros p q Hp Hq.
      by rewrite Hinv, Hinv' by done.
  - destruct (aijs_support_zeros_spec a_alphas kijs Hpos Hsq)
      as (m & inv & Hrun & Hm & Hinv).
    destruct (aijs_support_zeros_spec a_alphas kijs' Hpos Hsq')
      as (m' & inv' & Hrun' & Hm' & Hinv').
    rewrite Hrun, Hrun'.
    rewrite aijs_support_zeros in Hrun, Hrun'.
    apply aijs_with_square in Hrun as [Sm Sinv].
    apply aijs_with_square in Hrun' as [Sm' Sinv'].
    f_equal. f_equal; [f_equal|].
    + apply (square_entry_ext _ _ _ Sm Sm'). intros p q Hp Hq.
      rewrite Hm, Hm' by done. by rewrite (Hup (min p q) (max p q)) by lia.
    + apply (square_entry_ext _ _ _ Sinv Sinv'). intros p q Hp Hq.
      by rewrite Hinv, Hinv' by done.
Qed.

Lemma pairwise_builders_read_upper_triangle_witness :
  a_alpha_aijs_composition_independent [4; 9] [[0; 0.1]; [0.3; 0]]
  = a_alpha_aijs_composition_independent [4; 9] [[0; 0.1]; [0.7; 0]] /\
  a_alpha_aijs_composition_independent_support_zeros [0; 9] [[0; 0.1]; [0.3; 0]]
  = a_alpha_aijs_composition_independent_support_zeros [0; 9] [[0; 0.1]; [0.7; 0]].
Proof.
  assert (agree_on_upper 2 [[0; 0.1]; [0.3; 0]] [[0; 0.1]; [0.7; 0]]) as Hup.
  { intros [|[|i]] [|[|j]] Hij Hj; simpl in *; try reflexivity; lia. }
  split.
  - apply (pairwise_builders_read_upper_triangle [4; 9] [[0; 0.1]; [0.3; 0]]
             [[0; 0.1]; [0.7; 0]]); [square_concrete | square_concrete | exact Hup |].
    repeat constructor; lra.
  - apply (pairwise_builders_read_upper_triangle [0; 9] [[0; 0.1]; [0.3; 0]]
             [[0; 0.1]; [0.7; 0]]); [square_concrete | square_concrete | exact Hup |].
    repeat constructor; lra.
Defined.

(** ** The run of a_alpha_and_derivatives *)

Lemma Rsum_all_zero n f : (forall i, (i < n)%nat -> f i = 0) -> Rsum n f = 0.
Proof. intros H. rewrite (Rsum_ext n f (fun _ => 0)) by done. apply Rsum_zero. Qed.

(** The double loop over the upper triangle of a square matrix. *)
Lemma a_alpha_upper_loop N (m : list (list R)) (zs : list R) :
  square N m -> (N <= length zs)%nat ->
  for_range 0 N (fun i a_alpha =>
    a_alpha_ijs_i ← getitem m i;
    zi ← getitem zs i;
    a_alpha ←
      for_range (i + 1) N (fun j a_alpha =>
        a_alpha_ij ← getitem a_alpha_ijs_i j;
        zj ← getitem zs j;
        Ok (a_alpha + (a_alpha_ij * zi * zj + a_alpha_ij * zi * zj)))
      a_alpha;
    a_alpha_ii ← getitem a_alpha_ijs_i i;
    Ok (a_alpha + a_alpha_ii * zi * zi))
  0 = Ok (upper_triangle_sum N m zs).
Proof.
  intros Hsq Hzs. pose proof (proj1 Hsq) as Hlen.
  match goal with |- for_range 0 N ?body ?s = _ =>
    pose proof (for_range_inv
      (fun i acc =>
         acc = Rsum i (fun p =>
                 Rsum N (fun j =>
                   if decide (p < j)%nat
                   then item2 m p j * item zs p * item zs j
                        + item2 m p j * item zs p * item zs j
                   else 0)
                 + item2 m p p * item zs p * item zs p))
      body 0 N s) as Hloop
  end.
  destruct Hloop as (a & Hrun & Ha).
  - lia.
  - done.
  - intros i acc Hi ->.
    pose proof (square_row N m i Hsq ltac:(lia)) as Hrow.
    rewrite (getitem_nth (@nil R) m i) by lia. rewrite bind_Ok.
    rewrite (getitem_item zs i) by lia. rewrite bind_Ok.
    set (acc := Rsum i _).
    match goal with |- context [for_range (i + 1) N ?body ?s] =>
      pose proof (for_range_inv
        (fun j acc' =>
           acc' = acc + Rsum j (fun q =>
                          if decide (i < q)%nat
                          then item2 m i q * item zs i * item zs q
                               + item2 m i q * item zs i * item zs q
                          else 0))
        body (i + 1) N s) as Hinner
    end.
    destruct Hinner as (acc' & -> & ->).
    + lia.
    + rewrite Rsum_all_zero; [lra|]. intros q Hq. by rewrite decide_False by lia.
    + intros j acc' Hj ->.
      rewrite (getitem_item (nth i m []) j) by lia. rewrite bind_Ok.
      rewrite (getitem_item zs j) by lia. rewrite bind_Ok.
      eexists; split; [reflexivity|]. cbn [Rsum]. rewrite decide_True by lia.
      unfold item2. lra.
    + rewrite bind_Ok. rewrite (getitem_item (nth i m []) i) by lia. rewrite bind_Ok.
      eexists; split; [reflexivity|]. cbn [Rsum]. unfold acc. unfold item2. lra.
  - rewrite Hrun. by subst a.
Qed.

(** X4: With the three precomputed values supplied, [a_alpha_and_derivatives]
    does not call the builder: for any [a_alphas] (zeros included) and any
    [kijs], it returns the supplied N x N matrix itself, [None] in the place
    of the derivative, and the sum over the matrix that counts every entry
    above the diagonal twice and every diagonal entry once. *)
Theorem a_alpha_and_derivatives_precomputed
    (a_alphas : list R) (T : R) (zs : list R) (kijs : list (list R))
    (a_alpha_ijs : list (list R)) (a_alpha_i_roots : list R)
    (a_alpha_ij_roots_inv : list (list R)) :
  square (length a_alphas) a_alpha_ijs ->
  (length a_alphas <= length zs)%nat ->
  a_alpha_and_derivatives a_alphas T zs kijs
    (Some a_alpha_ijs) (Some a_alpha_i_roots) (Some a_alpha_ij_roots_inv)
  = Ok (upper_triangle_sum (length a_alphas) a_alpha_ijs zs, None, a_alpha_ijs).
Proof.
  intros Hsq Hzs. unfold a_alpha_and_derivatives. rewrite bind_Ok. cbv zeta.
  by rewrite (a_alpha_upper_loop _ _ _ Hsq Hzs), bind_Ok.
Qed.

Lemma a_alpha_and_derivatives_precomputed_witness :
  a_alpha_and_derivatives [0; 9] 300 [0.25; 0.75] []
    (Some [[1; 2]; [7; 3]]) (Some []) (Some [])
  = Ok (upper_triangle_sum 2 [[1; 2]; [7; 3]] [0.25; 0.75], None, [[1; 2]; [7; 3]]).
Proof.
  apply (a_alpha_and_derivatives_precomputed [0; 9] 300 [0.25; 0.75] []
           [[1; 2]; [7; 3]] [] []).
  - square_concrete.
  - simpl. lia.
Defined.

Lemma a_alpha_ij_built_sym a_alphas kijs i j :
  a_alpha_ij_built a_alphas kijs i j = a_alpha_ij_built a_alphas kijs j i.
Proof. unfold a_alpha_ij_built. by rewrite (Nat.min_comm i j), (Nat.max_comm i j). Qed.

(** The upper-triangle sum over the built matrix is the lower-triangle sum
    of [a_alpha_and_derivatives_full]. *)
Lemma upper_triangle_sum_built a_alphas zs kijs (m : list (list R)) :
  (forall p q, (p < length a_alphas)%nat -> (q < length a_alphas)%nat ->
     entry m p q = Some (a_alpha_ij_built a_alphas kijs p q)) ->
  upper_triangle_sum (length a_alphas) m zs = full_a_alpha a_alphas zs kijs.
Proof.
  intros Hm. unfold upper_triangle_sum, full_a_alpha.
  set (N := length a_alphas) in *.
  set (F := fun i j : nat =>
    a_alpha_ij_built a_alphas kijs i j * item zs i * item zs j
    + a_alpha_ij_built a_alphas kijs i j * item zs i * item zs j).
  rewrite (Rsum_ext N _ (fun i =>
             Rsum N (fun j => if decide (i < j)%nat then F i j else 0)
             + a_alpha_ij_built a_alphas kijs i i * item zs i * item zs i)).
  2:{ intros i Hi. f_equal.
      - apply Rsum_ext. intros j Hj. case_decide; [|done].
        unfold F. by rewrite (item2_entry m i j _ (Hm i j Hi Hj)).
      - by rewrite (item2_entry m i i _ (Hm i i Hi Hi)). }
  rewrite Rsum_plus, (Rsum_triangle N F), <- Rsum_plus.
  apply Rsum_ext. intros i Hi. f_equal; [|ring].
  apply Rsum_ext. intros j Hj. unfold F.
  rewrite (a_alpha_ij_built_sym a_alphas kijs j i). ring.
Qed.

(** X5: Over the reals, [a_alpha_and_derivatives] called without precomputed
    values returns the builder's pairwise matrix and a mixture [a_alpha]
    equal to that of [a_alpha_and_derivatives_full], for every square [kijs]
    (symmetric or not): the one sums the matrix above the diagonal, the other
    below it, and the matrix is symmetric.  The two sums add in different
    orders: the equality is one of real numbers, and nothing is stated of
    the rounded floats. *)
Theorem a_alpha_and_derivatives_agrees_with_full
    (a_alphas da_alpha_dTs d2a_alpha_dT2s : list R) (T : R) (zs : list R)
    (kijs : list (list R)) (second_derivative : bool) :
  Forall (fun a => 0 < a) a_alphas ->
  length da_alpha_dTs = length a_alphas ->
  length d2a_alpha_dT2s = length a_alphas ->
  length zs = length a_alphas ->
  square (length a_alphas) kijs ->
  exists a_alpha a_alpha_ijs a_alpha_i_roots a_alpha_ij_roots_inv
         da_alpha_dT d2a_alpha_dT2 d2a_alpha_dT2_ijs da_alpha_dT_ijs a_alpha_ijs',
    a_alpha_aijs_composition_independent a_alphas kijs
      = Ok (a_alpha_ijs, a_alpha_i_roots, a_alpha_ij_roots_inv) /\
    a_alpha_and_derivatives a_alphas T zs kijs None None None
      = Ok (a_alpha, None, a_alpha_ijs) /\
    a_alpha_and_derivatives_full a_alphas da_alpha_dTs d2a_alpha_dT2s T zs kijs
      None None None second_derivative
      = Ok (a_alpha, da_alpha_dT, d2a_alpha_dT2,
            d2a_alpha_dT2_ijs, da_alpha_dT_ijs, a_alpha_ijs').
Proof.
  intros Hpos Hda Hd2 Hzs Hsq.
  destruct (aijs_plain_spec a_alphas kijs Hpos Hsq) as (m & inv & Hrun & Hm & _).
  destruct (full_run a_alphas da_alpha_dTs d2a_alpha_dT2s T zs kijs second_derivative
              Hpos Hda Hd2 Hzs Hsq) as (d2m & dam & m' & Hfull).
  eexists _, m, _, inv, _, _, d2m, dam, m'.
  split; [exact Hrun|]. split; [|exact Hfull].
  unfold a_alpha_and_derivatives. rewrite Hrun, bind_Ok. cbv zeta.
  pose proof Hrun as Hshape. rewrite aijs_plain in Hshape.
  apply aijs_with_square in Hshape as [Sm _].
  rewrite (a_alpha_upper_loop _ _ _ Sm) by lia. rewrite bind_Ok.
  by rewrite (upper_triangle_sum_built a_alphas zs kijs m Hm).
Qed.

Lemma a_alpha_and_derivatives_agrees_with_full_witness :
  exists a_alpha a_alpha_ijs a_alpha_i_roots a_alpha_ij_roots_inv
         da_alpha_dT d2a_alpha_dT2 d2a_alpha_dT2_ijs da_alpha_dT_ijs a_alpha_ijs',
    a_alpha_aijs_composition_independent [4; 9] [[0; 0.1]; [0.3; 0]]
      = Ok (a_alpha_ijs, a_alpha_i_roots, a_alpha_ij_roots_inv) /\
    a_alpha_and_derivatives [4; 9] 300 [0.25; 0.75] [[0; 0.1]; [0.3; 0]] None None None
      = Ok (a_alpha, None, a_alpha_ijs) /\
    a_alpha_and_derivatives_full [4; 9] [0.5; 0.25] [0.5; 0.25] 300 [0.25; 0.75]
      [[0; 0.1]; [0.3; 0]] None None None true
      = Ok (a_alpha, da_alpha_dT, d2a_alpha_dT2,
            d2a_alpha_dT2_ijs, da_alpha_dT_ijs, a_alpha_ijs').
Proof.
  apply (a_alpha_and_derivatives_agrees_with_full [4; 9] [0.5; 0.25] [0.5; 0.25] 300
           [0.25; 0.75] [[0; 0.1]; [0.3; 0]] true).
  - repeat constructor; lra.
  - reflexivity.
  - reflexivity.
  - reflexivity.
  - square_concrete.
Defined.

(** ** The double sum, by triangles *)

Lemma a_alpha_ij_formula_sym a_alphas kijs i j :
  symmetric (length a_alphas) kijs ->
  (i < length a_alphas)%nat -> (j < length a_alphas)%nat ->
  a_alpha_ij_formula a_alphas kijs i j = a_alpha_ij_formula a_alphas kijs j i.
Proof.
  intros Hsym Hi Hj. unfold a_alpha_ij_formula.
  by rewrite (Hsym i j Hi Hj), (Rmult_comm (item a_alphas i)).
Qed.

(** A symmetric double sum is its diagonal plus twice what lies below it. *)
Lemma Rsum_symmetric n (G : nat -> nat -> R) :
  (forall i j, (i < n)%nat -> (j < n)%nat -> G i j = G j i) ->
  Rsum n (fun i => Rsum n (fun j => G i j))
  = Rsum n (fun i => Rsum i (fun j => G i j + G i j) + G i i).
Proof.
  intros Hsym.
  rewrite (Rsum_ext n _ (fun i =>
             (Rsum i (fun j => G i j) + G i i)
             + Rsum n (fun j => if decide (i < j)%nat then G i j else 0))).
  2:{ intros i Hi. rewrite (Rsum_split3 n i (fun j => G i j)).
      rewrite (Rsum_below n i (fun j => G i j)) by lia.
      rewrite (Rsum_only n i (fun j => G i j)). by rewrite decide_True. }
  rewrite Rsum_plus, (Rsum_triangle n G), <- Rsum_plus.
  apply Rsum_ext. intros i Hi. rewrite Rsum_plus.
  rewrite (Rsum_ext i (fun j => G j i) (fun j => G i j))
    by (intros j Hj; apply Hsym; lia).
  change (Rsum i (fun j => G i j)) with (Rsum i (G i)). lra.
Qed.

Lemma full_a_alpha_formula a_alphas zs kijs :
  Forall (fun a => 0 <= a) a_alphas ->
  symmetric (length a_alphas) kijs ->
  full_a_alpha a_alphas zs kijs = a_alpha_formula a_alphas zs kijs.
Proof.
  intros Hpos Hsym. unfold full_a_alpha, a_alpha_formula.
  set (N := length a_alphas) in *.
  rewrite (Rsum_symmetric N
             (fun i j => item zs i * item zs j * a_alpha_ij_formula a_alphas kijs i j)).
  2:{ intros i j Hi Hj. rewrite (a_alpha_ij_formula_sym a_alphas kijs i j Hsym Hi Hj).
      ring. }
  apply Rsum_ext. intros i Hi. f_equal.
  - apply Rsum_ext. intros j Hj. unfold a_alpha_ij_built.
    rewrite (a_alpha_ij_formula_upper a_alphas kijs i j Hpos Hsym) by (unfold N in *; lia).
    ring.
  - unfold a_alpha_ij_built.
    rewrite (a_alpha_ij_formula_upper a_alphas kijs i i Hpos Hsym) by done.
    ring.
Qed.

(** X6: Over the reals, for a symmetric [kijs] (its diagonal need not be zero)
    the routine that sums the pairwise matrix and the routine that never
    builds it return equal mixture [a_alpha]: the value
    [a_alpha_and_derivatives] and [a_alpha_quadratic_terms] return is, as a
    real number, the double sum over all ordered pairs of
    [zs[i]*zs[j]*(1-kijs[i][j])*sqrt(a_alphas[i]*a_alphas[j])]. *)
Theorem a_alpha_matrix_and_quadratic_routines_agree
    (a_alphas a_alpha_i_roots : list R) (T : R) (zs : list R)
    (kijs : list (list R)) :
  Forall (fun a => 0 < a) a_alphas ->
  length a_alpha_i_roots = length a_alphas ->
  (forall i, (i < length a_alphas)%nat ->
     item a_alpha_i_roots i = sqrt (item a_alphas i)) ->
  length zs = length a_alphas ->
  square (length a_alphas) kijs ->
  symmetric (length a_alphas) kijs ->
  exists a_alpha_ijs a_alpha_j_rows,
    a_alpha_and_derivatives a_alphas T zs kijs None None None
      = Ok (a_alpha_formula a_alphas zs kijs, None, a_alpha_ijs) /\
    a_alpha_quadratic_terms a_alphas a_alpha_i_roots T zs kijs
      = Ok (a_alpha_formula a_alphas zs kijs, a_alpha_j_rows).
Proof.
  intros Hpos Hrlen Hroots Hzs Hsq Hsym.
  pose proof (Forall_pos_nonneg _ Hpos) as Hnonneg.
  destruct (aijs_plain_spec a_alphas kijs Hpos Hsq) as (m & inv & Hrun & Hm & _).
  destruct (quadratic_terms_run a_alphas a_alpha_i_roots T zs kijs Hrlen Hzs Hsq)
    as (rows & Hquad & _).
  exists m, rows. split.
  - unfold a_alpha_and_derivatives. rewrite Hrun, bind_Ok. cbv zeta.
    pose proof Hrun as Hshape. rewrite aijs_plain in Hshape.
    apply aijs_with_square in Hshape as [Sm _].
    rewrite (a_alpha_upper_loop _ _ _ Sm) by lia. rewrite bind_Ok.
    rewrite (upper_triangle_sum_built a_alphas zs kijs m Hm).
    by rewrite (full_a_alpha_formula a_alphas zs kijs Hnonneg Hsym).
  - rewrite Hquad.
    by rewrite (quadratic_a_alpha_formula _ _ _ _ Hnonneg Hroots Hsym).
Qed.

Lemma a_alpha_matrix_and_quadratic_routines_agree_witness :
  exists a_alpha_ijs a_alpha_j_rows,
    a_alpha_and_derivatives [4; 9] 300 [0.25; 0.75] [[0.2; 0.1]; [0.1; 0.3]]
      None None None
      = Ok (a_alpha_formula [4; 9] [0.25; 0.75] [[0.2; 0.1]; [0.1; 0.3]], None,
            a_alpha_ijs) /\
    a_alpha_quadratic_terms [4; 9] [sqrt 4; sqrt 9] 300 [0.25; 0.75]
      [[0.2; 0.1]; [0.1; 0.3]]
      = Ok (a_alpha_formula [4; 9] [0.25; 0.75] [[0.2; 0.1]; [0.1; 0.3]],
            a_alpha_j_rows).
Proof.
  apply a_alpha_matrix_and_quadratic_routines_agree.
  - repeat constructor; lra.
  - reflexivity.
  - apply item_sqrt_concrete2.
  - reflexivity.
  - square_concrete.
  - intros [|[|i]] [|[|j]] Hi Hj; simpl in *; try reflexivity; lia.
Defined.

(** ** A mixture without co-volume *)

Lemma mixture_b_loop_raises (bs zs : list R) :
  (length zs < length bs)%nat ->
  for_range 0 (length bs) (fun i b =>
    b_i ← getitem bs i;
    zi ← getitem zs i;
    Ok (b + b_i * zi)) 0 = Raise IndexError.
Proof.
  intros Hlen.
  apply (for_range_raises (fun _ _ => True) _ 0 (length zs)); [lia | done | |].
  - intros i b Hi _. py_run. by eexists.
  - intros b _. rewrite (getitem_item bs) by lia. rewrite bind_Ok.
    by rewrite (getitem_ge zs) by lia.
Qed.

Lemma PR_lnphis_zero_covolume (R_gas T P Z a_alpha : R) (zs bs a_alpha_j_rows : list R) :
  exists e, PR_lnphis R_gas T P Z 0 a_alpha zs bs a_alpha_j_rows = Raise e.
Proof.
  unfold PR_lnphis.
  destruct (py_div 1 T) as [T_inv|e]; [|by exists e]. rewrite bind_Ok. cbv zeta.
  destruct (py_log _) as [x0|e]; [|by exists e]. rewrite bind_Ok.
  match goal with |- context [py_div ?x ?y ≫= _] =>
    destruct (py_div x y) as [ratio|e]; [|by exists e] end.
  rewrite bind_Ok.
  destruct (py_log ratio) as [log_ratio|e]; [|by exists e]. rewrite bind_Ok.
  exists ZeroDivisionError.
  match goal with |- py_div ?x ?y ≫= _ = _ => by rewrite (py_div_zero x y) by ring end.
Qed.

(** X20: [PR_lnphis_fastest] never returns a vector for a mixture whose
    co-volume [sum_i bs[i]*zs[i]] is zero (an empty mixture, or co-volumes
    that are all zero): whatever the solver returns and whichever root is
    requested, the call ends in an exception. *)
Theorem PR_lnphis_fastest_zero_covolume_raises (R_gas : R)
    (volume_solutions_halley : R -> R -> R -> R -> R -> R -> result (R * R * R))
    (zs : list R) (T P : R) (kijs : list (list R)) (l g : bool)
    (ais bs a_alphas a_alpha_i_roots kappas : list R) :
  mixture_b bs zs = 0 ->
  exists e,
    PR_lnphis_fastest R_gas volume_solutions_halley zs T P kijs l g ais bs a_alphas
      a_alpha_i_roots kappas = Raise e.
Proof.
  intros Hb. unfold PR_lnphis_fastest.
  destruct (decide (length bs <= length zs)%nat) as [Hlen|Hlen].
  - rewrite (mixture_b_run bs zs Hlen), bind_Ok, Hb. cbv zeta.
    destruct (a_alpha_quadratic_terms _ _ _ _ _) as [[a_alpha rows]|e]; [|by exists e].
    rewrite bind_Ok.
    destruct (volume_solutions_halley _ _ _ _ _ _) as [[[V0 V1] V2]|e]; [|by exists e].
    rewrite bind_Ok.
    destruct (select_root _ _ _ _ _ _) as [V|e]; [|by exists e]. rewrite bind_Ok.
    destruct (py_div _ _) as [Z|e]; [|by exists e]. rewrite bind_Ok.
    apply PR_lnphis_zero_covolume.
  - exists IndexError. by rewrite mixture_b_loop_raises by lia.
Qed.

Lemma PR_lnphis_fastest_zero_covolume_raises_witness :
  exists e,
    PR_lnphis_fastest R_CODATA (three_roots 2 3 4) [0.5; 0.5] 300 1
      [[0; 0]; [0; 0]] true false [] [0; 0] [4; 9] [2; 3] [] = Raise e.
Proof.
  apply PR_lnphis_fastest_zero_covolume_raises.
  unfold mixture_b, item. simpl. lra.
Defined.

(** ** The second_derivative flag of a_alpha_and_derivatives_full *)

(** Steps through the binds of a body that returned. *)
Ltac bind_inv :=
  repeat match goal with
    | |- (?c ≫= _) = Ok _ -> _ =>
        lazymatch c with
        | _ ≫= _ => fail
        | match _ with _ => _ end => fail
        | _ => let x := fresh "x" in destruct c as [x|]; [rewrite bind_Ok | done]
        end
    end.

(** The loop of [a_alpha_and_derivatives_full] leaves the matrix of second
    derivatives absent if it was absent, present if it was present. *)
Lemma full_keeps_matrix_slot
    (Q : option (list (list R)) -> Prop)
    (body : nat -> R * R * list (list R) * option (list (list R))
            -> result (R * R * list (list R) * option (list (list R))))
    lo hi s s' :
  Q s.2 ->
  (forall i s s', Q s.2 -> body i s = Ok s' -> Q s'.2) ->
  for_range lo hi body s = Ok s' -> Q s'.2.
Proof. intros H0 Hstep. by apply (for_range_preserves (fun st => Q st.2)). Qed.

Lemma full_matrix_slot (a_alphas da_alpha_dTs d2a_alpha_dT2s : list R) (T : R)
    (zs : list R) (kijs : list (list R)) (second_derivative : bool)
    a da d2 d2m dam m :
  a_alpha_and_derivatives_full a_alphas da_alpha_dTs d2a_alpha_dT2s T zs kijs
    None None None second_derivative = Ok (a, da, d2, d2m, dam, m) ->
  if second_derivative then is_Some d2m else d2m = None.
Proof.
  unfold a_alpha_and_derivatives_full.
  destruct (a_alpha_aijs_composition_independent a_alphas kijs)
    as [[[m0 r0] inv0]|]; [|done]. rewrite bind_Ok.
  destruct (comprehension _ _) as [zp|]; [|done]. rewrite bind_Ok.
  destruct (for_range 0 (length a_alphas) _ 0) as [a0|]; [|done]. rewrite bind_Ok.
  cbv zeta.
  match goal with |- (for_range 0 ?N ?body ?s ≫= _) = _ -> _ =>
    destruct (for_range 0 N body s) as [[[[da1 d21] dam1] d2m1]|] eqn:Hloop; [|done]
  end.
  rewrite bind_Ok. intros [= _ _ _ <- _ _].
  set (Q := fun o : option (list (list R)) =>
              if second_derivative then is_Some o else o = None).
  change (Q d2m1). change d2m1 with (da1, d21, dam1, d2m1).2.
  eapply full_keeps_matrix_slot; [| |exact Hloop].
  - unfold Q. simpl. by destruct second_derivative.
  - clear. intros i st st' HQ. cbv beta. bind_inv.
    apply (for_each_preserves (fun st => Q st.2)); [done|].
    clear. intros j [[[da d2] dam] d2m] st' HQ. simpl in HQ.
    destruct (j <? i)%nat; [by intros [= <-]|].
    bind_inv. cbv zeta.
    destruct d2m as [d2m|].
    + destruct (setitem2 d2m i j _) as [m1|]; [|done]. rewrite bind_Ok.
      destruct (setitem2 m1 j i _) as [m2|]; [|done]. rewrite !bind_Ok.
      case_decide; intros [= <-]; simpl;
        unfold Q in *; by destruct second_derivative.
    + rewrite bind_Ok. case_decide; intros [= <-]; simpl;
        unfold Q in *; by destruct second_derivative.
Qed.

(** X7: The flag [second_derivative] of [a_alpha_and_derivatives_full] decides
    only whether the matrix of pair second derivatives is returned: the totals
    [a_alpha], [da_alpha_dT] and [d2a_alpha_dT2] are the same with and without
    it; without it no matrix is returned, with it one is. *)
Theorem a_alpha_and_derivatives_full_flag
    (a_alphas da_alpha_dTs d2a_alpha_dT2s : list R) (T : R) (zs : list R)
    (kijs : list (list R)) :
  Forall (fun a => 0 < a) a_alphas ->
  length da_alpha_dTs = length a_alphas ->
  length d2a_alpha_dT2s = length a_alphas ->
  length zs = length a_alphas ->
  square (length a_alphas) kijs ->
  exists a_alpha da_alpha_dT d2a_alpha_dT2 d2a_alpha_dT2_ijs
         da_alpha_dT_ijs a_alpha_ijs da_alpha_dT_ijs' a_alpha_ijs',
    a_alpha_and_derivatives_full a_alphas da_alpha_dTs d2a_alpha_dT2s T zs kijs
      None None None false
    = Ok (a_alpha, da_alpha_dT, d2a_alpha_dT2, None, da_alpha_dT_ijs, a_alpha_ijs) /\
    a_alpha_and_derivatives_full a_alphas da_alpha_dTs d2a_alpha_dT2s T zs kijs
      None None None true
    = Ok (a_alpha, da_alpha_dT, d2a_alpha_dT2, Some d2a_alpha_dT2_ijs,
          da_alpha_dT_ijs', a_alpha_ijs').
Proof.
  intros Hpos Hda Hd2 Hzs Hsq.
  destruct (full_run a_alphas da_alpha_dTs d2a_alpha_dT2s T zs kijs false
              Hpos Hda Hd2 Hzs Hsq) as (d2m & dam & m & Hfalse).
  destruct (full_run a_alphas da_alpha_dTs d2a_alpha_dT2s T zs kijs true
              Hpos Hda Hd2 Hzs Hsq) as (d2m' & dam' & m' & Htrue).
  pose proof (full_matrix_slot _ _ _ _ _ _ _ _ _ _ _ _ _ Hfalse) as Hnone.
  pose proof (full_matrix_slot _ _ _ _ _ _ _ _ _ _ _ _ _ Htrue) as [d Hsome].
  simpl in Hnone. subst d2m d2m'.
  by eexists _, _, _, d, dam, m, dam', m'.
Qed.

Lemma a_alpha_and_derivatives_full_flag_witness :
  exists a_alpha da_alpha_dT d2a_alpha_dT2 d2a_alpha_dT2_ijs
         da_alpha_dT_ijs a_alpha_ijs da_alpha_dT_ijs' a_alpha_ijs',
    a_alpha_and_derivatives_full [4; 9] [0.5; 0.25] [0.5; 0.25] 300 [0.25; 0.75]
      [[0; 0.1]; [0.3; 0]] None None None false
    = Ok (a_alpha, da_alpha_dT, d2a_alpha_dT2, None, da_alpha_dT_ijs, a_alpha_ijs) /\
    a_alpha_and_derivatives_full [4; 9] [0.5; 0.25] [0.5; 0.25] 300 [0.25; 0.75]
      [[0; 0.1]; [0.3; 0]] None None None true
    = Ok (a_alpha, da_alpha_dT, d2a_alpha_dT2, Some d2a_alpha_dT2_ijs,
          da_alpha_dT_ijs', a_alpha_ijs').
Proof.
  apply (a_alpha_and_derivatives_full_flag [4; 9] [0.5; 0.25] [0.5; 0.25] 300
           [0.25; 0.75] [[0; 0.1]; [0.3; 0]]).
  - repeat constructor; lra.
  - reflexivity.
  - reflexivity.
  - reflexivity.
  - square_concrete.
Defined.

(** ** A kijs with too few rows *)

Lemma rows_length N (kijs : list (list R)) i :
  Forall (fun row => length row = N) kijs -> (i < length kijs)%nat ->
  length (nth i kijs []) = N.
Proof.
  intros Hrows Hi. destruct (lookup_lt_is_Some_2 kijs i Hi) as [row Hrow].
  rewrite (nth_lookup_Some _ _ [] _ Hrow).
  exact (Forall_lookup_1 _ _ _ _ Hrows Hrow).
Qed.

(** X10: [a_alpha_quadratic_terms] reads one row of [kijs] per component: a
    matrix with fewer rows than there are components (its rows being full)
    raises [IndexError], and neither [a_alpha] nor row sums are returned. *)
Theorem a_alpha_quadratic_terms_missing_row
    (a_alphas a_alpha_i_roots : list R) (T : R) (zs : list R)
    (kijs : list (list R)) :
  length a_alpha_i_roots = length a_alphas ->
  length zs = length a_alphas ->
  (length kijs < length a_alphas)%nat ->
  Forall (fun row => length row = length a_alphas) kijs ->
  a_alpha_quadratic_terms a_alphas a_alpha_i_roots T zs kijs = Raise IndexError.
Proof.
  intros Hroots Hzs Hshort Hrows. unfold a_alpha_quadratic_terms.
  destruct (quadratic_things0 a_alphas a_alpha_i_roots zs Hroots Hzs)
    as (things0 & -> & Hlen0 & _).
  rewrite bind_Ok. cbv zeta.
  set (N := length a_alphas) in *.
  match goal with |- (for_range 0 N ?body ?s ≫= _) = _ =>
    rewrite (for_range_raises (fun _ rows => length rows = N) body 0 (length kijs) N s
               IndexError)
  end; [done | lia | len | |].
  - intros i rows Hi Hlen.
    pose proof (rows_length N kijs i Hrows ltac:(lia)) as Hrow.
    rewrite (getitem_nth (@nil R) kijs i) by lia. rewrite bind_Ok.
    match goal with |- context [for_range 0 i ?body ?s] =>
      pose proof (for_range_inv (fun _ rows => length rows = N) body 0 i s) as Hinner
    end.
    destruct Hinner as (rows' & -> & Hlen'); [lia | done | | by exists rows'].
    intros j rows1 Hj Hlen1. py_run. eexists; split; [reflexivity | len].
  - intros rows Hlen. by rewrite (getitem_ge kijs) by lia.
Qed.

Lemma a_alpha_quadratic_terms_missing_row_witness :
  a_alpha_quadratic_terms [4; 9] [2; 3] 300 [0.25; 0.75] [[0; 0.1]]
  = Raise IndexError.
Proof.
  apply a_alpha_quadratic_terms_missing_row.
  - reflexivity.
  - reflexivity.
  - simpl. lia.
  - repeat constructor.
Defined.

Lemma setitem2_square_Ok N (m : list (list R)) i j v :
  square N m -> (i < N)%nat -> (j < N)%nat ->
  exists m', setitem2 m i j v = Ok m' /\ square N m'.
Proof.
  intros Hsq Hi Hj. pose proof (square_row N m i Hsq Hi) as Hrow.
  pose proof (proj1 Hsq) as Hlen.
  assert (setitem2 m i j v = Ok (<[i := <[j := v]> (nth i m [])]> m)) as E.
  { unfold setitem2. rewrite (getitem_nth (@nil R) m i) by lia. rewrite bind_Ok.
    by rewrite setitem_lt by lia. }
  eexists; split; [exact E|]. by apply (setitem2_square N m _ i j v).
Qed.

Lemma item_map_sqrt (a_alphas : list R) i :
  (i < length a_alphas)%nat -> item (map sqrt a_alphas) i = sqrt (item a_alphas i).
Proof.
  intros Hi. apply item_lookup.
  change (map sqrt a_alphas) with (sqrt <$> a_alphas).
  by rewrite list_lookup_fmap, (item_lt_lookup a_alphas i Hi).
Qed.

Lemma aijs_with_missing_row recip a_alphas kijs :
  Forall (fun a => 0 <= a) a_alphas ->
  (forall i j, (i < length a_alphas)%nat -> (j < length a_alphas)%nat ->
     exists r, recip (sqrt (item a_alphas i) * sqrt (item a_alphas j)) = Ok r) ->
  (length kijs < length a_alphas)%nat ->
  Forall (fun row => length row = length a_alphas) kijs ->
  aijs_with recip a_alphas kijs = Raise IndexError.
Proof.
  intros Hpos Hrecip Hshort Hrows. unfold aijs_with.
  rewrite (comprehension_pow_half a_alphas Hpos), bind_Ok.
  set (N := length a_alphas) in *.
  assert (length (map sqrt a_alphas) = N) as Hrlen by apply length_map.
  match goal with |- (for_range 0 N ?body ?s ≫= _) = _ =>
    rewrite (for_range_raises (fun _ st => square N st.1 /\ square N st.2)
               body 0 (length kijs) N s IndexError)
  end; [done | lia | split; apply square_zeros2 | |].
  - intros i [m inv] Hi HI. cbv beta iota.
    pose proof (rows_length N kijs i Hrows ltac:(lia)) as Hrow.
    rewrite (getitem_nth (@nil R) kijs i) by lia. rewrite bind_Ok.
    rewrite (getitem_item a_alphas i) by (unfold N in *; lia). rewrite bind_Ok.
    rewrite (getitem_item (map sqrt a_alphas) i) by lia. rewrite bind_Ok.
    apply (for_range_inv (fun _ st => square N st.1 /\ square N st.2)); [lia | done |].
    intros j [m1 inv1] Hj [Hm1 Hinv1]. simpl in Hm1, Hinv1. cbv beta iota.
    rewrite (getitem_item (map sqrt a_alphas) j) by lia. rewrite bind_Ok. cbv zeta.
    rewrite !item_map_sqrt by (unfold N in *; lia).
    destruct (Hrecip i j) as [r ->]; [unfold N in *; lia.. |]. rewrite bind_Ok.
    destruct (setitem2_square_Ok N inv1 i j r Hinv1) as (inv2 & -> & Hinv2); [lia..|].
    rewrite bind_Ok.
    rewrite (getitem_item (nth i kijs []) j) by lia. rewrite bind_Ok.
    match goal with |- context [setitem2 m1 i j ?v] =>
      destruct (setitem2_square_Ok N m1 i j v Hm1) as (m2 & -> & Hm2); [lia..|];
      rewrite bind_Ok;
      destruct (setitem2_square_Ok N m2 j i v Hm2) as (m3 & -> & Hm3); [lia..|]
    end.
    rewrite bind_Ok. by eexists.
  - intros [m inv] _. cbv beta iota. by rewrite (getitem_ge kijs) by lia.
Qed.

(** X3: Both builders read one row of [kijs] per component: a matrix with fewer
    rows than there are components (its rows being full) raises
    [IndexError], and nothing is returned. *)
Theorem pairwise_builders_missing_row (a_alphas : list R) (kijs : list (list R)) :
  (length kijs < length a_alphas)%nat ->
  Forall (fun row => length row = length a_alphas) kijs ->
  (Forall (fun a => 0 < a) a_alphas ->
   a_alpha_aijs_composition_independent a_alphas kijs = Raise IndexError) /\
  (Forall (fun a => 0 <= a) a_alphas ->
   a_alpha_aijs_composition_independent_support_zeros a_alphas kijs
   = Raise IndexError).
Proof.
  intros Hshort Hrows. split; intros Hpos.
  - rewrite aijs_plain.
    apply aijs_with_missing_row; [by apply Forall_pos_nonneg | | done | done].
    intros i j Hi Hj. eexists. apply py_div_nonzero.
    pose proof (root_product_pos a_alphas i j Hpos Hi Hj) as H.
    unfold root_product in H. lra.
  - rewrite aijs_support_zeros.
    apply aijs_with_missing_row; [done | | done | done].
    intros i j Hi Hj. by eexists.
Qed.

Lemma pairwise_builders_missing_row_witness :
  a_alpha_aijs_composition_independent [4; 9] [[0; 0.1]] = Raise IndexError /\
  a_alpha_aijs_composition_independent_support_zeros [0; 9] [[0; 0.1]]
  = Raise IndexError.
Proof.
  split.
  - apply (pairwise_builders_missing_row [4; 9] [[0; 0.1]]).
    + simpl. lia.
    + repeat constructor.
    + repeat constructor; lra.
  - apply (pairwise_builders_missing_row [0; 9] [[0; 0.1]]).
    + simpl. lia.
    + repeat constructor.
    + repeat constructor; lra.
Defined.

(** ** The rows a_alpha_and_derivatives_quadratic_terms returns *)

Lemma quad_row_terms_S a_alphas zs kijs n p :
  quad_row_terms a_alphas zs kijs (S n) p
  = quad_row_terms a_alphas zs kijs n p
    + (Rsum n (fun j => pair_scatter zs (quad_a_ij a_alphas kijs n j) n j p)
       + (if decide (p = n) then item a_alphas n * item zs n else 0)).
Proof. reflexivity. Qed.

Lemma quad_drow_terms_S a_alphas da_alpha_dTs zs kijs n p :
  quad_drow_terms a_alphas da_alpha_dTs zs kijs (S n) p
  = quad_drow_terms a_alphas da_alpha_dTs zs kijs n p
    + (Rsum n (fun j => pair_scatter zs (quad_da_raw a_alphas da_alpha_dTs kijs n j) n j p)
       + (if decide (p = n)
          then item zs n * (- item da_alpha_dTs n - item da_alpha_dTs n) else 0)).
Proof. reflexivity. Qed.

Section QuadraticDerivativeRows.
Variables (a_alphas a_alpha_i_roots da_alpha_dTs d2a_alpha_dT2s : list R).
Variables (T : R) (zs : list R) (kijs : list (list R)).
Let N := length a_alphas.
Hypothesis a_alphas_pos : Forall (fun a => 0 < a) a_alphas.
Hypothesis roots_length : length a_alpha_i_roots = N.
Hypothesis roots_are_roots :
  forall i, (i < N)%nat -> item a_alpha_i_roots i = sqrt (item a_alphas i).
Hypothesis da_length : length da_alpha_dTs = N.
Hypothesis d2a_length : length d2a_alpha_dT2s = N.
Hypothesis zs_length : length zs = N.
Hypothesis kijs_square : square N kijs.

Local Abbreviation t200 := (quad_t200 a_alphas zs kijs).
Local Abbreviation da_ij := (quad_da_ij a_alphas da_alpha_dTs zs kijs).
Local Abbreviation d2_ij := (quad_d2_ij a_alphas da_alpha_dTs d2a_alpha_dT2s zs kijs).
Local Abbreviation a_ij := (quad_a_ij a_alphas kijs).
Local Abbreviation da_raw := (quad_da_raw a_alphas da_alpha_dTs kijs).
Local Abbreviation scatter_at := (pair_scatter zs).
Local Abbreviation row_terms := (quad_row_terms a_alphas zs kijs).
Local Abbreviation drow_terms := (quad_drow_terms a_alphas da_alpha_dTs zs kijs).

Lemma quad_rows_run :
  exists a_alpha_j_rows da_alpha_dT_j_rows,
    a_alpha_and_derivatives_quadratic_terms a_alphas a_alpha_i_roots
      da_alpha_dTs d2a_alpha_dT2s T zs kijs
    = Ok (quad_a_alpha a_alphas zs kijs,
          quad_da_alpha_dT a_alphas da_alpha_dTs zs kijs,
          quad_d2a_alpha_dT2 a_alphas da_alpha_dTs d2a_alpha_dT2s zs kijs,
          a_alpha_j_rows, da_alpha_dT_j_rows) /\
    length a_alpha_j_rows = N /\ length da_alpha_dT_j_rows = N /\
    (forall p, item a_alpha_j_rows p = row_terms N p) /\
    (forall p, (p < N)%nat -> item da_alpha_dT_j_rows p = drow_terms N p * -0.5).
Proof.
  unfold a_alpha_and_derivatives_quadratic_terms. fold N.
  pose proof (proj1 kijs_square) as Hklen.
  match goal with |- context [for_range 0 N ?body ?s] =>
    pose proof (for_range_inv
      (fun i st =>
         exists rows drows,
           st = (Rsum i (fun p => Rsum p (fun j => t200 p j + t200 p j)
                                  + item a_alphas p * item zs p * item zs p),
                 Rsum i (fun p =>
                   - (0.5 * ((- item da_alpha_dTs p - item da_alpha_dTs p)
                             * (item zs p * item zs p)
                             + (Rsum p (da_ij p) + Rsum p (da_ij p))))),
                 Rsum i (fun p =>
                   item d2a_alpha_dT2s p * (item zs p * item zs p)
                   + (Rsum p (d2_ij p) + Rsum p (d2_ij p))),
                 rows, drows) /\
           length rows = N /\ length drows = N /\
           (forall p, item rows p = row_terms i p) /\
           (forall p, item drows p = drow_terms i p))
      body 0 N s) as Hloop
  end.
  destruct Hloop as (st & Hst & rows & drows & Hs & Hlen1 & Hlen2 & Hrows & Hdrows).
  - lia.
  - exists (zeros N), (zeros N). split; [done|]. split; [len|]. split; [len|].
    split; intros p; by rewrite item_zeros.
  - intros i st Hi (rows & drows & -> & Hlen1 & Hlen2 & Hrows & Hdrows).
    pose proof (square_row N kijs i kijs_square ltac:(lia)) as Hrowlen.
    py_run.
    match goal with |- context [for_range 0 i ?body ?s] =>
      pose proof (for_range_inv
        (fun j st =>
           exists rows' drows',
             st = (Rsum i (fun p => Rsum p (fun j => t200 p j + t200 p j)
                                    + item a_alphas p * item zs p * item zs p)
                   + Rsum j (fun q => t200 i q + t200 i q),
                   rows', drows', Rsum j (da_ij i), Rsum j (d2_ij i)) /\
             length rows' = N /\ length drows' = N /\
             (forall p, item rows' p
                = row_terms i p + Rsum j (fun q => scatter_at (a_ij i q) i q p)) /\
             (forall p, item drows' p
                = drow_terms i p + Rsum j (fun q => scatter_at (da_raw i q) i q p)))
        body 0 i s) as Hloop
    end.
    destruct Hloop as (st & Hst & rows' & drows' & Hs & Hlen1' & Hlen2' & Hrows' & Hdrows').
    + lia.
    + exists rows, drows. split; [|split; [done|split; [done|]]].
      * cbn [Rsum]. tuple_eq; try reflexivity. lra.
      * split; intros p; cbn [Rsum]; rewrite ?Hrows, ?Hdrows; lra.
    + intros j st Hj (rows' & drows' & -> & Hlen1' & Hlen2' & Hrows' & Hdrows').
      py_run. cbv zeta.
      rewrite (roots_are_roots i), (roots_are_roots j) by lia.
      fold (root_product a_alphas i j).
      rewrite py_div_nonzero.
      2:{ apply Rgt_not_eq, Rlt_gt, root_product_pos; [done|lia..]. }
      py_run. eexists; split; [reflexivity|].
      eexists _, _. split.
      * tuple_eq; try fill_evar.
        all: cbn [Rsum]; unfold_quad; unfold d2_bracket, x1_x2_at, item2.
        all: ring.
      * split; [len|]. split; [len|]. split; intros p.
        -- rewrite !item_insert by len. cbn [Rsum]. rewrite !Hrows'.
           unfold pair_scatter, quad_a_ij, item2.
           repeat case_decide; subst; try lia; ring.
        -- rewrite !item_insert by len. cbn [Rsum]. rewrite !Hdrows'.
           unfold pair_scatter, quad_da_raw, x1_x2_at, item2.
           repeat case_decide; subst; try lia; ring.
    + rewrite Hst. subst st. py_run. cbv zeta.
      eexists; split; [reflexivity|].
      eexists _, _. split.
      * tuple_eq; try fill_evar.
        all: cbn [Rsum]; ring.
      * split; [len|]. split; [len|]. split; intros p.
        -- rewrite quad_row_terms_S, !item_insert by len. rewrite !Hrows'.
           repeat case_decide; subst; try lia; ring.
        -- rewrite quad_drow_terms_S, !item_insert by len. rewrite !Hdrows'.
           repeat case_decide; subst; try lia; ring.
  - rewrite Hst. subst st. py_run.
    match goal with |- context [for_range 0 N ?body ?s] =>
      pose proof (for_range_inv
        (fun (i : nat) (d : list R) =>
           length d = N /\
           forall p, item d p
             = if decide (p < i)%nat then drow_terms N p * -0.5 else drow_terms N p)
        body 0 N s) as Hloop
    end.
    destruct Hloop as (drows' & Hst' & Hlen' & Hscaled).
    + lia.
    + split; [done|]. intros p. rewrite decide_False by lia. apply Hdrows.
    + intros i drows0 Hi [Hlen0 Hd0]. py_run. eexists; split; [reflexivity|].
      split; [len|]. intros p. rewrite item_insert by len. rewrite !Hd0.
      repeat case_decide; subst; try lia; reflexivity.
    + rewrite Hst'. py_run. exists rows, drows'.
      split; [done|]. split; [done|]. split; [done|]. split; [done|].
      intros p Hp. rewrite Hscaled. by rewrite decide_True.
Qed.
End QuadraticDerivativeRows.

(** ** Rows against totals *)

Lemma Rsum_pick n p (c : R) (f : nat -> R) :
  (p < n)%nat ->
  Rsum n (fun q => f q * (if decide (q = p) then c else 0)) = f p * c.
Proof.
  intros Hp.
  rewrite (Rsum_ext n _ (fun q => if decide (q = p) then f q * c else 0)).
  - rewrite (Rsum_only n p (fun q => f q * c)). by rewrite decide_True.
  - intros q _. case_decide; [done | ring].
Qed.

(** The mole-fraction-weighted sum of what one pair scatters. *)
Lemma weighted_pair_scatter N zs x i j :
  (i < N)%nat -> (j < N)%nat ->
  Rsum N (fun p => item zs p * pair_scatter zs x i j p)
  = item zs j * item zs i * x + item zs i * item zs j * x.
Proof.
  intros Hi Hj. unfold pair_scatter.
  rewrite (Rsum_ext N _ (fun p =>
             item zs p * (if decide (p = j) then item zs i * x else 0)
             + item zs p * (if decide (p = i) then item zs j * x else 0))).
  2:{ intros p _. ring. }
  rewrite Rsum_plus, !Rsum_pick by done. ring.
Qed.

(** The weighted sum of a row vector built by scattering pair terms [X] and
    adding diagonal terms [D]. *)
Lemma weighted_rows N zs (X : nat -> nat -> R) (D : nat -> R) n :
  (n <= N)%nat ->
  Rsum N (fun p =>
    item zs p *
    Rsum n (fun i =>
      Rsum i (fun j => pair_scatter zs (X i j) i j p)
      + (if decide (p = i) then D i else 0)))
  = Rsum n (fun i =>
      Rsum i (fun j => item zs j * item zs i * X i j + item zs i * item zs j * X i j)
      + item zs i * D i).
Proof.
  induction n as [|n IH]; intros Hn.
  - cbn [Rsum]. rewrite (Rsum_ext N _ (fun _ => 0)) by (intros; ring). apply Rsum_zero.
  - cbn [Rsum]. rewrite <- IH by lia.
    rewrite (Rsum_ext N _ (fun p =>
      item zs p *
      Rsum n (fun i =>
        Rsum i (fun j => pair_scatter zs (X i j) i j p)
        + (if decide (p = i) then D i else 0))
      + (Rsum n (fun j => item zs p * pair_scatter zs (X n j) n j p)
         + item zs p * (if decide (p = n) then D n else 0)))).
    2:{ intros p _. rewrite Rsum_scal. ring. }
    rewrite !(Rsum_plus N). f_equal. f_equal.
    + rewrite Rsum_swap. apply Rsum_ext. intros j Hj.
      apply weighted_pair_scatter; lia.
    + by rewrite Rsum_pick by lia.
Qed.

Section QuadraticDerivativeTotals.
Variables (a_alphas da_alpha_dTs d2a_alpha_dT2s zs : list R).
Variable kijs : list (list R).
Let N := length a_alphas.

Lemma quad_a_alpha_weighted :
  quad_a_alpha a_alphas zs kijs
  = Rsum N (fun p => item zs p * quad_row_terms a_alphas zs kijs N p).
Proof.
  unfold quad_row_terms.
  rewrite (weighted_rows N zs (quad_a_ij a_alphas kijs)
             (fun i => item a_alphas i * item zs i) N) by lia.
  unfold quad_a_alpha. fold N. apply Rsum_ext. intros i Hi. f_equal; [|ring].
  apply Rsum_ext. intros j Hj. unfold quad_t200, quad_a_ij. ring.
Qed.

Lemma quad_da_alpha_dT_weighted :
  quad_da_alpha_dT a_alphas da_alpha_dTs zs kijs
  = Rsum N (fun p =>
      item zs p * (quad_drow_terms a_alphas da_alpha_dTs zs kijs N p * -0.5)).
Proof.
  rewrite (Rsum_ext N _ (fun p =>
             -0.5 * (item zs p * quad_drow_terms a_alphas da_alpha_dTs zs kijs N p))).
  2:{ intros p _. lra. }
  rewrite Rsum_scal. unfold quad_drow_terms.
  rewrite (weighted_rows N zs (quad_da_raw a_alphas da_alpha_dTs kijs)
             (fun i => item zs i * (- item da_alpha_dTs i - item da_alpha_dTs i)) N)
    by lia.
  rewrite <- Rsum_scal. unfold quad_da_alpha_dT. fold N.
  apply Rsum_ext. intros i Hi.
  assert (Rsum i (fun j =>
            item zs j * item zs i * quad_da_raw a_alphas da_alpha_dTs kijs i j
            + item zs i * item zs j * quad_da_raw a_alphas da_alpha_dTs kijs i j)
          = Rsum i (quad_da_ij a_alphas da_alpha_dTs zs kijs i)
            + Rsum i (quad_da_ij a_alphas da_alpha_dTs zs kijs i)) as ->.
  { rewrite <- Rsum_plus. apply Rsum_ext. intros j _.
    unfold quad_da_ij, quad_da_raw. ring. }
  lra.
Qed.
End QuadraticDerivativeTotals.

(** X11: Over the reals, the totals [a_alpha_and_derivatives_quadratic_terms]
    returns are the mole-fraction-weighted sums of the row vectors it returns
    with them: [a_alpha = sum_i zs[i]*a_alpha_j_rows[i]] and
    [da_alpha_dT = sum_i zs[i]*da_alpha_dT_j_rows[i]], for every square
    [kijs].  The routine accumulates the totals pair by pair and not from the
    rows: the equalities are of real numbers, and nothing is stated of the
    rounded floats. *)
Theorem quadratic_derivative_totals_are_weighted_rows
    (a_alphas a_alpha_i_roots da_alpha_dTs d2a_alpha_dT2s : list R) (T : R)
    (zs : list R) (kijs : list (list R)) :
  Forall (fun a => 0 < a) a_alphas ->
  length a_alpha_i_roots = length a_alphas ->
  (forall i, (i < length a_alphas)%nat ->
     item a_alpha_i_roots i = sqrt (item a_alphas i)) ->
  length da_alpha_dTs = length a_alphas ->
  length d2a_alpha_dT2s = length a_alphas ->
  length zs = length a_alphas ->
  square (length a_alphas) kijs ->
  exists a_alpha da_alpha_dT d2a_alpha_dT2 a_alpha_j_rows da_alpha_dT_j_rows,
    a_alpha_and_derivatives_quadratic_terms a_alphas a_alpha_i_roots
      da_alpha_dTs d2a_alpha_dT2s T zs kijs
    = Ok (a_alpha, da_alpha_dT, d2a_alpha_dT2, a_alpha_j_rows, da_alpha_dT_j_rows) /\
    length a_alpha_j_rows = length a_alphas /\
    length da_alpha_dT_j_rows = length a_alphas /\
    a_alpha = Rsum (length a_alphas) (fun i => item zs i * item a_alpha_j_rows i) /\
    da_alpha_dT
    = Rsum (length a_alphas) (fun i => item zs i * item da_alpha_dT_j_rows i).
Proof.
  intros Hpos Hrlen Hroots Hda Hd2 Hzs Hsq.
  destruct (quad_rows_run a_alphas a_alpha_i_roots da_alpha_dTs d2a_alpha_dT2s T zs kijs
              Hpos Hrlen Hroots Hda Hd2 Hzs Hsq)
    as (rows & drows & Hrun & Hlen & Hdlen & Hrows & Hdrows).
  eexists _, _, _, rows, drows. split; [exact Hrun|].
  split; [done|]. split; [done|]. split.
  - rewrite quad_a_alpha_weighted. apply Rsum_ext. intros p Hp. by rewrite Hrows.
  - rewrite quad_da_alpha_dT_weighted. apply Rsum_ext. intros p Hp.
    by rewrite Hdrows.
Qed.

Lemma quadratic_derivative_totals_are_weighted_rows_witness :
  exists a_alpha da_alpha_dT d2a_alpha_dT2 a_alpha_j_rows da_alpha_dT_j_rows,
    a_alpha_and_derivatives_quadratic_terms [4; 9] [sqrt 4; sqrt 9]
      [0.5; 0.25] [0.5; 0.25] 300 [0.25; 0.75] [[0; 0.3]; [0.1; 0]]
    = Ok (a_alpha, da_alpha_dT, d2a_alpha_dT2, a_alpha_j_rows, da_alpha_dT_j_rows) /\
    length a_alpha_j_rows = 2%nat /\
    length da_alpha_dT_j_rows = 2%nat /\
    a_alpha = Rsum 2 (fun i => item [0.25; 0.75] i * item a_alpha_j_rows i) /\
    da_alpha_dT = Rsum 2 (fun i => item [0.25; 0.75] i * item da_alpha_dT_j_rows i).
Proof.
  apply (quadratic_derivative_totals_are_weighted_rows [4; 9] [sqrt 4; sqrt 9]
           [0.5; 0.25] [0.5; 0.25] 300 [0.25; 0.75] [[0; 0.3]; [0.1; 0]]).
  - repeat constructor; lra.
  - reflexivity.
  - apply item_sqrt_concrete2.
  - reflexivity.
  - reflexivity.
  - reflexivity.
  - square_concrete.
Defined.

(** ** The two quadratic-terms routines against each other *)

Lemma quadratic_row_terms a_alphas a_alpha_i_roots zs kijs p :
  (forall i, (i < length a_alphas)%nat ->
     item a_alpha_i_roots i = sqrt (item a_alphas i)) ->
  zero_diagonal (length a_alphas) kijs ->
  (p < length a_alphas)%nat ->
  quadratic_row a_alphas a_alpha_i_roots zs kijs p
  = quad_row_terms a_alphas zs kijs (length a_alphas) p.
Proof.
  intros Hroots Hdiag Hp. unfold quadratic_row, quad_row_terms, scattered.
  set (N := length a_alphas) in *.
  rewrite Rsum_plus.
  rewrite (Rsum_ext N (fun i => if decide (p = i) then item a_alphas i * item zs i else 0)
             (fun i => if decide (i = p) then item a_alphas i * item zs i else 0)).
  2:{ intros i _. repeat case_decide; subst; done. }
  rewrite (Rsum_only N p (fun i => item a_alphas i * item zs i)), decide_True by done.
  rewrite (Hdiag p Hp). f_equal; [|ring].
  rewrite Rmult_comm, <- Rsum_scal. apply Rsum_ext. intros i Hi.
  rewrite <- Rsum_scal. apply Rsum_ext. intros j Hj.
  unfold scatter, pair_scatter, quad_a_ij, root_product.
  repeat case_decide; subst; try lia;
    rewrite <- ?(Hroots i), <- ?(Hroots j) by lia; ring.
Qed.

(** X12: Over the reals, on a [kijs] with zero diagonal (symmetric or not),
    [a_alpha_quadratic_terms] and [a_alpha_and_derivatives_quadratic_terms]
    return equal mixture [a_alpha] and equal vectors of row sums: equalities
    of real numbers, the two routines multiplying and adding in different
    orders. *)
Theorem quadratic_terms_routines_agree
    (a_alphas a_alpha_i_roots da_alpha_dTs d2a_alpha_dT2s : list R) (T : R)
    (zs : list R) (kijs : list (list R)) :
  Forall (fun a => 0 < a) a_alphas ->
  length a_alpha_i_roots = length a_alphas ->
  (forall i, (i < length a_alphas)%nat ->
     item a_alpha_i_roots i = sqrt (item a_alphas i)) ->
  length da_alpha_dTs = length a_alphas ->
  length d2a_alpha_dT2s = length a_alphas ->
  length zs = length a_alphas ->
  square (length a_alphas) kijs ->
  zero_diagonal (length a_alphas) kijs ->
  exists a_alpha a_alpha_j_rows da_alpha_dT d2a_alpha_dT2 da_alpha_dT_j_rows,
    a_alpha_quadratic_terms a_alphas a_alpha_i_roots T zs kijs
      = Ok (a_alpha, a_alpha_j_rows) /\
    a_alpha_and_derivatives_quadratic_terms a_alphas a_alpha_i_roots
      da_alpha_dTs d2a_alpha_dT2s T zs kijs
    = Ok (a_alpha, da_alpha_dT, d2a_alpha_dT2, a_alpha_j_rows, da_alpha_dT_j_rows).
Proof.
  intros Hpos Hrlen Hroots Hda Hd2 Hzs Hsq Hdiag.
  destruct (quadratic_terms_run a_alphas a_alpha_i_roots T zs kijs Hrlen Hzs Hsq)
    as (rows & Hrun & Hlen & Hrows).
  destruct (quad_rows_run a_alphas a_alpha_i_roots da_alpha_dTs d2a_alpha_dT2s T zs kijs
              Hpos Hrlen Hroots Hda Hd2 Hzs Hsq)
    as (rows' & drows & Hrun' & Hlen' & _ & Hrows' & _).
  assert (rows' = rows) as ->.
  { apply list_item_ext; [congruence|]. intros p Hp.
    rewrite Hrows', Hrows by lia. symmetry. apply quadratic_row_terms; [done | done | lia]. }
  assert (quad_a_alpha a_alphas zs kijs
          = Rsum (length a_alphas) (fun p =>
              quadratic_row a_alphas a_alpha_i_roots zs kijs p * item zs p)) as E.
  { rewrite quad_a_alpha_weighted. apply Rsum_ext. intros p Hp.
    rewrite <- (quadratic_row_terms a_alphas a_alpha_i_roots zs kijs p Hroots Hdiag Hp).
    ring. }
  rewrite E in Hrun'.
  by eexists _, rows, _, _, drows.
Qed.

Lemma quadratic_terms_routines_agree_witness :
  exists a_alpha a_alpha_j_rows da_alpha_dT d2a_alpha_dT2 da_alpha_dT_j_rows,
    a_alpha_quadratic_terms [4; 9] [sqrt 4; sqrt 9] 300 [0.25; 0.75]
      [[0; 0.3]; [0.1; 0]]
      = Ok (a_alpha, a_alpha_j_rows) /\
    a_alpha_and_derivatives_quadratic_terms [4; 9] [sqrt 4; sqrt 9]
      [0.5; 0.25] [0.5; 0.25] 300 [0.25; 0.75] [[0; 0.3]; [0.1; 0]]
    = Ok (a_alpha, da_alpha_dT, d2a_alpha_dT2, a_alpha_j_rows, da_alpha_dT_j_rows).
Proof.
  apply quadratic_terms_routines_agree.
  - repeat constructor; lra.
  - reflexivity.
  - apply item_sqrt_concrete2.
  - reflexivity.
  - reflexivity.
  - reflexivity.
  - square_concrete.
  - intros [|[|i]] Hi; simpl in *; try reflexivity; lia.
Defined.

(** * A zero attractive term, and rounding *)

(** ** The plain pairwise builder at a zero attractive term *)

(** Either no term below [n] is zero, or there is a first one. *)
Lemma first_zero_term (a_alphas : list R) n :
  (forall j, (j < n)%nat -> item a_alphas j <> 0) \/
  exists z, (z < n)%nat /\ item a_alphas z = 0 /\
    forall j, (j < z)%nat -> item a_alphas j <> 0.
Proof.
  induction n as [|n [IH | (z & Hz & Hzero & Hmin)]].
  - left. intros j Hj. lia.
  - destruct (Req_dec_T (item a_alphas n) 0) as [E|E].
    + right. exists n. split; [lia|]. split; [done|]. intros j Hj. apply IH. lia.
    + left. intros j Hj. destruct (decide (j = n)) as [->|]; [done|]. apply IH. lia.
  - right. exists z. split; [lia|]. done.
Qed.

(** On non-negative attractive terms one of which is zero, the first row of
    the pairwise loop reaches the product of the first root with the first
    zero root, and its reciprocal raises. *)
Lemma aijs_plain_zero_raises (a_alphas : list R) (kijs : list (list R)) :
  Forall (fun a => 0 <= a) a_alphas ->
  (exists i, (i < length a_alphas)%nat /\ item a_alphas i = 0) ->
  square (length a_alphas) kijs ->
  a_alpha_aijs_composition_independent a_alphas kijs = Raise ZeroDivisionError.
Proof.
  intros Hpos (i0 & Hi0 & Hzero0) Hsq. rewrite aijs_plain. unfold aijs_with.
  rewrite (comprehension_pow_half a_alphas Hpos), bind_Ok.
  set (N := length a_alphas) in *.
  assert (length (map sqrt a_alphas) = N) as Hrlen by apply length_map.
  destruct (first_zero_term a_alphas N) as [Hnone | (z & Hz & Hzero & Hmin)].
  { exfalso. by apply (Hnone i0). }
  pose proof (proj1 Hsq) as Hklen.
  pose proof (rows_length N kijs 0 (proj2 Hsq) ltac:(lia)) as Hrow.
  match goal with |- (for_range 0 N ?body ?s ≫= _) = _ =>
    rewrite (for_range_raises (fun _ st => square N st.1 /\ square N st.2)
               body 0 0 N s ZeroDivisionError)
  end; [done | lia | split; apply square_zeros2 | intros i st Hi; lia |].
  intros [m inv] [Hm Hinv]. simpl in Hm, Hinv. cbv beta iota.
  rewrite (getitem_nth (@nil R) kijs 0) by lia. rewrite bind_Ok.
  rewrite (getitem_item a_alphas 0) by (unfold N in *; lia). rewrite bind_Ok.
  rewrite (getitem_item (map sqrt a_alphas) 0) by lia. rewrite bind_Ok.
  apply (for_range_raises (fun _ st => square N st.1 /\ square N st.2) _ 0 z N);
    [lia | done | |].
  - intros j [m1 inv1] Hj [Hm1 Hinv1]. simpl in Hm1, Hinv1. cbv beta iota.
    rewrite (getitem_item (map sqrt a_alphas) j) by lia. rewrite bind_Ok. cbv zeta.
    rewrite !item_map_sqrt by (unfold N in *; lia).
    rewrite py_div_nonzero.
    2:{ assert (0 < item a_alphas 0) as H0.
        { pose proof (Forall_item (fun a => 0 <= a) a_alphas 0 Hpos
                        ltac:(unfold N in *; lia)) as H.
          pose proof (Hmin 0%nat ltac:(lia)). simpl in H. lra. }
        assert (0 < item a_alphas j) as H1.
        { pose proof (Forall_item (fun a => 0 <= a) a_alphas j Hpos
                        ltac:(unfold N in *; lia)) as H.
          pose proof (Hmin j ltac:(lia)). simpl in H. lra. }
        apply Rgt_not_eq, Rmult_lt_0_compat; by apply sqrt_lt_R0. }
    rewrite bind_Ok.
    match goal with |- context [setitem2 inv1 0 j ?r] =>
      destruct (setitem2_square_Ok N inv1 0 j r Hinv1) as (inv2 & -> & Hinv2); [lia..|]
    end.
    rewrite bind_Ok.
    rewrite (getitem_item (nth 0 kijs []) j) by lia. rewrite bind_Ok.
    match goal with |- context [setitem2 m1 0 j ?v] =>
      destruct (setitem2_square_Ok N m1 0 j v Hm1) as (m2 & -> & Hm2); [lia..|];
      rewrite bind_Ok;
      destruct (setitem2_square_Ok N m2 j 0 v Hm2) as (m3 & -> & Hm3); [lia..|]
    end.
    rewrite bind_Ok. by eexists.
  - intros [m1 inv1] _. cbv beta iota.
    rewrite (getitem_item (map sqrt a_alphas) z) by lia. rewrite bind_Ok. cbv zeta.
    rewrite (item_map_sqrt a_alphas z) by (unfold N in *; lia).
    rewrite py_div_zero; [done|]. rewrite Hzero, sqrt_0. ring.
Qed.

(** C1 (amended): for strictly positive attractive terms and a symmetric
    N x N matrix [kijs], [a_alpha_aijs_composition_independent] returns a
    pairwise matrix whose entry (i,j) is
    [(1 - kijs[i][j]) * sqrt(a_alphas[i] * a_alphas[j])] and a root vector whose
    entry i is [sqrt(a_alphas[i])]; for non-negative attractive terms one of
    which is zero (and any N x N [kijs]) it raises [ZeroDivisionError] and
    returns nothing. *)
Theorem C1_pairwise_terms (a_alphas : list R) (kijs : list (list R)) :
  (Forall (fun a => 0 < a) a_alphas ->
   square (length a_alphas) kijs ->
   symmetric (length a_alphas) kijs ->
   returns_pairwise_terms a_alphas kijs
     (a_alpha_aijs_composition_independent a_alphas kijs)) /\
  (Forall (fun a => 0 <= a) a_alphas ->
   (exists i, (i < length a_alphas)%nat /\ item a_alphas i = 0) ->
   square (length a_alphas) kijs ->
   a_alpha_aijs_composition_independent a_alphas kijs = Raise ZeroDivisionError).
Proof.
  split.
  - intros Hpos Hsq Hsym.
    destruct (aijs_plain_spec a_alphas kijs Hpos Hsq) as (m & inv & Hrun & Hm & _).
    exists m, (map sqrt a_alphas), inv. split; [done|]. split.
    + intros i j Hi Hj. rewrite Hm by done. f_equal.
      by apply a_alpha_ij_formula_upper; [apply Forall_pos_nonneg|..].
    + intros i Hi. by rewrite list_lookup_fmap, (item_lt_lookup a_alphas i Hi).
  - apply aijs_plain_zero_raises.
Qed.

Lemma C1_pairwise_terms_witness :
  returns_pairwise_terms [4; 9] [[0; 0.1]; [0.1; 0]]
    (a_alpha_aijs_composition_independent [4; 9] [[0; 0.1]; [0.1; 0]]) /\
  a_alpha_aijs_composition_independent [4; 0; 9]
    [[0; 0.1; 0.2]; [0.1; 0; 0.3]; [0.2; 0.3; 0]]
  = Raise ZeroDivisionError.
Proof.
  split.
  - apply (C1_pairwise_terms [4; 9] [[0; 0.1]; [0.1; 0]]).
    + repeat constructor; lra.
    + square_concrete.
    + intros [|[|i]] [|[|j]] Hi Hj; simpl in *; try reflexivity; lia.
  - apply (C1_pairwise_terms [4; 0; 9]
             [[0; 0.1; 0.2]; [0.1; 0; 0.3]; [0.2; 0.3; 0]]).
    + repeat constructor; lra.
    + exists 1%nat. split; [simpl; lia | reflexivity].
    + square_concrete.
Defined.

(** ** The two mixture routines at a zero term and on binary64 floats *)

Set Warnings "-inexact-float".

(** C2 as stated fails in two ways, both on a symmetric matrix with zero
    diagonal.  With a zero attractive term the double sum calls the pairwise
    builder, whose reciprocal raises, where the reformulation (a single
    component, so no pair and no division) returns.  And on binary64 floats
    the two orders of operations round differently: on the two-component
    input below ([2; 3] being the square roots of [4; 9]) all three totals
    differ in the last digits. *)
Lemma C2_totals_differ :
  (symmetric 1 [[0]] /\ zero_diagonal 1 [[0]] /\
   a_alpha_and_derivatives_full [0] [0] [0] 300 [1] [[0]] None None None false
   = Raise ZeroDivisionError /\
   a_alpha_and_derivatives_quadratic_terms [0] [sqrt 0] [0] [0] 300 [1] [[0]]
   = Ok (0, 0, 0, [0], [0])) /\
  (Float64.full_totals
     (Float64.a_alpha_and_derivatives_full [4; 9] [0.5; 0.25] [0.5; 0.25] 300
        [0.3; 0.7] [[0; 0.1]; [0.1; 0]] None None None false)
   = Some (7.037999999999999, 0.34075, 0.335390625) /\
   Float64.quadratic_totals
     (Float64.a_alpha_and_derivatives_quadratic_terms [4; 9] [2; 3]
        [0.5; 0.25] [0.5; 0.25] 300 [0.3; 0.7] [[0; 0.1]; [0.1; 0]])
   = Some (7.0379999999999985, 0.34074999999999994, 0.33539062499999994))%float.
Proof.
  split; [|split; vm_compute; reflexivity].
  split; [intros [|i] [|j] Hi Hj; simpl in *; try reflexivity; lia|].
  split; [intros [|i] Hi; simpl in *; try reflexivity; lia|].
  split.
  - unfold a_alpha_and_derivatives_full.
    rewrite (aijs_plain_zero_raises [0] [[0]]); [reflexivity | | | square_concrete].
    + repeat constructor; lra.
    + exists 0%nat. split; [simpl; lia | reflexivity].
  - unfold a_alpha_and_derivatives_quadratic_terms.
    cbn [length for_range seq for_each Nat.sub zeros replicate].
    py_eval. apply (f_equal Ok).
    tuple_eq; try (apply (f_equal2 cons); [|reflexivity]); lra.
Qed.
